(** * double_translator.py: the push-to-talk translation controller

    A shallow embedding of [double_translator.py] and the properties of its
    control loop: input arbitration between the record button, the direction
    switch and the exit button, the hand-off of captured audio from the
    sounddevice callback to the main thread, and the model life cycle.

    Layout: Python values and strings; the model globals and their heap
    ([load_models], [unload_models]); the environment and the program state;
    the exit callback; the primitive operations; the polling loops and the
    main loop; then the theorems. *)

From Stdlib Require Import Bool Arith Lia List String Ascii ZArith.
Import ListNotations.
Open Scope string_scope.
Open Scope list_scope.

Set Implicit Arguments.

(** ** Python values used by the controller *)

(** A name that holds either [None] or a [str]: [current_direction],
    [direction_changed], [piper_voice], ... *)
Definition pyval := option string.

Definition pyval_eqb (a b : pyval) : bool :=
  match a, b with
  | None, None => true
  | Some x, Some y => String.eqb x y
  | _, _ => false
  end.

(** Truth value of [None] or a [str] in an [if]. *)
Definition truthy (v : pyval) : bool :=
  match v with
  | None => false
  | Some s => negb (String.eqb s "")
  end.

(** [str.isspace] on one character.  A [string] is read as a sequence of code
    points below 256, which covers the English and Spanish text the
    recognizers produce; on that range the white space characters are
    U+0009..U+000D, U+001C..U+0020, U+0085 and U+00A0. *)
Definition py_isspace (c : ascii) : bool :=
  let n := nat_of_ascii c in
  ((9 <=? n)%nat && (n <=? 13)%nat) || ((28 <=? n)%nat && (n <=? 32)%nat)
  || (n =? 133)%nat || (n =? 160)%nat.

Fixpoint lstrip (s : string) : string :=
  match s with
  | EmptyString => EmptyString
  | String c s' => if py_isspace c then lstrip s' else s
  end.

(** [rstrip] keeps a character when it is not white space or when something
    remains after it. *)
Fixpoint rstrip (s : string) : string :=
  match s with
  | EmptyString => EmptyString
  | String c s' =>
      match rstrip s' with
      | EmptyString => if py_isspace c then EmptyString else String c EmptyString
      | r => String c r
      end
  end.

(** [text.strip()] *)
Definition strip (s : string) : string := rstrip (lstrip s).

Fixpoint all_space (s : string) : bool :=
  match s with
  | EmptyString => true
  | String c s' => py_isspace c && all_space s'
  end.

(** ** Paths of the models and of the announcement files *)

Definition VOSK_EN := "vosk_models/vosk-model-small-en-us-0.15".
Definition VOSK_ES := "vosk_models/vosk-model-small-es-0.42".
Definition CT_EN_ES := "./CTranslate/en-es-ctranslate2".
Definition CT_ES_EN := "./CTranslate/es-en-ctranslate2".
Definition SP_EN_ES_SRC := "./CTranslate/opus-mt-en-es/source.spm".
Definition SP_EN_ES_TGT := "./CTranslate/opus-mt-en-es/target.spm".
Definition SP_ES_EN_SRC := "./CTranslate/opus-mt-es-en/source.spm".
Definition SP_ES_EN_TGT := "./CTranslate/opus-mt-es-en/target.spm".
Definition PIPER_ES := "./piper_models/es_ES-davefx-medium.onnx".
Definition PIPER_EN := "./piper_models/en_US-hfc_male-medium.onnx".
Definition PIPER_CONFIG_ES := "./piper_models/es_ES-davefx-medium.onnx.json".
Definition PIPER_CONFIG_EN := "./piper_models/en_US-hfc_male-medium.onnx.json".
Definition PIPER_BIN := "./piper_models/piper/piper".

Definition MODE_EN_ES_FILE := "./en-es-mode-quieter.wav".
Definition MODE_ES_EN_FILE := "./es-en-mode-quieter.wav".
Definition NO_AUDIO_EN_FILE := "./no_audio-en-quieter.wav".
Definition NO_AUDIO_ES_FILE := "./no_audio-es-quieter.wav".
Definition EXIT_FILE := "./exit1.wav".

Definition en_to_es : pyval := Some "en_to_es".
Definition es_to_en : pyval := Some "es_to_en".

(** ** The model globals and the objects they keep alive *)

Module Models.

Inductive kind := Recognizer | Translator | Tokenizer.

(** A loaded object.  [obj_set] is a specification-only stamp: the number of
    the [load_models] call that constructed the object, so that the objects
    of one model set can be told from those of another. *)
Record obj := {
  obj_id : nat;
  obj_kind : kind;
  obj_path : option string;
  obj_set : nat
}.

(** The four object globals hold references (object ids), the two piper
    globals hold path strings.  [fresh] is the value of a constructor call
    that has returned and is not bound to its global yet.  [heap] lists the
    objects that are alive. *)
Record t := {
  vosk_model : option nat;
  translator : option nat;
  sp_source : option nat;
  sp_target : option nat;
  piper_voice : pyval;
  piper_config : pyval;
  fresh : option nat;
  heap : list obj;
  next_id : nat;
  loads : nat
}.

Definition init : t :=
  {| vosk_model := None; translator := None; sp_source := None;
     sp_target := None; piper_voice := None; piper_config := None;
     fresh := None; heap := []; next_id := 0; loads := 0 |}.

Inductive slot := VoskModel | TranslatorSlot | SpSource | SpTarget.

Definition get (s : slot) (m : t) : option nat :=
  match s with
  | VoskModel => vosk_model m
  | TranslatorSlot => translator m
  | SpSource => sp_source m
  | SpTarget => sp_target m
  end.

Definition with_heap (h : list obj) (m : t) : t :=
  {| vosk_model := vosk_model m; translator := translator m;
     sp_source := sp_source m; sp_target := sp_target m;
     piper_voice := piper_voice m; piper_config := piper_config m;
     fresh := fresh m; heap := h; next_id := next_id m; loads := loads m |}.

Definition with_slot (s : slot) (v : option nat) (m : t) : t :=
  {| vosk_model := match s with VoskModel => v | _ => vosk_model m end;
     translator := match s with TranslatorSlot => v | _ => translator m end;
     sp_source := match s with SpSource => v | _ => sp_source m end;
     sp_target := match s with SpTarget => v | _ => sp_target m end;
     piper_voice := piper_voice m; piper_config := piper_config m;
     fresh := fresh m; heap := heap m; next_id := next_id m;
     loads := loads m |}.

Definition referenced (m : t) (i : nat) : bool :=
  let holds v := match v with Some j => Nat.eqb i j | None => false end in
  holds (vosk_model m) || holds (translator m) || holds (sp_source m)
  || holds (sp_target m) || holds (fresh m).

(** Reference counting: an object dies when the last name that refers to it
    is rebound. *)
Definition drop_unreferenced (m : t) : t :=
  with_heap (filter (fun o => referenced m (obj_id o)) (heap m)) m.

(** One statement of [load_models] or [unload_models]; [None] stands for a
    raised exception. *)
Definition stmt := t -> option t.

(** [name = None], and more generally the moment a global is rebound. *)
Definition rebind (s : slot) (v : option nat) : stmt :=
  fun m => Some (drop_unreferenced (with_slot s v m)).

(** [gc.collect()] *)
Definition gc_collect : stmt := fun m => Some (drop_unreferenced m).

(** The call [vosk.Model(p)], [ctranslate2.Translator(p, device="cpu")] or
    [spm.SentencePieceProcessor()]: the new object exists while the global
    still refers to the old one.  The call is taken to return.  With a
    model file missing the constructor raises, [load_models] has no handler
    and the exception ends the program; that path is not followed here, and
    what is stated of a [load_models] that returns is stated as such. *)
Definition construct (k : kind) (p : option string) : stmt :=
  fun m =>
    Some {| vosk_model := vosk_model m; translator := translator m;
            sp_source := sp_source m; sp_target := sp_target m;
            piper_voice := piper_voice m; piper_config := piper_config m;
            fresh := Some (next_id m);
            heap := heap m ++ [{| obj_id := next_id m; obj_kind := k;
                                  obj_path := p; obj_set := loads m |}];
            next_id := S (next_id m); loads := loads m |}.

(** The assignment that follows a constructor call. *)
Definition store (s : slot) : stmt :=
  fun m =>
    let v := fresh m in
    let m1 :=
      {| vosk_model := match s with VoskModel => v | _ => vosk_model m end;
         translator := match s with TranslatorSlot => v | _ => translator m end;
         sp_source := match s with SpSource => v | _ => sp_source m end;
         sp_target := match s with SpTarget => v | _ => sp_target m end;
         piper_voice := piper_voice m; piper_config := piper_config m;
         fresh := None; heap := heap m; next_id := next_id m;
         loads := loads m |} in
    Some (drop_unreferenced m1).

Definition set_path (i : nat) (p : string) (o : obj) : obj :=
  if Nat.eqb (obj_id o) i
  then {| obj_id := obj_id o; obj_kind := obj_kind o; obj_path := Some p;
          obj_set := obj_set o |}
  else o.

(** [sp_source.load(p)]: an [AttributeError] when the global is [None]. *)
Definition sp_load (s : slot) (p : string) : stmt :=
  fun m =>
    match get s m with
    | None => None
    | Some i => Some (with_heap (map (set_path i p) (heap m)) m)
    end.

Definition set_piper (voice config : string) : stmt :=
  fun m =>
    Some {| vosk_model := vosk_model m; translator := translator m;
            sp_source := sp_source m; sp_target := sp_target m;
            piper_voice := Some voice; piper_config := Some config;
            fresh := fresh m; heap := heap m; next_id := next_id m;
            loads := loads m |}.

(** Entry of [load_models]: advances the stamp given to the objects this call
    will construct.  It touches nothing the program can observe. *)
Definition enter_load : stmt :=
  fun m =>
    Some {| vosk_model := vosk_model m; translator := translator m;
            sp_source := sp_source m; sp_target := sp_target m;
            piper_voice := piper_voice m; piper_config := piper_config m;
            fresh := fresh m; heap := heap m; next_id := next_id m;
            loads := S (loads m) |}.

(** [unload_models]: the piper globals are not in its [global] list and keep
    their values. *)
Definition unload_models_body : list stmt :=
  [ rebind VoskModel None;
    rebind TranslatorSlot None;
    rebind SpSource None;
    rebind SpTarget None;
    gc_collect ].

Definition construct_body (vosk ct src tgt voice config : string) : list stmt :=
  [ construct Recognizer (Some vosk); store VoskModel;
    construct Translator (Some ct); store TranslatorSlot;
    construct Tokenizer None; store SpSource;
    sp_load SpSource src;
    construct Tokenizer None; store SpTarget;
    sp_load SpTarget tgt;
    set_piper voice config ].

(** The two branches of [load_models]; a direction that is neither string
    constructs nothing. *)
Definition construct_part (direction : pyval) : list stmt :=
  if pyval_eqb direction en_to_es then
    construct_body VOSK_EN CT_EN_ES SP_EN_ES_SRC SP_EN_ES_TGT
                   PIPER_ES PIPER_CONFIG_ES
  else if pyval_eqb direction es_to_en then
    construct_body VOSK_ES CT_ES_EN SP_ES_EN_SRC SP_ES_EN_TGT
                   PIPER_EN PIPER_CONFIG_EN
  else [].

(** The statements [load_models(direction)] executes, in order. *)
Definition load_models_body (direction : pyval) : list stmt :=
  enter_load :: unload_models_body ++ construct_part direction.

Fixpoint run (body : list stmt) (m : t) : option t :=
  match body with
  | [] => Some m
  | s :: rest =>
      match s m with
      | Some m' => run rest m'
      | None => None
      end
  end.

(** The states the globals pass through, one after each statement. *)
Fixpoint trace (body : list stmt) (m : t) : list t :=
  match body with
  | [] => []
  | s :: rest =>
      match s m with
      | Some m' => m' :: trace rest m'
      | None => []
      end
  end.

Definition unload_models (m : t) : option t := run unload_models_body m.
Definition load_models (direction : pyval) (m : t) : option t :=
  run (load_models_body direction) m.

(** The model sets that have an object alive. *)
Definition resident_sets (m : t) : list nat :=
  nodup Nat.eq_dec (map obj_set (heap m)).

Definition path_of (r : option nat) (m : t) : option string :=
  match r with
  | None => None
  | Some i =>
      match find (fun o => Nat.eqb (obj_id o) i) (heap m) with
      | Some o => obj_path o
      | None => None
      end
  end.

End Models.

(** ** Values exchanged with the audio device and the recognizer *)

(** One block of samples handed to the stream callback: 16-bit mono, so a
    block is a list of samples. *)
Definition chunk := list Z.

(** One call of the stream callback: [status] is truthy or not, [indata] is
    the block. *)
Record delivery := { dl_status : bool; dl_indata : chunk }.

(** What lines 271-278 do: both calls return, or [sd.InputStream(...)]
    raises, or [stream.start()] raises. *)
Inductive open_result := OpenOk | CtorRaises | StartRaises.

Unset Elimination Schemes.
Inductive json :=
| JNull
| JBool (b : bool)
| JNumber (z : Z)
| JString (s : string)
| JArray (l : list json)
| JObject (kv : list (string * json)).
Set Elimination Schemes.

(** The outcome of [json.loads(rec.FinalResult())]. *)
Inductive loads_result := NotJson | Parsed (j : json).

(** [d.get(key, default)] on a [dict]. *)
Fixpoint dict_get (kv : list (string * json)) (key : string) (default : json)
  : json :=
  match kv with
  | [] => default
  | (k, v) :: rest => if String.eqb k key then v else dict_get rest key default
  end.

Definition has_key (kv : list (string * json)) (key : string) : bool :=
  existsb (fun p => String.eqb (fst p) key) kv.

(** ** Events *)

Inductive thread := MainThread | ExitThread | AudioThread.

Inductive led := Red | Green.
Inductive led_op := On | Off | Toggle.

(** What the program does to the outside and what it reads from it.  A
    console message is recorded by its fixed part. *)
Inductive event :=
| EvPrint (msg : string)
| EvLed (l : led) (o : led_op)
| EvSleep (ms : nat)
| EvReadExit (v : bool)
| EvReadButton (v : bool)
| EvReadSwitch (v : bool)
| EvExitFlagSet
| EvAplay (path : string)
| EvLoadModels (direction : pyval)
| EvStreamStart (id : nat)
| EvStreamStop
| EvStreamClose
| EvRecognize (model : option string) (audio : list Z)
| EvPunctuate (text : string)
| EvTranslate (model : option string) (text : string)
| EvSpeak (voice config text : string)
| EvShutdown.

Inductive exn :=
| NameError (name : string)
| AttributeError (attr : string)
| TypeError
| ValueError
| JSONDecodeError
| KeyboardInterrupt.

Definition is_KeyboardInterrupt (e : exn) : bool :=
  match e with KeyboardInterrupt => true | _ => false end.

(** ** The exit callback, statement by statement *)

(** [time.sleep] takes seconds; the model counts milliseconds, so
    [time.sleep(0.25)] is [XSleep 250] and [time.sleep(0.01)] is 10. *)
Inductive exit_op :=
| XToggleRed
| XSleep (ms : nat)
| XPlay (path : string)
| XSetExitRequested
| XPrint (msg : string).

(** The statements of [exit_program], in execution order. *)
Definition exit_program_body : list exit_op :=
  flat_map (fun _ : nat => [XToggleRed; XSleep 250]) (seq 0 8)
  ++ [XPlay EXIT_FILE; XSetExitRequested;
      XPrint "Exit button pressed. Cleaning up..."].

(** ** The environment *)

(** Everything the program does not decide.  Time is counted in ticks: one
    tick passes at every GPIO read, every [time.sleep] and every blocking
    call of the main thread.
    - [record_button_at t], [direction_switch_at t]: what
      [record_button.is_active] and [direction_switch.value == 1] give when
      read at time [t];
    - [exit_button_pressed_at t]: the exit button is pressed during tick [t];
    - [exit_thread_steps_at t]: how many statements of [exit_program] the
      thread that runs it executes during tick [t];
    - [microphone_at t]: the calls of the stream callback during tick [t],
      when a stream is active;
    - [callback_suspended_at t]: the last of these calls is suspended between
      its test of [recording] (line 267) and its [q.put] (line 268), and
      resumes during the next tick: the callback runs on the thread of the
      audio library and takes no lock, so statements of the main thread can
      run between the two;
    - [input_stream_open n]: how the [n]-th opening of an input stream ends;
    - [file_exists]: [os.path.exists];
    - [final_result model audio]: [json.loads(rec.FinalResult())] for the
      recognizer of that model fed with that audio;
    - the last four: the punctuation model, the two tokenizers and the
      translator, each keyed by the path of its model.
    The environment sends the process no interrupt signal, and of the
    calls the main thread makes only the opening of the input stream and
    the parsing of the recognizer's result can fail here; the other
    programs and libraries it calls return. *)
Record World := {
  record_button_at : nat -> bool;
  direction_switch_at : nat -> bool;
  exit_button_pressed_at : nat -> bool;
  exit_thread_steps_at : nat -> nat;
  microphone_at : nat -> list delivery;
  callback_suspended_at : nat -> bool;
  input_stream_open : nat -> open_result;
  file_exists : string -> bool;
  final_result : option string -> list Z -> loads_result;
  restore_punctuation : string -> string;
  sp_encode : option string -> string -> list string;
  translate_batch : option string -> list string -> list string;
  sp_decode : option string -> list string -> string
}.

(** ** The program state *)

(** The module globals and the objects behind them.  [exit_pending] holds the
    statements the callback thread still has to run.  [stream = None] is the
    name [stream] before its first assignment.  [in_flight] is the block of
    a call of the stream callback that has found [recording] true and has
    not executed its [q.put] yet.  [log] is in execution order. *)
Record State := {
  clock : nat;
  exit_requested : bool;
  exit_pending : list exit_op;
  red_led : bool;
  green_led : bool;
  current_direction : pyval;
  models : Models.t;
  stream : option nat;
  stream_active : bool;
  streams_opened : nat;
  recording : bool;
  q : list chunk;
  in_flight : option chunk;
  log : list (thread * event)
}.

Definition set_clock (v : nat) (st : State) : State :=
  {| clock := v; exit_requested := exit_requested st;
     exit_pending := exit_pending st; red_led := red_led st;
     green_led := green_led st; current_direction := current_direction st;
     models := models st; stream := stream st;
     stream_active := stream_active st;
     streams_opened := streams_opened st; recording := recording st;
     q := q st; in_flight := in_flight st;
     log := log st |}.

Definition set_exit_requested (v : bool) (st : State) : State :=
  {| clock := clock st; exit_requested := v;
     exit_pending := exit_pending st; red_led := red_led st;
     green_led := green_led st; current_direction := current_direction st;
     models := models st; stream := stream st;
     stream_active := stream_active st;
     streams_opened := streams_opened st; recording := recording st;
     q := q st; in_flight := in_flight st;
     log := log st |}.

Definition set_exit_pending (v : list exit_op) (st : State) : State :=
  {| clock := clock st; exit_requested := exit_requested st;
     exit_pending := v; red_led := red_led st; green_led := green_led st;
     current_direction := current_direction st; models := models st;
     stream := stream st; stream_active := stream_active st;
     streams_opened := streams_opened st; recording := recording st;
     q := q st; in_flight := in_flight st;
     log := log st |}.

Definition set_red_led (v : bool) (st : State) : State :=
  {| clock := clock st; exit_requested := exit_requested st;
     exit_pending := exit_pending st; red_led := v;
     green_led := green_led st; current_direction := current_direction st;
     models := models st; stream := stream st;
     stream_active := stream_active st;
     streams_opened := streams_opened st; recording := recording st;
     q := q st; in_flight := in_flight st;
     log := log st |}.

Definition set_green_led (v : bool) (st : State) : State :=
  {| clock := clock st; exit_requested := exit_requested st;
     exit_pending := exit_pending st; red_led := red_led st;
     green_led := v; current_direction := current_direction st;
     models := models st; stream := stream st;
     stream_active := stream_active st;
     streams_opened := streams_opened st; recording := recording st;
     q := q st; in_flight := in_flight st;
     log := log st |}.

Definition set_current_direction (v : pyval) (st : State) : State :=
  {| clock := clock st; exit_requested := exit_requested st;
     exit_pending := exit_pending st; red_led := red_led st;
     green_led := green_led st; current_direction := v;
     models := models st; stream := stream st;
     stream_active := stream_active st;
     streams_opened := streams_opened st; recording := recording st;
     q := q st; in_flight := in_flight st;
     log := log st |}.

Definition set_models (v : Models.t) (st : State) : State :=
  {| clock := clock st; exit_requested := exit_requested st;
     exit_pending := exit_pending st; red_led := red_led st;
     green_led := green_led st; current_direction := current_direction st;
     models := v; stream := stream st; stream_active := stream_active st;
     streams_opened := streams_opened st; recording := recording st;
     q := q st; in_flight := in_flight st;
     log := log st |}.

Definition set_stream (v : option nat) (st : State) : State :=
  {| clock := clock st; exit_requested := exit_requested st;
     exit_pending := exit_pending st; red_led := red_led st;
     green_led := green_led st; current_direction := current_direction st;
     models := models st; stream := v; stream_active := stream_active st;
     streams_opened := streams_opened st; recording := recording st;
     q := q st; in_flight := in_flight st;
     log := log st |}.

Definition set_stream_active (v : bool) (st : State) : State :=
  {| clock := clock st; exit_requested := exit_requested st;
     exit_pending := exit_pending st; red_led := red_led st;
     green_led := green_led st; current_direction := current_direction st;
     models := models st; stream := stream st; stream_active := v;
     streams_opened := streams_opened st; recording := recording st;
     q := q st; in_flight := in_flight st;
     log := log st |}.

Definition set_streams_opened (v : nat) (st : State) : State :=
  {| clock := clock st; exit_requested := exit_requested st;
     exit_pending := exit_pending st; red_led := red_led st;
     green_led := green_led st; current_direction := current_direction st;
     models := models st; stream := stream st;
     stream_active := stream_active st; streams_opened := v;
     recording := recording st; q := q st; in_flight := in_flight st;
     log := log st |}.

Definition set_recording (v : bool) (st : State) : State :=
  {| clock := clock st; exit_requested := exit_requested st;
     exit_pending := exit_pending st; red_led := red_led st;
     green_led := green_led st; current_direction := current_direction st;
     models := models st; stream := stream st;
     stream_active := stream_active st;
     streams_opened := streams_opened st; recording := v; q := q st;
     in_flight := in_flight st;
     log := log st |}.

Definition set_q (v : list chunk) (st : State) : State :=
  {| clock := clock st; exit_requested := exit_requested st;
     exit_pending := exit_pending st; red_led := red_led st;
     green_led := green_led st; current_direction := current_direction st;
     models := models st; stream := stream st;
     stream_active := stream_active st;
     streams_opened := streams_opened st; recording := recording st;
     q := v; in_flight := in_flight st;
     log := log st |}.

Definition set_in_flight (v : option chunk) (st : State) : State :=
  {| clock := clock st; exit_requested := exit_requested st;
     exit_pending := exit_pending st; red_led := red_led st;
     green_led := green_led st; current_direction := current_direction st;
     models := models st; stream := stream st;
     stream_active := stream_active st;
     streams_opened := streams_opened st; recording := recording st;
     q := q st; in_flight := v; log := log st |}.

Definition set_log (v : list (thread * event)) (st : State) : State :=
  {| clock := clock st; exit_requested := exit_requested st;
     exit_pending := exit_pending st; red_led := red_led st;
     green_led := green_led st; current_direction := current_direction st;
     models := models st; stream := stream st;
     stream_active := stream_active st;
     streams_opened := streams_opened st; recording := recording st;
     q := q st; in_flight := in_flight st;
     log := v |}.

Definition initial_state : State :=
  {| clock := 0; exit_requested := false; exit_pending := [];
     red_led := false; green_led := false; current_direction := None;
     models := Models.init; stream := None; stream_active := false;
     streams_opened := 0; recording := false; q := []; in_flight := None;
     log := [] |}.

Definition log_event (th : thread) (e : event) (st : State) : State :=
  set_log (log st ++ [(th, e)]) st.

(** ** Results of running a piece of the program *)

Inductive outcome (A : Type) :=
| Ret (a : A) (st : State)
| Raise (e : exn) (st : State)
| OutOfFuel.
Arguments Ret {A} a st.
Arguments Raise {A} e st.
Arguments OutOfFuel {A}.

Definition M (A : Type) := State -> outcome A.

Definition ret {A} (a : A) : M A := fun st => Ret a st.

Definition bind {A B} (m : M A) (k : A -> M B) : M B :=
  fun st =>
    match m st with
    | Ret a st' => k a st'
    | Raise e st' => Raise e st'
    | OutOfFuel => OutOfFuel
    end.

Definition raise {A} (e : exn) : M A := fun st => Raise e st.
Definition gets {A} (f : State -> A) : M A := fun st => Ret (f st) st.
Definition modify (f : State -> State) : M unit := fun st => Ret tt (f st).

Declare Scope prog_scope.
Delimit Scope prog_scope with prog.
Notation "x <- c1 ;; c2" := (bind c1 (fun x => c2))
  (at level 61, c1 at next level, right associativity) : prog_scope.
Notation "c1 ;; c2" := (bind c1 (fun _ => c2))
  (at level 61, right associativity) : prog_scope.
Open Scope prog_scope.

(** [try: body finally: fin]: an exception of [fin] replaces that of
    [body]. *)
Definition try_finally {A} (body : M A) (fin : M unit) : M A :=
  fun st =>
    match body st with
    | Ret a st1 =>
        match fin st1 with
        | Ret _ st2 => Ret a st2
        | Raise e st2 => Raise e st2
        | OutOfFuel => OutOfFuel
        end
    | Raise e st1 =>
        match fin st1 with
        | Ret _ st2 => Raise e st2
        | Raise e' st2 => Raise e' st2
        | OutOfFuel => OutOfFuel
        end
    | OutOfFuel => OutOfFuel
    end.

(** [try: body except E: handler], [catches] telling the exceptions of
    class [E]. *)
Definition try_except {A} (body : M A) (catches : exn -> bool)
  (handler : M A) : M A :=
  fun st =>
    match body st with
    | Raise e st1 => if catches e then handler st1 else Raise e st1
    | r => r
    end.

(** How a stretch of the main loop body ends: it falls through to the next
    statement, or executes [continue], or executes [break]. *)
Inductive flow (A : Type) :=
| Proceed (a : A)
| Continue
| Break.
Arguments Proceed {A} a.
Arguments Continue {A}.
Arguments Break {A}.

Definition and_then {A B} (m : M (flow A)) (k : A -> M (flow B))
  : M (flow B) :=
  r <- m ;;
  match r with
  | Proceed a => k a
  | Continue => ret Continue
  | Break => ret Break
  end.

(** [while not q.empty(): frames.append(q.get())] on the pair of the queue
    and [frames]. *)
Fixpoint drain_loop (queue frames : list chunk) : list chunk * list chunk :=
  match queue with
  | [] => ([], frames)
  | c :: rest => drain_loop rest (frames ++ [c])
  end.

(** [np.concatenate(arrays, axis=0)]: a [ValueError] on an empty list. *)
Definition np_concatenate (arrays : list chunk) : option (list Z) :=
  match arrays with
  | [] => None
  | _ => Some (List.concat arrays)
  end.

(** [np.concatenate(frames, axis=0) if frames else np.array([], dtype='int16')] *)
Definition aggregate (frames : list chunk) : option (list Z) :=
  match frames with
  | [] => Some []
  | _ => np_concatenate frames
  end.

Section Program.

Variable W : World.

(** *** The two other threads *)

(** [play_audio_file(file_path)], run by thread [th]. *)
Definition play_audio_file_as (th : thread) (file_path : string)
  (st : State) : State :=
  if file_exists W file_path
  then log_event th (EvAplay file_path) st
  else log_event th (EvPrint ("Audio file missing: " ++ file_path)%string) st.

Definition exit_step (op : exit_op) (st : State) : State :=
  match op with
  | XToggleRed =>
      log_event ExitThread (EvLed Red Toggle) (set_red_led (negb (red_led st)) st)
  | XSleep ms => log_event ExitThread (EvSleep ms) st
  | XPlay p => play_audio_file_as ExitThread p st
  | XSetExitRequested =>
      log_event ExitThread EvExitFlagSet (set_exit_requested true st)
  | XPrint msg => log_event ExitThread (EvPrint msg) st
  end.

Definition run_exit_ops (ops : list exit_op) (st : State) : State :=
  fold_left (fun s op => exit_step op s) ops st.

(** [exit_program()] run from start to end with nothing in between. *)
Definition exit_program (st : State) : State :=
  run_exit_ops exit_program_body st.

(** The callback thread runs up to [n] of its pending statements. *)
Fixpoint run_exit_thread (n : nat) (st : State) : State :=
  match n with
  | 0 => st
  | S n' =>
      match exit_pending st with
      | [] => st
      | op :: rest => run_exit_thread n' (exit_step op (set_exit_pending rest st))
      end
  end.

(** The stream callback of lines 264-268, which the audio library calls on
    a thread of its own; [recording] and [q] are the module globals at the
    time they are read.  Nothing orders the test of line 267 and the
    [q.put] of line 268 with respect to the main thread.  [callback] is a
    call that runs from its first statement to its last with no statement of
    the main thread in between. *)
Definition callback (d : delivery) (st : State) : State :=
  let st1 := if dl_status d
             then log_event AudioThread (EvPrint "status") st else st in
  if recording st1 then set_q (q st1 ++ [dl_indata d]) st1 else st1.

(** A call that is suspended once it has tested [recording]: lines 265-267
    are done, and when the test was true line 268 is still to come. *)
Definition callback_begin (d : delivery) (st : State) : State :=
  let st1 := if dl_status d
             then log_event AudioThread (EvPrint "status") st else st in
  if recording st1 then set_in_flight (Some (dl_indata d)) st1 else st1.

(** The suspended call resumes: [q.put(indata.copy())] of line 268, on the
    [q] of that moment and whatever [recording] has become. *)
Definition callback_resume (st : State) : State :=
  match in_flight st with
  | Some indata => set_in_flight None (set_q (q st ++ [indata]) st)
  | None => st
  end.

(** The calls of one tick when none is suspended.  The calls are serial:
    the library does not call again before the previous call has
    returned. *)
Definition deliver (ds : list delivery) (st : State) : State :=
  fold_left (fun s d => callback d s) ds st.

(** The calls of one tick when the last of them is suspended. *)
Definition deliver_suspending (ds : list delivery) (st : State) : State :=
  match rev ds with
  | [] => st
  | d :: before => callback_begin d (deliver (rev before) st)
  end.

(** What the thread of the audio library does during tick [t]: a suspended
    call resumes, then an active stream calls the callback for each block it
    has. *)
Definition audio_thread (t : nat) (st : State) : State :=
  let st1 := callback_resume st in
  if stream_active st1
  then if callback_suspended_at W t
       then deliver_suspending (microphone_at W t) st1
       else deliver (microphone_at W t) st1
  else st1.

(** One tick, the time the main thread spends in a read of a pin, in a sleep
    or in a blocking call, during which the other threads run: a press of
    the exit button queues a run of [exit_program], the thread that runs it
    advances by some of its statements, and the audio thread does its
    part. *)
Definition tick (st : State) : State :=
  let t := clock st in
  let st1 := if exit_button_pressed_at W t
             then set_exit_pending (exit_pending st ++ exit_program_body) st
             else st in
  let st2 := run_exit_thread (exit_thread_steps_at W t) st1 in
  set_clock (S t) (audio_thread t st2).

Fixpoint ticks (n : nat) (st : State) : State :=
  match n with
  | 0 => st
  | S n' => ticks n' (tick st)
  end.

(** *** Primitive operations of the main thread *)

Definition emit (e : event) : M unit := modify (log_event MainThread e).
Definition pass_time : M unit := modify tick.
Definition print (msg : string) : M unit := emit (EvPrint msg).

Definition red_led_on : M unit :=
  modify (set_red_led true) ;; emit (EvLed Red On).
Definition red_led_off : M unit :=
  modify (set_red_led false) ;; emit (EvLed Red Off).
Definition green_led_on : M unit :=
  modify (set_green_led true) ;; emit (EvLed Green On).
Definition green_led_off : M unit :=
  modify (set_green_led false) ;; emit (EvLed Green Off).

(** A read of the global [exit_requested]. *)
Definition read_exit_requested : M bool :=
  e <- gets exit_requested ;; emit (EvReadExit e) ;; ret e.

(** [record_button.is_active] *)
Definition record_button_is_active : M bool :=
  pass_time ;;
  t <- gets clock ;;
  emit (EvReadButton (record_button_at W t)) ;;
  ret (record_button_at W t).

Definition get_translation_direction : M pyval :=
  pass_time ;;
  t <- gets clock ;;
  emit (EvReadSwitch (direction_switch_at W t)) ;;
  ret (if direction_switch_at W t then es_to_en else en_to_es).

Definition sleep (ms : nat) : M unit := pass_time ;; emit (EvSleep ms).

Definition play_audio_file (file_path : string) : M unit :=
  pass_time ;; modify (play_audio_file_as MainThread file_path).

Definition play_mode_announcement (direction : pyval) : M unit :=
  play_audio_file (if pyval_eqb direction es_to_en
                   then MODE_ES_EN_FILE else MODE_EN_ES_FILE).

Definition play_no_audio (direction : pyval) : M unit :=
  if pyval_eqb direction en_to_es
  then play_audio_file NO_AUDIO_EN_FILE
  else play_audio_file NO_AUDIO_ES_FILE.

Definition load_message (direction : pyval) : M unit :=
  if pyval_eqb direction en_to_es then print "Loading EN->ES models"
  else if pyval_eqb direction es_to_en then print "Loading ES->EN models"
  else ret tt.

Definition load_models (direction : pyval) : M unit :=
  pass_time ;;
  emit (EvLoadModels direction) ;;
  load_message direction ;;
  m <- gets models ;;
  match Models.load_models direction m with
  | Some m' => modify (set_models m')
  | None => raise (AttributeError "load")
  end.

Definition transcribe (audio : list Z) : M json :=
  pass_time ;;
  m <- gets models ;;
  match Models.vosk_model m with
  | None => raise (AttributeError "_handle")
  | Some _ =>
      let model := Models.path_of (Models.vosk_model m) m in
      emit (EvRecognize model audio) ;;
      match final_result W model audio with
      | NotJson => raise JSONDecodeError
      | Parsed (JObject kv) => ret (dict_get kv "text" (JString ""))
      | Parsed _ => raise (AttributeError "get")
      end
  end.

Definition translate (text : string) : M string :=
  pass_time ;;
  m <- gets models ;;
  match Models.sp_source m, Models.translator m, Models.sp_target m with
  | Some _, Some _, Some _ =>
      let tokens :=
        sp_encode W (Models.path_of (Models.sp_source m) m) text ++ ["</s>"] in
      let hypothesis :=
        translate_batch W (Models.path_of (Models.translator m) m) tokens in
      emit (EvTranslate (Models.path_of (Models.translator m) m) text) ;;
      ret (sp_decode W (Models.path_of (Models.sp_target m) m) hypothesis)
  | _, _, _ => raise (AttributeError "translate")
  end.

Definition speak (text : string) : M unit :=
  pass_time ;;
  m <- gets models ;;
  match Models.piper_voice m, Models.piper_config m with
  | Some voice, Some config => emit (EvSpeak voice config text)
  | _, _ => raise TypeError
  end.

Definition restore_punctuation_call (text : string) : M string :=
  pass_time ;; emit (EvPunctuate text) ;; ret (restore_punctuation W text).

(** Lines 270-281: the [try] around [sd.InputStream(...)] and
    [stream.start()].  When the constructor raises, [stream] keeps whatever
    it was bound to, or stays unbound. *)
Definition open_input_stream : M unit :=
  n <- gets streams_opened ;;
  modify (set_streams_opened (S n)) ;;
  match input_stream_open W n with
  | OpenOk =>
      modify (set_stream (Some n)) ;;
      modify (set_stream_active true) ;;
      emit (EvStreamStart n)
  | CtorRaises => print "Failed to open input stream"
  | StartRaises =>
      modify (set_stream (Some n)) ;; print "Failed to open input stream"
  end.

(** [stream.stop()]: returns once the device has stopped and the callback
    has returned; blocks may still arrive while it waits. *)
Definition stream_stop : M unit :=
  s <- gets stream ;;
  match s with
  | None => raise (NameError "stream")
  | Some _ => pass_time ;; modify (set_stream_active false) ;; emit EvStreamStop
  end.

Definition stream_close : M unit :=
  s <- gets stream ;;
  match s with
  | None => raise (NameError "stream")
  | Some _ => modify (set_stream_active false) ;; emit EvStreamClose
  end.

(** Lines 301-302. *)
Definition drain (frames : list chunk) : M (list chunk) :=
  queue <- gets q ;;
  modify (set_q (fst (drain_loop queue frames))) ;;
  ret (snd (drain_loop queue frames)).

(** *** The polling loops *)

Fixpoint wait_for_button_or_switch_change (fuel : nat) (last_direction : pyval)
  : M pyval :=
  match fuel with
  | 0 => fun _ => OutOfFuel
  | S fuel' =>
      e <- read_exit_requested ;;
      if e then ret (Some "exit") else
      b <- record_button_is_active ;;
      if b then ret None else
      new_direction <- get_translation_direction ;;
      if negb (pyval_eqb new_direction last_direction) then ret new_direction
      else sleep 10 ;; wait_for_button_or_switch_change fuel' last_direction
  end.

Fixpoint wait_for_button_release_or_switch_change (fuel : nat)
  (last_direction : pyval) : M pyval :=
  match fuel with
  | 0 => fun _ => OutOfFuel
  | S fuel' =>
      b <- record_button_is_active ;;
      e <- (if b then read_exit_requested else ret false) ;;
      if b && negb e then
        new_direction <- get_translation_direction ;;
        if negb (pyval_eqb new_direction last_direction) then ret new_direction
        else sleep 10 ;;
             wait_for_button_release_or_switch_change fuel' last_direction
      else
        e' <- read_exit_requested ;;
        if e' then ret (Some "exit") else ret None
  end.

(** The statements that follow a detected direction change (lines 255-257,
    296-298 and 340-342). *)
Definition switch_direction (new_direction : pyval) : M unit :=
  modify (set_current_direction new_direction) ;;
  load_models new_direction ;;
  play_mode_announcement new_direction.

(** Lines 333-345; the value is [play_translation]. *)
Fixpoint playback_wait (fuel : nat) : M bool :=
  match fuel with
  | 0 => fun _ => OutOfFuel
  | S fuel' =>
      e <- read_exit_requested ;;
      if e then ret false else
      b <- record_button_is_active ;;
      if b then ret true else
      new_direction <- get_translation_direction ;;
      cd <- gets current_direction ;;
      if negb (pyval_eqb new_direction cd) then
        green_led_off ;; switch_direction new_direction ;; ret false
      else sleep 10 ;; playback_wait fuel'
  end.

(** *** The body of the main loop *)

(** Lines 252-258: what the main loop does with the value of
    [wait_for_button_or_switch_change]. *)
Definition after_idle_wait (direction_changed : pyval) : M (flow unit) :=
  e <- read_exit_requested ;;
  if e || pyval_eqb direction_changed (Some "exit") then ret Break
  else if truthy direction_changed then
    switch_direction direction_changed ;; ret Continue
  else ret (Proceed tt).

(** Lines 247-258. *)
Definition idle_phase (fuel : nat) : M (flow unit) :=
  red_led_off ;;
  green_led_off ;;
  cd <- gets current_direction ;;
  print (if pyval_eqb cd es_to_en then "Mode: ES->EN" else "Mode: EN->ES") ;;
  print "Press/hold button to record (or toggle switch to change direction)." ;;
  direction_changed <- wait_for_button_or_switch_change fuel cd ;;
  after_idle_wait direction_changed.

(** The [finally] block of lines 288-291. *)
Definition stop_capture : M unit :=
  modify (set_recording false) ;;
  stream_stop ;;
  stream_close ;;
  red_led_off.

(** Lines 260-283: a new queue, the flag, the stream, the indicator. *)
Definition start_capture : M unit :=
  modify (set_q []) ;;
  modify (set_recording true) ;;
  open_input_stream ;;
  red_led_on ;;
  print "Recording... (release button to stop, or toggle switch to change direction)".

(** Lines 284-291; the value is [direction_changed]. *)
Definition capture (fuel : nat) : M pyval :=
  cd <- gets current_direction ;;
  try_finally (wait_for_button_release_or_switch_change fuel cd) stop_capture.

(** Lines 293-299. *)
Definition after_capture (direction_changed : pyval) : M (flow unit) :=
  e <- read_exit_requested ;;
  if e || pyval_eqb direction_changed (Some "exit") then ret Break
  else if truthy direction_changed then
    switch_direction direction_changed ;; ret Continue
  else ret (Proceed tt).

(** Lines 260-299. *)
Definition recording_phase (fuel : nat) : M (flow unit) :=
  start_capture ;;
  direction_changed <- capture fuel ;;
  after_capture direction_changed.

(** Lines 315-328, once [transcribe] has returned [text]. *)
Definition after_transcription (text : json) : M (flow string) :=
  match text with
  | JString s =>
      if String.eqb (strip s) "" then
        print "No speech detected" ;;
        cd <- gets current_direction ;;
        play_no_audio cd ;;
        ret Continue
      else
        print "Restoring punctuation..." ;;
        punctuated <- restore_punctuation_call s ;;
        print "Punctuated" ;;
        print "Translating..." ;;
        red_led_on ;;
        translation <- translate punctuated ;;
        red_led_off ;;
        ret (Proceed translation)
  | _ => raise (AttributeError "strip")
  end.

(** Lines 301-328; the value is [translation]. *)
Definition processing_phase : M (flow string) :=
  frames <- drain [] ;;
  match aggregate frames with
  | None => raise ValueError
  | Some audio =>
      if Nat.eqb (List.length audio) 0 then
        print "No audio recorded" ;;
        cd <- gets current_direction ;;
        play_no_audio cd ;;
        ret Continue
      else
        print "Transcribing..." ;;
        red_led_on ;;
        text <- transcribe audio ;;
        red_led_off ;;
        print "Recognized" ;;
        after_transcription text
  end.

(** Lines 346-353. *)
Definition after_playback_wait (play_translation : bool)
  (translation : string) : M (flow unit) :=
  green_led_off ;;
  e <- read_exit_requested ;;
  if e then ret Break
  else if negb play_translation then ret Continue
  else
    print "Speaking translation..." ;;
    speak translation ;;
    ret Continue.

(** Lines 330-353. *)
Definition playback_phase (fuel : nat) (translation : string)
  : M (flow unit) :=
  green_led_on ;;
  print "Press button to play translation (or toggle switch to change direction)." ;;
  play_translation <- playback_wait fuel ;;
  after_playback_wait play_translation translation.

Definition main_iteration (fuel : nat) : M (flow unit) :=
  and_then (idle_phase fuel) (fun _ =>
  and_then (recording_phase fuel) (fun _ =>
  and_then processing_phase (fun translation =>
  playback_phase fuel translation))).

(** [while not exit_requested: ...] of line 246, for at most [rounds]
    iterations. *)
Fixpoint main_loop (rounds fuel : nat) : M unit :=
  match rounds with
  | 0 => fun _ => OutOfFuel
  | S rounds' =>
      e <- read_exit_requested ;;
      if e then ret tt else
      r <- main_iteration fuel ;;
      match r with
      | Break => ret tt
      | _ => main_loop rounds' fuel
      end
  end.

(** The [finally] block of lines 357-363; [os.system] blocks until the
    command has returned. *)
Definition shutdown : M unit :=
  print "Exiting translator" ;;
  red_led_off ;;
  green_led_off ;;
  print "Shutting down" ;;
  pass_time ;;
  emit EvShutdown.

(** Lines 241-363.  [KeyboardInterrupt] is raised by the interpreter when
    the process receives an interrupt signal; no statement of the program
    raises it, and the environment of this development sends no signal, so
    that here the [except] clause of line 355 has nothing to catch. *)
Definition main (rounds fuel : nat) : M unit :=
  try_finally
    (try_except
       (d <- get_translation_direction ;;
        modify (set_current_direction d) ;;
        load_models d ;;
        play_mode_announcement d ;;
        main_loop rounds fuel)
       is_KeyboardInterrupt
       (print "Keyboard interrupt received"))
    shutdown.

End Program.

(** ** Start-up: the choice of the audio devices *)

(** Lines 16-78, which run once while the module is loaded, before the main
    program. *)

Definition POSSIBLE_DEVICES : list string := ["plughw:3,0"; "plughw:2,0"].
Definition POSSIBLE_INPUT_DEVICES : list string := ["plughw:3,0"; "plughw:2,0"].

(** [b'\x00\x00' * (16000 // 10)], as a list of bytes. *)
Definition silence : list Z := List.concat (repeat [0%Z; 0%Z] (Z.to_nat (16000 / 10))).

(** How [subprocess.run([...], input=silence, ..., timeout=2)] ends: the
    process returns with a code, or the call raises (no [aplay] program, the
    time-out, ...). *)
Inductive run_result := Returned (returncode : Z) | RunRaises.

(** How [with sd.InputStream(device=device, ...): pass] ends: the stream is
    opened, started, stopped and closed, or one of these steps raises. *)
Inductive with_result := WithCompletes | WithRaises.

(** The devices as they answer during start-up: the [aplay] run on an output
    device, and the [with] block on an input device. *)
Record Probes := {
  aplay_silence : string -> run_result;
  input_stream_probe : string -> with_result
}.

Inductive startup_event :=
| SuAplay (device : string) (input : list Z)
| SuInputStream (device : string)
| SuPrint (msg : string).

(** The two module globals and what start-up has done so far. *)
Record Startup := {
  APLAY_DEVICE : pyval;
  INPUT_DEVICE : pyval;
  startup_log : list startup_event
}.

Definition startup_init : Startup :=
  {| APLAY_DEVICE := None; INPUT_DEVICE := None; startup_log := [] |}.

Definition set_APLAY_DEVICE (v : pyval) (s : Startup) : Startup :=
  {| APLAY_DEVICE := v; INPUT_DEVICE := INPUT_DEVICE s;
     startup_log := startup_log s |}.

Definition set_INPUT_DEVICE (v : pyval) (s : Startup) : Startup :=
  {| APLAY_DEVICE := APLAY_DEVICE s; INPUT_DEVICE := v;
     startup_log := startup_log s |}.

Definition startup_emit (e : startup_event) (s : Startup) : Startup :=
  {| APLAY_DEVICE := APLAY_DEVICE s; INPUT_DEVICE := INPUT_DEVICE s;
     startup_log := startup_log s ++ [e] |}.

(** [test_audio_device(device)]: any exception gives [False]. *)
Definition test_audio_device (P : Probes) (device : string) (s : Startup)
  : bool * Startup :=
  (match aplay_silence P device with
   | Returned returncode => Z.eqb returncode 0
   | RunRaises => false
   end,
   startup_emit (SuAplay device silence) s).

(** The [for] loop of [select_audio_device]; the boolean tells whether the
    [return] inside the loop was executed. *)
Fixpoint select_audio_device_loop (P : Probes) (devices : list string)
  (s : Startup) : bool * Startup :=
  match devices with
  | [] => (false, s)
  | device :: rest =>
      let (usable, s1) := test_audio_device P device s in
      if usable then
        (true,
         startup_emit (SuPrint ("Selected output audio device: " ++ device))
           (set_APLAY_DEVICE (Some device) s1))
      else select_audio_device_loop P rest s1
  end.

Definition select_audio_device (P : Probes) (s : Startup) : Startup :=
  let (returned, s1) := select_audio_device_loop P POSSIBLE_DEVICES s in
  if returned then s1
  else
    startup_emit
      (SuPrint "No valid output device found, falling back to 'default'")
      (set_APLAY_DEVICE (Some "default") s1).

(** [test_input_device(device)]: any exception gives [False]. *)
Definition test_input_device (P : Probes) (device : string) (s : Startup)
  : bool * Startup :=
  (match input_stream_probe P device with
   | WithCompletes => true
   | WithRaises => false
   end,
   startup_emit (SuInputStream device) s).

Fixpoint select_input_device_loop (P : Probes) (devices : list string)
  (s : Startup) : bool * Startup :=
  match devices with
  | [] => (false, s)
  | device :: rest =>
      let (usable, s1) := test_input_device P device s in
      if usable then
        (true,
         startup_emit (SuPrint ("Selected input audio device: " ++ device))
           (set_INPUT_DEVICE (Some device) s1))
      else select_input_device_loop P rest s1
  end.

Definition select_input_device (P : Probes) (s : Startup) : Startup :=
  let (returned, s1) := select_input_device_loop P POSSIBLE_INPUT_DEVICES s in
  if returned then s1
  else
    startup_emit
      (SuPrint "No valid input device found; will use default input device")
      (set_INPUT_DEVICE None s1).

(** Lines 50 and 78. *)
Definition startup (P : Probes) : Startup :=
  select_input_device P (select_audio_device P startup_init).

(** * Properties *)

Unset Implicit Arguments.

(** ** The model globals *)

Module ModelsFacts.
Import Models.

Definition uniform (g : nat) (m : t) : Prop :=
  forall o, In o (heap m) -> obj_set o = g.

Lemma nodup_short (l : list nat) (g : nat) :
  (forall x, In x l -> x = g) -> List.length (nodup Nat.eq_dec l) <= 1.
Proof.
  intros H.
  assert (Hn : NoDup (nodup Nat.eq_dec l)) by apply NoDup_nodup.
  assert (Hg : forall x, In x (nodup Nat.eq_dec l) -> x = g).
  { intros x Hx. apply H. now apply nodup_In in Hx. }
  destruct (nodup Nat.eq_dec l) as [|a [|b r]]; simpl; try lia.
  exfalso. inversion Hn as [|? ? Hna _]; subst.
  apply Hna. left.
  rewrite (Hg a), (Hg b); simpl; auto.
Qed.

Lemma uniform_resident g m : uniform g m -> List.length (resident_sets m) <= 1.
Proof.
  intros H. unfold resident_sets. apply nodup_short with (g := g).
  intros x Hx. apply in_map_iff in Hx. destruct Hx as [o [<- Ho]]. now apply H.
Qed.

Lemma resident_uniform m :
  List.length (resident_sets m) <= 1 -> exists g, uniform g m.
Proof.
  unfold resident_sets, uniform. intros H.
  remember (nodup Nat.eq_dec (map obj_set (heap m))) as r eqn:Hr.
  assert (Hin : forall o, In o (heap m) -> In (obj_set o) r).
  { intros o Ho. subst r. apply nodup_In. now apply in_map. }
  destruct r as [|g r'].
  - exists 0. intros o Ho. destruct (Hin o Ho).
  - destruct r' as [|]; [|simpl in H; lia].
    exists g. intros o Ho. destruct (Hin o Ho) as [e|[]]. now symmetry.
Qed.

(** A statement that constructs nothing: every object alive after it was
    alive before, up to its path. *)
Definition releasing (s : stmt) : Prop :=
  forall m m', s m = Some m' ->
    loads m <= loads m' /\
    forall o, In o (heap m') -> exists o0, In o0 (heap m) /\ obj_set o0 = obj_set o.

Lemma drop_unreferenced_heap m o :
  In o (heap (drop_unreferenced m)) -> In o (heap m).
Proof. unfold drop_unreferenced; simpl. intros H. now apply filter_In in H. Qed.

Lemma releasing_rebind s v : releasing (rebind s v).
Proof.
  intros m m' H. injection H as <-. split; [destruct s; simpl; lia|].
  intros o Ho. apply drop_unreferenced_heap in Ho. exists o. now destruct s.
Qed.

Lemma releasing_gc_collect : releasing gc_collect.
Proof.
  intros m m' H. injection H as <-. split; [simpl; lia|].
  intros o Ho. apply drop_unreferenced_heap in Ho. now exists o.
Qed.

Lemma releasing_enter_load : releasing enter_load.
Proof.
  intros m m' H. injection H as <-. split; [simpl; lia|].
  intros o Ho. now exists o.
Qed.

Lemma releasing_unload : Forall releasing (enter_load :: unload_models_body).
Proof.
  unfold unload_models_body.
  repeat (apply Forall_cons; [first [apply releasing_enter_load | apply releasing_rebind | apply releasing_gc_collect]|]).
  apply Forall_nil.
Qed.

Lemma trace_app (a b : list stmt) (m : t) :
  trace (a ++ b) m
  = trace a m ++ match run a m with Some m1 => trace b m1 | None => [] end.
Proof.
  revert m. induction a as [|s a IH]; intros m; simpl; [reflexivity|].
  destruct (s m) as [m1|]; simpl; [now rewrite IH | reflexivity].
Qed.

Lemma run_app (a b : list stmt) (m : t) :
  run (a ++ b) m = match run a m with Some m1 => run b m1 | None => None end.
Proof.
  revert m. induction a as [|s a IH]; intros m; simpl; [reflexivity|].
  destruct (s m) as [m1|]; simpl; [apply IH | reflexivity].
Qed.

Definition preserves (P : t -> Prop) (s : stmt) : Prop :=
  forall m m', P m -> s m = Some m' -> P m'.

Lemma trace_preserves (P : t -> Prop) (body : list stmt) :
  Forall (preserves P) body ->
  forall m, P m -> forall m', In m' (trace body m) -> P m'.
Proof.
  induction 1 as [|s rest Hs _ IH]; intros m Hm m' Hin; simpl in Hin.
  - destruct Hin.
  - destruct (s m) as [m1|] eqn:E; [|destruct Hin].
    destruct Hin as [<-|Hin]; [now apply (Hs m)|].
    apply (IH m1); auto. now apply (Hs m).
Qed.

Lemma run_preserves (P : t -> Prop) (body : list stmt) :
  Forall (preserves P) body ->
  forall m m', P m -> run body m = Some m' -> P m'.
Proof.
  induction 1 as [|s rest Hs _ IH]; intros m m' Hm Hr; simpl in Hr.
  - now injection Hr as <-.
  - destruct (s m) as [m1|] eqn:E; [|discriminate].
    apply (IH m1); auto. now apply (Hs m).
Qed.

Lemma releasing_uniform g s : releasing s -> preserves (uniform g) s.
Proof.
  intros Hs m m' Hu E o Ho. destruct (Hs m m' E) as [_ H].
  destruct (H o Ho) as [o0 [Hin <-]]. now apply Hu.
Qed.

(** The objects alive all carry the stamp of the running [load_models]. *)
Definition current (m : t) : Prop := uniform (loads m) m.

Lemma current_construct k p : preserves current (construct k p).
Proof.
  intros m m' H E. injection E as <-. intros o Ho. simpl in *.
  apply in_app_iff in Ho. destruct Ho as [Ho|[<-|[]]]; [now apply H | reflexivity].
Qed.

Lemma current_store s : preserves current (store s).
Proof.
  intros m m' H E. injection E as <-. intros o Ho.
  apply drop_unreferenced_heap in Ho. destruct s; simpl in *; now apply H.
Qed.

Lemma current_sp_load s p : preserves current (sp_load s p).
Proof.
  unfold sp_load. intros m m' H E. destruct (get s m) as [i|]; [|discriminate].
  injection E as <-. intros o Ho. simpl in *.
  apply in_map_iff in Ho. destruct Ho as [o0 [<- Ho]].
  unfold set_path. destruct (Nat.eqb (obj_id o0) i); simpl; now apply H.
Qed.

Lemma current_set_piper v c : preserves current (set_piper v c).
Proof. intros m m' H E. injection E as <-. exact H. Qed.

Lemma current_construct_body a b c d e f :
  Forall (preserves current) (construct_body a b c d e f).
Proof.
  unfold construct_body.
  repeat (apply Forall_cons;
          [first [ apply current_construct | apply current_store
                 | apply current_sp_load | apply current_set_piper ]|]).
  apply Forall_nil.
Qed.

Lemma load_models_body_split d :
  load_models_body d = (enter_load :: unload_models_body) ++ construct_part d.
Proof. reflexivity. Qed.

Lemma current_construct_part d :
  Forall (preserves current) (construct_part d).
Proof.
  unfold construct_part.
  destruct (pyval_eqb d en_to_es); [apply current_construct_body|].
  destruct (pyval_eqb d es_to_en); [apply current_construct_body|apply Forall_nil].
Qed.

Lemma filter_none {A} (f : A -> bool) (l : list A) :
  (forall x, f x = false) -> filter f l = [].
Proof. intros H. induction l as [|a l IH]; simpl; [|rewrite H]; auto. Qed.

Lemma run_cons (s : stmt) (rest : list stmt) (m m1 : t) :
  s m = Some m1 -> run (s :: rest) m = run rest m1.
Proof. intros E. simpl. now rewrite E. Qed.

(** What a statement leaves untouched besides the heap. *)
Definition same_names (m m' : t) : Prop :=
  fresh m' = fresh m /\ loads m' = loads m /\ next_id m' = next_id m.

Lemma rebind_none (s : slot) (m : t) :
  exists m', rebind s None m = Some m' /\ get s m' = None /\
             (forall s', get s' m = None -> get s' m' = None) /\
             same_names m m'.
Proof.
  eexists. split; [reflexivity|]. unfold same_names.
  destruct s; simpl; repeat split; auto; intros s'; destruct s'; simpl; auto.
Qed.

Lemma gc_collect_empty (m : t) :
  (forall s, get s m = None) -> fresh m = None ->
  exists m', gc_collect m = Some m' /\ heap m' = [] /\
             (forall s, get s m' = None) /\ same_names m m'.
Proof.
  intros Hs Hf. eexists. split; [reflexivity|]. unfold same_names. simpl.
  split; [|split; [|auto]].
  - apply filter_none. intros o. unfold referenced.
    rewrite (Hs VoskModel : vosk_model m = None),
            (Hs TranslatorSlot : translator m = None),
            (Hs SpSource : sp_source m = None),
            (Hs SpTarget : sp_target m = None), Hf. reflexivity.
  - intros s. specialize (Hs s). destruct s; simpl in *; exact Hs.
Qed.

(** [unload_models] leaves no object alive when no constructor value is
    pending. *)
Lemma unload_releases m :
  fresh m = None ->
  exists m0,
    run (enter_load :: unload_models_body) m = Some m0 /\
    heap m0 = [] /\ fresh m0 = None /\ loads m0 = S (loads m) /\
    next_id m0 = next_id m.
Proof.
  intros Hf. unfold unload_models_body.
  rewrite (run_cons enter_load _ m _ eq_refl).
  set (m1 := {| vosk_model := vosk_model m; translator := translator m;
                sp_source := sp_source m; sp_target := sp_target m;
                piper_voice := piper_voice m; piper_config := piper_config m;
                fresh := fresh m; heap := heap m; next_id := next_id m;
                loads := S (loads m) |}).
  destruct (rebind_none VoskModel m1) as [m2 [E2 [V2 [_ [F2 [L2 N2]]]]]].
  destruct (rebind_none TranslatorSlot m2) as [m3 [E3 [V3 [K3 [F3 [L3 N3]]]]]].
  destruct (rebind_none SpSource m3) as [m4 [E4 [V4 [K4 [F4 [L4 N4]]]]]].
  destruct (rebind_none SpTarget m4) as [m5 [E5 [V5 [K5 [F5 [L5 N5]]]]]].
  assert (Hall : forall s, get s m5 = None).
  { intros s. destruct s.
    - apply K5, K4, K3. exact V2.
    - apply K5, K4. exact V3.
    - apply K5. exact V4.
    - exact V5. }
  assert (Hf5 : fresh m5 = None) by (rewrite F5, F4, F3, F2; exact Hf).
  destruct (gc_collect_empty m5 Hall Hf5) as [m6 [E6 [H6 [_ [F6 [L6 N6]]]]]].
  rewrite (run_cons _ _ _ _ E2), (run_cons _ _ _ _ E3),
          (run_cons _ _ _ _ E4), (run_cons _ _ _ _ E5),
          (run_cons _ _ _ _ E6).
  exists m6. simpl. repeat split; auto.
  - now rewrite F6.
  - now rewrite L6, L5, L4, L3, L2.
  - now rewrite N6, N5, N4, N3, N2.
Qed.

Lemma construct_spec (k : kind) (p : option string) (m : t) :
  exists m', construct k p m = Some m' /\
             fresh m' = Some (next_id m) /\
             exists o, In o (heap m') /\ obj_id o = next_id m.
Proof.
  eexists. split; [reflexivity|]. simpl. split; [reflexivity|].
  eexists. split; [apply in_or_app; right; left; reflexivity | reflexivity].
Qed.

Lemma store_spec (s : slot) (m : t) (i : nat) (o : obj) :
  fresh m = Some i -> In o (heap m) -> obj_id o = i ->
  exists m', store s m = Some m' /\ fresh m' = None /\
             get s m' = Some i /\ In o (heap m').
Proof.
  intros Hf Hin Hid. eexists. split; [reflexivity|]. simpl.
  split; [reflexivity|]. split; [destruct s; simpl; exact Hf|].
  apply filter_In. split; [exact Hin|].
  unfold referenced. rewrite Hid, Hf.
  destruct s; simpl; rewrite Nat.eqb_refl, ?orb_true_r; reflexivity.
Qed.

Lemma sp_load_spec (s : slot) (p : string) (m : t) (i : nat) :
  get s m = Some i ->
  exists m', sp_load s p m = Some m' /\ fresh m' = fresh m /\
             (heap m <> [] -> heap m' <> []).
Proof.
  intros Hg. unfold sp_load. rewrite Hg. eexists. split; [reflexivity|].
  simpl. split; [reflexivity|].
  destruct (heap m); simpl; [auto | discriminate].
Qed.

(** The constructing half of [load_models] raises nothing and leaves an
    object alive. *)
Lemma construct_body_runs vosk ct src tgt voice config (m0 : t) :
  exists m1,
    run (construct_body vosk ct src tgt voice config) m0 = Some m1 /\
    fresh m1 = None /\ heap m1 <> [].
Proof.
  unfold construct_body.
  destruct (construct_spec Recognizer (Some vosk) m0)
    as [a1 [E1 [F1 [o1 [I1 D1]]]]].
  destruct (store_spec VoskModel a1 _ _ F1 I1 D1) as [a2 [E2 _]].
  destruct (construct_spec Translator (Some ct) a2)
    as [a3 [E3 [F3 [o3 [I3 D3]]]]].
  destruct (store_spec TranslatorSlot a3 _ _ F3 I3 D3) as [a4 [E4 _]].
  destruct (construct_spec Tokenizer None a4) as [a5 [E5 [F5 [o5 [I5 D5]]]]].
  destruct (store_spec SpSource a5 _ _ F5 I5 D5) as [a6 [E6 [_ [G6 _]]]].
  destruct (sp_load_spec SpSource src a6 _ G6) as [a7 [E7 _]].
  destruct (construct_spec Tokenizer None a7) as [a8 [E8 [F8 [o8 [I8 D8]]]]].
  destruct (store_spec SpTarget a8 _ _ F8 I8 D8) as [a9 [E9 [F9 [G9 I9]]]].
  destruct (sp_load_spec SpTarget tgt a9 _ G9) as [a10 [E10 [F10 H10]]].
  rewrite (run_cons _ _ _ _ E1), (run_cons _ _ _ _ E2),
          (run_cons _ _ _ _ E3), (run_cons _ _ _ _ E4),
          (run_cons _ _ _ _ E5), (run_cons _ _ _ _ E6),
          (run_cons _ _ _ _ E7), (run_cons _ _ _ _ E8),
          (run_cons _ _ _ _ E9), (run_cons _ _ _ _ E10).
  eexists. split; [reflexivity|]. simpl. split.
  - now rewrite F10.
  - apply H10. intros Hnil. rewrite Hnil in I9. destruct I9.
Qed.

Lemma nodup_const (g : nat) (l : list nat) :
  l <> [] -> (forall x, In x l -> x = g) -> nodup Nat.eq_dec l = [g].
Proof.
  induction l as [|a l IH]; intros Hne Hall; [congruence|].
  assert (a = g) by (apply Hall; now left). subst a.
  simpl. destruct (in_dec Nat.eq_dec g l) as [Hin|Hnin].
  - apply IH; [intros ->; destruct Hin | intros x Hx; apply Hall; now right].
  - destruct l as [|b l]; [reflexivity|].
    exfalso. apply Hnin. left. apply Hall. right. now left.
Qed.

Lemma load_models_once (d : pyval) (m : t) :
  fresh m = None -> List.length (resident_sets m) <= 1 ->
  (forall m', In m' (trace (load_models_body d) m) ->
              List.length (resident_sets m') <= 1) /\
  exists m1,
    load_models d m = Some m1 /\ fresh m1 = None /\
    List.length (resident_sets m1) <= 1 /\
    (d = en_to_es \/ d = es_to_en -> resident_sets m1 = [loads m1]).
Proof.
  intros Hf Hr.
  destruct (resident_uniform m Hr) as [g Hg].
  destruct (unload_releases m Hf)
    as [m0 [Hrun [Hheap [Hfresh [Hloads _]]]]].
  assert (Hcur : current m0) by (intros o Ho; rewrite Hheap in Ho; destruct Ho).
  split.
  - intros m' Hin. rewrite load_models_body_split, trace_app, Hrun in Hin.
    apply in_app_iff in Hin. destruct Hin as [Hin|Hin].
    + apply uniform_resident with (g := g).
      revert Hin. apply (trace_preserves (uniform g)); [|exact Hg].
      eapply Forall_impl; [|apply releasing_unload].
      intros s. apply releasing_uniform.
    + apply uniform_resident with (g := loads m').
      revert Hin. apply (trace_preserves current);
        [apply current_construct_part | exact Hcur].
  - unfold load_models. rewrite load_models_body_split, run_app, Hrun.
    unfold construct_part.
    destruct (pyval_eqb d en_to_es) eqn:Een;
      [|destruct (pyval_eqb d es_to_en) eqn:Ees].
    1,2: match goal with
         | |- context [run (construct_body ?a ?b ?c ?e ?f ?h) ?m] =>
             destruct (construct_body_runs a b c e f h m)
               as [m1 [Hm1 [Hf1 Hne]]];
             assert (Hc1 : current m1)
               by (apply (run_preserves current _
                            (current_construct_body a b c e f h) m m1 Hcur Hm1))
         end;
         rewrite Hm1; exists m1; split; [reflexivity|]; split; [exact Hf1|];
         split;
         [ now apply uniform_resident with (g := loads m1)
         | intros _; unfold resident_sets; apply nodup_const;
           [ destruct (heap m1); [congruence | discriminate]
           | intros x Hx; apply in_map_iff in Hx;
             destruct Hx as [o [<- Ho]]; now apply Hc1 ] ].
    exists m0. simpl. split; [reflexivity|]. split; [assumption|]. split.
    + now apply uniform_resident with (g := loads m0).
    + intros [->| ->]; discriminate.
Qed.
End ModelsFacts.

(** C4.  Whatever the direction, [load_models] first runs [unload_models],
    after which no model object is alive, and only then constructs; at every
    point of the call the objects alive belong to at most one model set; the
    call returns, with exactly one set resident when the direction is one of
    the two the switch can give; and two calls in a row never have objects of
    two sets alive at once. *)
Theorem C4_load_models_one_resident_set (d : pyval) (m : Models.t) :
  Models.fresh m = None ->
  List.length (Models.resident_sets m) <= 1 ->
  (exists m0,
      Models.run (Models.enter_load :: Models.unload_models_body) m = Some m0 /\
      Models.heap m0 = [] /\
      Models.load_models_body d
      = (Models.enter_load :: Models.unload_models_body)
          ++ Models.construct_part d) /\
  (forall m', In m' (Models.trace (Models.load_models_body d) m) ->
              List.length (Models.resident_sets m') <= 1) /\
  (exists m1,
      Models.load_models d m = Some m1 /\
      List.length (Models.resident_sets m1) <= 1 /\
      (d = en_to_es \/ d = es_to_en ->
       Models.resident_sets m1 = [Models.loads m1])) /\
  (forall m',
      In m' (Models.trace (Models.load_models_body d ++ Models.load_models_body d) m) ->
      List.length (Models.resident_sets m') <= 1).
Proof.
  intros Hf Hr.
  destruct (ModelsFacts.load_models_once d m Hf Hr)
    as [Htrace [m1 [Hload [Hf1 [Hr1 Hone]]]]].
  split; [|split; [exact Htrace|split]].
  - destruct (ModelsFacts.unload_releases m Hf) as [m0 [Hrun [Hheap _]]].
    exists m0. auto.
  - exists m1. auto.
  - intros m' Hin. rewrite ModelsFacts.trace_app in Hin.
    apply in_app_iff in Hin. destruct Hin as [Hin|Hin]; [now apply Htrace|].
    unfold Models.load_models in Hload. rewrite Hload in Hin.
    now apply (ModelsFacts.load_models_once d m1 Hf1 Hr1).
Qed.

(** The globals once the English-to-Spanish set is loaded. *)
Definition loaded_en_to_es : Models.t :=
  Eval vm_compute in
    match Models.load_models en_to_es Models.init with
    | Some m => m
    | None => Models.init
    end.

Lemma C4_witness :
  Models.fresh loaded_en_to_es = None /\
  List.length (Models.resident_sets loaded_en_to_es) <= 1 /\
  exists m1,
    Models.load_models es_to_en loaded_en_to_es = Some m1 /\
    List.length (Models.resident_sets m1) <= 1.
Proof.
  assert (Hf : Models.fresh loaded_en_to_es = None) by reflexivity.
  assert (Hr : List.length (Models.resident_sets loaded_en_to_es) <= 1)
    by (vm_compute; lia).
  split; [exact Hf|]. split; [exact Hr|].
  destruct (C4_load_models_one_resident_set es_to_en loaded_en_to_es Hf Hr)
    as [_ [_ [[m1 [Hload [Hlen _]]] _]]].
  exists m1. split; assumption.
Defined.

(** ** White space and [strip] *)

Lemma lstrip_all_space (s : string) : all_space s = true -> lstrip s = "".
Proof.
  induction s as [|c s IH]; simpl; [reflexivity|].
  intros H. apply andb_true_iff in H. destruct H as [Hc Hs].
  rewrite Hc. now apply IH.
Qed.

Lemma lstrip_head (s : string) :
  lstrip s = "" \/ exists c r, lstrip s = String c r /\ py_isspace c = false.
Proof.
  induction s as [|c s IH]; simpl; [now left|].
  destruct (py_isspace c) eqn:E; [exact IH|].
  right. now exists c, s.
Qed.

Lemma rstrip_nonempty (c : ascii) (r : string) :
  py_isspace c = false -> rstrip (String c r) <> "".
Proof.
  intros Hc. simpl. destruct (rstrip r); [rewrite Hc|]; discriminate.
Qed.

Lemma lstrip_empty_all_space (s : string) : lstrip s = "" -> all_space s = true.
Proof.
  induction s as [|c s IH]; simpl; [reflexivity|].
  destruct (py_isspace c); [exact IH | discriminate].
Qed.

(** [not text.strip()] holds exactly for the empty and the all-white-space
    strings. *)
Lemma strip_empty_iff (s : string) : strip s = "" <-> all_space s = true.
Proof.
  unfold strip. split.
  - intros H. destruct (lstrip_head s) as [E|[c [r [E Hc]]]].
    + now apply lstrip_empty_all_space.
    + rewrite E in H. now apply rstrip_nonempty in H.
  - intros H. now rewrite lstrip_all_space.
Qed.

(** ** The queue and its drain *)

Lemma drain_loop_spec (queue frames : list chunk) :
  drain_loop queue frames = ([], frames ++ queue).
Proof.
  revert frames. induction queue as [|c rest IH]; intros frames; simpl.
  - now rewrite app_nil_r.
  - rewrite IH. now rewrite <- app_assoc.
Qed.

Lemma length_concat_sum (l : list chunk) :
  List.length (List.concat l) = list_sum (map (@List.length Z) l).
Proof.
  induction l as [|c l IH]; simpl; [reflexivity|].
  now rewrite length_app, IH.
Qed.

(** ** What a tick can and cannot change *)

(** The events of the main thread in a log, in order. *)
Fixpoint main_of (l : list (thread * event)) : list event :=
  match l with
  | [] => []
  | (MainThread, e) :: rest => e :: main_of rest
  | _ :: rest => main_of rest
  end.

Definition main_events (st : State) : list event := main_of (log st).

Lemma main_of_app (l1 l2 : list (thread * event)) :
  main_of (l1 ++ l2) = main_of l1 ++ main_of l2.
Proof.
  induction l1 as [|[th e] l1 IH]; simpl; [reflexivity|].
  destruct th; simpl; now rewrite IH.
Qed.

Lemma main_events_log_event th e st :
  main_events (log_event th e st)
  = main_events st ++ match th with MainThread => [e] | _ => [] end.
Proof.
  unfold main_events. simpl. rewrite main_of_app. destruct th; reflexivity.
Qed.

(** A reading of the state that the two background threads never touch. *)
Record background_frame {X : Type} (f : State -> X) : Prop := {
  frame_clock : forall v st, f (set_clock v st) = f st;
  frame_exit_requested : forall v st, f (set_exit_requested v st) = f st;
  frame_exit_pending : forall v st, f (set_exit_pending v st) = f st;
  frame_red_led : forall v st, f (set_red_led v st) = f st;
  frame_q : forall v st, f (set_q v st) = f st;
  frame_in_flight : forall v st, f (set_in_flight v st) = f st;
  frame_log : forall th e st, th <> MainThread -> f (log_event th e st) = f st
}.

Section Background.

Variable W : World.
Context {X : Type} (f : State -> X) (Hf : background_frame f).

Lemma exit_step_frame op st : f (exit_step W op st) = f st.
Proof.
  destruct Hf. destruct op; simpl; unfold play_audio_file_as;
    try destruct (file_exists W path);
    rewrite ?frame_log0, ?frame_red_led0, ?frame_exit_requested0;
    auto; discriminate.
Qed.

Lemma run_exit_thread_frame n st : f (run_exit_thread W n st) = f st.
Proof.
  revert st. induction n as [|n IH]; intros st; simpl; [reflexivity|].
  destruct (exit_pending st) as [|op rest] eqn:E; [reflexivity|].
  rewrite IH, exit_step_frame. apply (frame_exit_pending f Hf).
Qed.

Lemma callback_frame d st : f (callback d st) = f st.
Proof.
  destruct Hf. unfold callback.
  destruct (dl_status d);
    match goal with |- context [if ?b then _ else _] => destruct b end;
    rewrite ?frame_q0, ?frame_log0; auto; discriminate.
Qed.

Lemma deliver_frame ds st : f (deliver ds st) = f st.
Proof.
  unfold deliver. revert st.
  induction ds as [|d ds IH]; intros st; simpl; [reflexivity|].
  now rewrite IH, callback_frame.
Qed.

Lemma callback_begin_frame d st : f (callback_begin d st) = f st.
Proof.
  destruct Hf. unfold callback_begin.
  destruct (dl_status d);
    match goal with |- context [if ?b then _ else _] => destruct b end;
    rewrite ?frame_in_flight0, ?frame_log0; auto; discriminate.
Qed.

Lemma callback_resume_frame st : f (callback_resume st) = f st.
Proof.
  destruct Hf. unfold callback_resume.
  destruct (in_flight st); [|reflexivity].
  now rewrite frame_in_flight0, frame_q0.
Qed.

Lemma deliver_suspending_frame ds st : f (deliver_suspending ds st) = f st.
Proof.
  unfold deliver_suspending. destruct (rev ds); [reflexivity|].
  now rewrite callback_begin_frame, deliver_frame.
Qed.

Lemma audio_thread_frame t st : f (audio_thread W t st) = f st.
Proof.
  unfold audio_thread.
  destruct (stream_active _); [destruct (callback_suspended_at W t)|];
    now rewrite ?deliver_suspending_frame, ?deliver_frame,
      callback_resume_frame.
Qed.

Lemma tick_frame st : f (tick W st) = f st.
Proof.
  unfold tick. rewrite (frame_clock f Hf), audio_thread_frame,
    run_exit_thread_frame.
  destruct (exit_button_pressed_at W (clock st));
    rewrite ?(frame_exit_pending f Hf); reflexivity.
Qed.

Lemma ticks_frame n st : f (ticks W n st) = f st.
Proof.
  revert st. induction n as [|n IH]; intros st; simpl; [reflexivity|].
  now rewrite IH, tick_frame.
Qed.

End Background.

Ltac frame := constructor; intros; try reflexivity.

Lemma frame_green_led : background_frame green_led. Proof. frame. Qed.
Lemma frame_current_direction : background_frame current_direction.
Proof. frame. Qed.
Lemma frame_models : background_frame models. Proof. frame. Qed.
Lemma frame_stream : background_frame stream. Proof. frame. Qed.
Lemma frame_stream_active : background_frame stream_active. Proof. frame. Qed.
Lemma frame_streams_opened : background_frame streams_opened.
Proof. frame. Qed.
Lemma frame_recording : background_frame recording. Proof. frame. Qed.
Lemma frame_main_events : background_frame main_events.
Proof.
  frame. rewrite main_events_log_event. destruct th; [congruence| |];
    apply app_nil_r.
Qed.

Section Ticks.

Variable W : World.

Lemma clock_tick st : clock (tick W st) = S (clock st).
Proof. reflexivity. Qed.

Lemma tick_green_led st : green_led (tick W st) = green_led st.
Proof. apply (tick_frame W _ frame_green_led). Qed.
Lemma tick_current_direction st :
  current_direction (tick W st) = current_direction st.
Proof. apply (tick_frame W _ frame_current_direction). Qed.
Lemma tick_models st : models (tick W st) = models st.
Proof. apply (tick_frame W _ frame_models). Qed.
Lemma tick_stream st : stream (tick W st) = stream st.
Proof. apply (tick_frame W _ frame_stream). Qed.
Lemma tick_stream_active st : stream_active (tick W st) = stream_active st.
Proof. apply (tick_frame W _ frame_stream_active). Qed.
Lemma tick_streams_opened st : streams_opened (tick W st) = streams_opened st.
Proof. apply (tick_frame W _ frame_streams_opened). Qed.
Lemma tick_recording st : recording (tick W st) = recording st.
Proof. apply (tick_frame W _ frame_recording). Qed.
Lemma tick_main_of st : main_of (log (tick W st)) = main_of (log st).
Proof. apply (tick_frame W main_events frame_main_events). Qed.

(** *** The exit flag only ever goes from unset to set *)

Lemma exit_step_monotonic op st :
  exit_requested st = true -> exit_requested (exit_step W op st) = true.
Proof.
  destruct op; simpl; auto.
  unfold play_audio_file_as. now destruct (file_exists W path).
Qed.

Lemma run_exit_ops_monotonic ops st :
  exit_requested st = true -> exit_requested (run_exit_ops W ops st) = true.
Proof.
  unfold run_exit_ops. revert st.
  induction ops as [|op ops IH]; intros st H; simpl; [exact H|].
  apply IH. now apply exit_step_monotonic.
Qed.

Lemma run_exit_thread_monotonic n st :
  exit_requested st = true -> exit_requested (run_exit_thread W n st) = true.
Proof.
  revert st. induction n as [|n IH]; intros st H; simpl; [exact H|].
  destruct (exit_pending st) as [|op rest]; [exact H|].
  apply IH. now apply exit_step_monotonic.
Qed.

Lemma callback_exit_requested d st :
  exit_requested (callback d st) = exit_requested st.
Proof.
  unfold callback. destruct (dl_status d);
    match goal with |- context [if ?b then _ else _] => destruct b end;
    reflexivity.
Qed.

Lemma deliver_exit_requested ds st :
  exit_requested (deliver ds st) = exit_requested st.
Proof.
  unfold deliver. revert st.
  induction ds as [|d ds IH]; intros st; simpl; [reflexivity|].
  now rewrite IH, callback_exit_requested.
Qed.

Lemma audio_thread_exit_requested t st :
  exit_requested (audio_thread W t st) = exit_requested st.
Proof.
  unfold audio_thread, deliver_suspending, callback_begin, callback_resume.
  repeat match goal with
         | |- context [match ?x with _ => _ end] => destruct x eqn:?
         end;
    simpl; rewrite ?deliver_exit_requested; simpl; reflexivity.
Qed.

Lemma tick_monotonic st :
  exit_requested st = true -> exit_requested (tick W st) = true.
Proof.
  intros H. unfold tick. simpl. rewrite audio_thread_exit_requested.
  apply run_exit_thread_monotonic.
  now destruct (exit_button_pressed_at W (clock st)).
Qed.



Lemma ticks_monotonic n st :
  exit_requested st = true -> exit_requested (ticks W n st) = true.
Proof.
  revert st. induction n as [|n IH]; intros st H; simpl; [exact H|].
  apply IH. now apply tick_monotonic.
Qed.

(** *** The queue and the callback *)

(** The block of the suspended call, if there is one. *)
Definition pending (st : State) : list chunk :=
  match in_flight st with
  | Some indata => [indata]
  | None => []
  end.

Lemma exit_step_capture op st :
  q (exit_step W op st) = q st /\ recording (exit_step W op st) = recording st
  /\ in_flight (exit_step W op st) = in_flight st.
Proof.
  destruct op; simpl; auto.
  unfold play_audio_file_as. now destruct (file_exists W path).
Qed.

Lemma run_exit_thread_capture n st :
  q (run_exit_thread W n st) = q st /\
  recording (run_exit_thread W n st) = recording st /\
  in_flight (run_exit_thread W n st) = in_flight st.
Proof.
  revert st. induction n as [|n IH]; intros st; simpl; [auto|].
  destruct (exit_pending st) as [|op rest]; [auto|].
  destruct (IH (exit_step W op (set_exit_pending rest st))) as [-> [-> ->]].
  apply (exit_step_capture op (set_exit_pending rest st)).
Qed.

(** A call that tests [recording] once it is cleared appends nothing. *)
Lemma callback_not_recording d st :
  recording st = false ->
  q (callback d st) = q st /\ recording (callback d st) = false /\
  in_flight (callback d st) = in_flight st.
Proof.
  intros H. unfold callback. destruct (dl_status d); simpl; rewrite H; auto.
Qed.

Lemma callback_recording d st :
  recording st = true ->
  q (callback d st) = q st ++ [dl_indata d] /\ recording (callback d st) = true
  /\ in_flight (callback d st) = in_flight st.
Proof.
  intros H. unfold callback. destruct (dl_status d); simpl; rewrite H; auto.
Qed.

Lemma deliver_not_recording ds st :
  recording st = false ->
  q (deliver ds st) = q st /\ recording (deliver ds st) = false /\
  in_flight (deliver ds st) = in_flight st.
Proof.
  unfold deliver. revert st.
  induction ds as [|d ds IH]; intros st H; simpl; [auto|].
  destruct (callback_not_recording d st H) as [Hq [Hr Hi]].
  destruct (IH _ Hr) as [-> [-> ->]]. auto.
Qed.

Lemma deliver_recording ds st :
  recording st = true ->
  q (deliver ds st) = q st ++ map dl_indata ds /\
  recording (deliver ds st) = true /\
  in_flight (deliver ds st) = in_flight st.
Proof.
  unfold deliver. revert st.
  induction ds as [|d ds IH]; intros st H; simpl.
  - now rewrite app_nil_r.
  - destruct (callback_recording d st H) as [Hq [Hr Hi]].
    destruct (IH _ Hr) as [-> [-> ->]]. rewrite Hq, <- app_assoc. auto.
Qed.

Lemma callback_begin_not_recording d st :
  recording st = false ->
  q (callback_begin d st) = q st /\ recording (callback_begin d st) = false /\
  in_flight (callback_begin d st) = in_flight st.
Proof.
  intros H. unfold callback_begin.
  destruct (dl_status d); simpl; rewrite H; auto.
Qed.

Lemma callback_begin_recording d st :
  recording st = true ->
  q (callback_begin d st) = q st /\ recording (callback_begin d st) = true /\
  in_flight (callback_begin d st) = Some (dl_indata d).
Proof.
  intros H. unfold callback_begin.
  destruct (dl_status d); simpl; rewrite H; auto.
Qed.

Lemma deliver_suspending_not_recording ds st :
  recording st = false ->
  q (deliver_suspending ds st) = q st /\
  recording (deliver_suspending ds st) = false /\
  in_flight (deliver_suspending ds st) = in_flight st.
Proof.
  intros H. unfold deliver_suspending. destruct (rev ds) as [|d before]; auto.
  destruct (deliver_not_recording (rev before) st H) as [Hq [Hr Hi]].
  destruct (callback_begin_not_recording d _ Hr) as [-> [-> ->]]. auto.
Qed.

(** While [recording] is true every block of the tick is accepted: the
    blocks of the calls that returned are in the queue, that of the
    suspended call is in flight. *)
Lemma deliver_suspending_recording ds st :
  recording st = true -> in_flight st = None ->
  q (deliver_suspending ds st) ++ pending (deliver_suspending ds st)
  = q st ++ map dl_indata ds /\
  recording (deliver_suspending ds st) = true.
Proof.
  intros H Hi. unfold deliver_suspending, pending.
  destruct (rev ds) as [|d before] eqn:E.
  - apply (f_equal (@rev delivery)) in E. rewrite rev_involutive in E.
    subst ds. simpl. now rewrite Hi.
  - apply (f_equal (@rev delivery)) in E. rewrite rev_involutive in E.
    subst ds. simpl.
    destruct (deliver_recording (rev before) st H) as [Hq [Hr _]].
    destruct (callback_begin_recording d _ Hr) as [-> [-> ->]].
    now rewrite Hq, map_app, <- app_assoc.
Qed.

Lemma callback_resume_spec st :
  q (callback_resume st) = q st ++ pending st /\
  in_flight (callback_resume st) = None /\
  recording (callback_resume st) = recording st /\
  stream_active (callback_resume st) = stream_active st.
Proof.
  unfold callback_resume, pending. destruct (in_flight st) eqn:E; simpl; auto.
  now rewrite app_nil_r.
Qed.

(** With [recording] cleared the audio thread completes the suspended call,
    if there is one, and adds nothing else. *)
Lemma audio_thread_not_recording t st :
  recording st = false ->
  q (audio_thread W t st) = q st ++ pending st /\
  in_flight (audio_thread W t st) = None /\
  recording (audio_thread W t st) = false.
Proof.
  intros H. unfold audio_thread.
  destruct (callback_resume_spec st) as [Hq [Hi [Hr Ha]]]. rewrite H in Hr.
  destruct (stream_active (callback_resume st)); [|auto].
  destruct (callback_suspended_at W t).
  - destruct (deliver_suspending_not_recording (microphone_at W t) _ Hr)
      as [-> [-> ->]]. auto.
  - destruct (deliver_not_recording (microphone_at W t) _ Hr)
      as [-> [-> ->]]. auto.
Qed.

(** With [recording] true and the stream running the queue and the block in
    flight together grow by the blocks of the tick. *)
Lemma audio_thread_recording t st :
  recording st = true -> stream_active st = true ->
  q (audio_thread W t st) ++ pending (audio_thread W t st)
  = q st ++ pending st ++ map dl_indata (microphone_at W t) /\
  recording (audio_thread W t st) = true.
Proof.
  intros H Hact. unfold audio_thread.
  destruct (callback_resume_spec st) as [Hq [Hi [Hr Ha]]].
  rewrite H in Hr. rewrite Hact in Ha. rewrite Ha.
  destruct (callback_suspended_at W t).
  - destruct (deliver_suspending_recording (microphone_at W t) _ Hr Hi)
      as [-> ->]. now rewrite Hq, <- app_assoc.
  - destruct (deliver_recording (microphone_at W t) _ Hr) as [E1 [E2 E3]].
    unfold pending at 1. rewrite E1, E2, E3, Hi, Hq, app_nil_r, <- app_assoc.
    auto.
Qed.

Lemma tick_not_recording st :
  recording st = false ->
  q (tick W st) = q st ++ pending st /\ in_flight (tick W st) = None.
Proof.
  intros H. unfold tick. simpl.
  set (st1 := if exit_button_pressed_at W (clock st)
              then set_exit_pending (exit_pending st ++ exit_program_body) st
              else st).
  assert (H1 : q st1 = q st /\ recording st1 = false /\
               in_flight st1 = in_flight st)
    by (unfold st1; destruct (exit_button_pressed_at W (clock st)); auto).
  destruct (run_exit_thread_capture (exit_thread_steps_at W (clock st)) st1)
    as [Hq [Hr Hi]].
  destruct H1 as [H1q [H1r H1i]]. rewrite H1r in Hr.
  destruct (audio_thread_not_recording (clock st) _ Hr) as [-> [-> _]].
  unfold pending. now rewrite Hq, Hi, H1q, H1i.
Qed.

(** With [recording] cleared and no call suspended the queue is fixed. *)
Lemma ticks_not_recording n st :
  recording st = false -> in_flight st = None ->
  q (ticks W n st) = q st /\ recording (ticks W n st) = false /\
  in_flight (ticks W n st) = None.
Proof.
  revert st. induction n as [|n IH]; intros st H Hi; simpl; [auto|].
  assert (Hr : recording (tick W st) = false)
    by now rewrite (tick_frame W _ frame_recording).
  destruct (tick_not_recording st H) as [Hq Hi'].
  destruct (IH _ Hr Hi') as [-> [-> ->]].
  rewrite Hq. unfold pending. rewrite Hi, app_nil_r. auto.
Qed.

Lemma tick_capturing st :
  recording st = true -> stream_active st = true ->
  q (tick W st) ++ pending (tick W st)
  = q st ++ pending st ++ map dl_indata (microphone_at W (clock st)).
Proof.
  intros Hr Ha. unfold tick. simpl.
  set (st1 := if exit_button_pressed_at W (clock st)
              then set_exit_pending (exit_pending st ++ exit_program_body) st
              else st).
  assert (H1 : q st1 = q st /\ recording st1 = true /\
               stream_active st1 = true /\ in_flight st1 = in_flight st)
    by (unfold st1; destruct (exit_button_pressed_at W (clock st)); auto).
  destruct H1 as [H1q [H1r [H1a H1i]]].
  destruct (run_exit_thread_capture (exit_thread_steps_at W (clock st)) st1)
    as [Hq [Hrec Hi]].
  rewrite H1r in Hrec.
  assert (Hact : stream_active
                   (run_exit_thread W (exit_thread_steps_at W (clock st)) st1)
                 = true)
    by now rewrite (run_exit_thread_frame W stream_active frame_stream_active).
  destruct (audio_thread_recording (clock st) _ Hrec Hact) as [E _].
  unfold pending in *. simpl. rewrite E, Hq, Hi, H1q, H1i. reflexivity.
Qed.

End Ticks.

(** From here on a tick is used through the lemmas above. *)
Opaque tick.
Arguments main_events : simpl never.

Create Rewrite HintDb ticks.
#[global] Hint Rewrite clock_tick tick_green_led tick_current_direction
  tick_models tick_stream tick_stream_active tick_streams_opened
  tick_recording tick_main_of main_of_app : ticks.

(** Brings a state reached by a known run of statements to a readable form. *)
Ltac settle := repeat progress (simpl; autorewrite with ticks).

(** ** The exit callback *)

Definition announcement (W : World) (file_path : string) : event :=
  if file_exists W file_path then EvAplay file_path
  else EvPrint ("Audio file missing: " ++ file_path)%string.

Lemma log_play_audio_file_as W th file_path st :
  log (play_audio_file_as W th file_path st)
  = log st ++ [(th, announcement W file_path)].
Proof.
  unfold play_audio_file_as, announcement.
  now destruct (file_exists W file_path).
Qed.

Definition is_set_exit (op : exit_op) : bool :=
  match op with XSetExitRequested => true | _ => false end.

Definition is_toggle (op : exit_op) : bool :=
  match op with XToggleRed => true | _ => false end.

Definition sleep_ms (op : exit_op) : nat :=
  match op with XSleep ms => ms | _ => 0 end.

Lemma exit_step_unset W op st :
  is_set_exit op = false ->
  exit_requested (exit_step W op st) = exit_requested st.
Proof.
  destruct op; simpl; try discriminate; auto.
  intros _. unfold play_audio_file_as. now destruct (file_exists W path).
Qed.

Lemma run_exit_ops_unset W ops st :
  existsb is_set_exit ops = false ->
  exit_requested (run_exit_ops W ops st) = exit_requested st.
Proof.
  unfold run_exit_ops. revert st.
  induction ops as [|op ops IH]; intros st H; simpl in *; [reflexivity|].
  apply orb_false_iff in H. destruct H as [Hop Hops].
  now rewrite IH, exit_step_unset.
Qed.

Lemma run_exit_thread_prefix W n st :
  run_exit_thread W n st
  = set_exit_pending (skipn n (exit_pending st))
      (run_exit_ops W (firstn n (exit_pending st))
                    (set_exit_pending (exit_pending st) st)).
Proof.
  revert st. induction n as [|n IH]; intros st; simpl.
  - now destruct st.
  - destruct (exit_pending st) as [|op rest] eqn:E; simpl.
    + destruct st; simpl in *; now subst.
    + rewrite IH. unfold run_exit_ops. simpl.
      assert (Hp : forall o s, exit_pending (exit_step W o s) = exit_pending s).
      { intros o s. destruct o; simpl; auto.
        unfold play_audio_file_as. now destruct (file_exists W path). }
      rewrite Hp. simpl.
      assert (Hs : forall o l s,
                 exit_step W o (set_exit_pending l s)
                 = set_exit_pending l (exit_step W o s)).
      { intros o l s. destruct o; simpl; auto.
        unfold play_audio_file_as. now destruct (file_exists W path). }
      rewrite !Hs.
      assert (Hi : forall l l' s,
                 set_exit_pending l (set_exit_pending l' s)
                 = set_exit_pending l s) by reflexivity.
      rewrite !Hi.
      assert (Hf : forall ops l s,
                 fold_left (fun s0 o => exit_step W o s0) ops
                           (set_exit_pending l s)
                 = set_exit_pending l
                     (fold_left (fun s0 o => exit_step W o s0) ops s)).
      { induction ops as [|o ops IHo]; intros l s; simpl; [reflexivity|].
        now rewrite Hs, IHo. }
      rewrite !Hf, !Hi. reflexivity.
Qed.

Lemma exit_prefix_unset (n : nat) :
  n < 18 -> existsb is_set_exit (firstn n exit_program_body) = false.
Proof.
  intros H. do 18 (destruct n as [|n]; [reflexivity|]). lia.
Qed.

Lemma exit_suffix_set (n : nat) :
  18 <= n -> existsb is_set_exit (firstn n exit_program_body) = true.
Proof.
  intros H. do 18 (destruct n as [|n]; [lia|]).
  destruct n; reflexivity.
Qed.

Lemma run_exit_ops_set W ops st :
  existsb is_set_exit ops = true ->
  exit_requested (run_exit_ops W ops st) = true.
Proof.
  unfold run_exit_ops. revert st.
  induction ops as [|op ops IH]; intros st H; simpl in *; [discriminate|].
  destruct (is_set_exit op) eqn:E.
  - apply (run_exit_ops_monotonic W ops). now destruct op.
  - now apply IH.
Qed.

Definition exit_event (W : World) (op : exit_op) : event :=
  match op with
  | XToggleRed => EvLed Red Toggle
  | XSleep ms => EvSleep ms
  | XPlay p => announcement W p
  | XSetExitRequested => EvExitFlagSet
  | XPrint msg => EvPrint msg
  end.

Lemma log_exit_step W op st :
  log (exit_step W op st) = log st ++ [(ExitThread, exit_event W op)].
Proof. destruct op; simpl; auto. apply log_play_audio_file_as. Qed.

Lemma log_run_exit_ops W ops st :
  log (run_exit_ops W ops st)
  = log st ++ map (fun op => (ExitThread, exit_event W op)) ops.
Proof.
  unfold run_exit_ops. revert st.
  induction ops as [|op ops IH]; intros st; simpl.
  - now rewrite app_nil_r.
  - rewrite IH, log_exit_step, <- app_assoc. reflexivity.
Qed.

(** C9.  [exit_program] assigns [exit_requested] once, after the eight
    toggles of the red indicator, each followed by a sleep of a quarter of a
    second (two seconds in all), and after the call that plays the exit
    sound has returned; nothing but the closing console message follows the
    assignment.  So the flag is still unset after any number of the
    callback's statements short of those, whether the callback runs alone or
    a few statements at a time between the steps of the main thread. *)
Theorem C9_exit_flag_set_last (W : World) (st : State) :
  exit_requested st = false ->
  (exists before msg,
      exit_program_body = before ++ [XSetExitRequested; XPrint msg] /\
      existsb is_set_exit before = false /\
      List.length (filter is_toggle before) = 8 /\
      list_sum (map sleep_ms before) = 2000 /\
      last before XSetExitRequested = XPlay EXIT_FILE) /\
  (forall n, n < 18 ->
     exit_requested (run_exit_ops W (firstn n exit_program_body) st) = false) /\
  exit_requested (exit_program W st) = true /\
  log (exit_program W st)
  = log st
    ++ List.concat (repeat [(ExitThread, EvLed Red Toggle);
                            (ExitThread, EvSleep 250)] 8)
    ++ [(ExitThread, announcement W EXIT_FILE);
        (ExitThread, EvExitFlagSet);
        (ExitThread, EvPrint "Exit button pressed. Cleaning up...")] /\
  (forall n, exit_pending st = exit_program_body ->
     exit_requested (run_exit_thread W n st) = (18 <=? n)%nat).
Proof.
  intros Hunset. split; [|split; [|split; [|split]]].
  - exists (flat_map (fun _ : nat => [XToggleRed; XSleep 250]) (seq 0 8)
            ++ [XPlay EXIT_FILE]).
    exists "Exit button pressed. Cleaning up...".
    repeat split; reflexivity.
  - intros n Hn. rewrite run_exit_ops_unset; [exact Hunset|].
    now apply exit_prefix_unset.
  - apply run_exit_ops_set. reflexivity.
  - unfold exit_program. rewrite log_run_exit_ops. reflexivity.
  - intros n Hp. rewrite run_exit_thread_prefix, Hp.
    change (exit_requested (set_exit_pending ?l ?s)) with (exit_requested s).
    destruct (Nat.leb_spec 18 n) as [Hge|Hlt].
    + apply run_exit_ops_set. now apply exit_suffix_set.
    + rewrite run_exit_ops_unset; [exact Hunset|]. now apply exit_prefix_unset.
Qed.

Definition quiet_world : World :=
  {| record_button_at := fun _ => false;
     direction_switch_at := fun _ => false;
     exit_button_pressed_at := fun _ => false;
     exit_thread_steps_at := fun _ => 0;
     microphone_at := fun _ => [];
     callback_suspended_at := fun _ => false;
     input_stream_open := fun _ => OpenOk;
     file_exists := fun _ => true;
     final_result := fun _ _ => Parsed (JObject [("text", JString "")]);
     restore_punctuation := fun s => s;
     sp_encode := fun _ s => [s];
     translate_batch := fun _ l => l;
     sp_decode := fun _ l => String.concat " " l |}.

Lemma C9_witness :
  exit_requested initial_state = false /\
  exit_requested (exit_program quiet_world initial_state) = true.
Proof.
  split; [reflexivity|].
  apply (C9_exit_flag_set_last quiet_world initial_state eq_refl).
Defined.

(** ** The capture queue *)

Section Capture.

Variable W : World.

(** What the [finally] block of the recording phase does to the capture
    state when the name [stream] is bound: a call of the callback that was
    suspended after its test completes its [q.put] while [stream.stop()]
    waits, after [recording] has been cleared. *)
Lemma stop_capture_bound st :
  stream st <> None ->
  exists st',
    stop_capture W st = Ret tt st' /\
    recording st' = false /\ stream_active st' = false /\
    q st' = q st ++ pending st /\ in_flight st' = None /\
    stream st' = stream st /\
    current_direction st' = current_direction st /\
    models st' = models st /\
    main_of (log st')
    = main_of (log st) ++ [EvStreamStop; EvStreamClose; EvLed Red Off].
Proof.
  intros Hs. unfold stop_capture, stream_stop, stream_close, red_led_off,
    emit, pass_time, bind, modify, gets.
  simpl. destruct (stream st) as [i|] eqn:E; [|congruence].
  settle. rewrite E. settle.
  eexists. split; [reflexivity|]. settle.
  destruct (tick_not_recording W (set_recording false st) eq_refl)
    as [Hq Hi].
  repeat split; auto.
  now rewrite <- !app_assoc.
Qed.

Lemma stop_capture_unbound st :
  stream st = None ->
  stop_capture W st = Raise (NameError "stream") (set_recording false st).
Proof.
  intros Hs. unfold stop_capture, stream_stop, bind, modify, gets.
  simpl. now rewrite Hs.
Qed.

(** A call of the callback that begins once [recording] is cleared appends
    nothing, whether it runs through or is suspended, and with no call
    suspended the queue stays as it is however much time passes. *)
Lemma no_append_by_later_calls st :
  recording st = false ->
  (forall d, q (callback d st) = q st) /\
  (forall d, q (callback_begin d st) = q st /\
             in_flight (callback_begin d st) = in_flight st) /\
  (forall ds, q (deliver ds st) = q st) /\
  (in_flight st = None ->
   forall n, q (ticks W n st) = q st /\ recording (ticks W n st) = false).
Proof.
  intros Hrec. split; [|split; [|split]].
  - intros d. now apply callback_not_recording.
  - intros d. destruct (callback_begin_not_recording d st Hrec) as [H1 [_ H2]].
    now split.
  - intros ds. now apply deliver_not_recording.
  - intros Hi n. destruct (ticks_not_recording W n st Hrec Hi) as [H1 [H2 _]].
    now split.
Qed.

(** Once the [finally] block has returned no call is suspended any more: the
    queue is fixed, and the loop that drains it reads exactly the queue the
    block left. *)
Lemma queue_fixed_after_stop st st1 :
  stop_capture W st = Ret tt st1 ->
  recording st1 = false /\ stream_active st1 = false /\
  in_flight st1 = None /\
  forall n, q (ticks W n st1) = q st1 /\
            exists st2, drain [] (ticks W n st1) = Ret (q st1) st2.
Proof.
  intros Hstop.
  destruct (stream st) as [i|] eqn:Es.
  - destruct (stop_capture_bound st) as [st' [E [Hr [Ha [_ [Hi _]]]]]];
      [congruence|].
    rewrite E in Hstop. injection Hstop as <-.
    repeat split; auto.
    + now destruct (ticks_not_recording W n st' Hr Hi) as [-> _].
    + destruct (ticks_not_recording W n st' Hr Hi) as [Hqn _].
      unfold drain, bind, gets, modify, ret. rewrite drain_loop_spec.
      simpl. eexists. now rewrite Hqn.
  - rewrite stop_capture_unbound in Hstop by assumption. discriminate.
Qed.

(** The block of a call that was suspended after its test is appended by
    the [finally] block, after the flag is cleared. *)
Lemma suspended_call_appends_after_the_clear st indata :
  stream st <> None -> in_flight st = Some indata ->
  exists st',
    stop_capture W st = Ret tt st' /\
    recording st' = false /\ q st' = q st ++ [indata].
Proof.
  intros Hs Hi.
  destruct (stop_capture_bound st Hs) as [st' [E [Hr [_ [Hq _]]]]].
  exists st'. unfold pending in Hq. rewrite Hi in Hq. auto.
Qed.

End Capture.

(** The operator holds the record button until tick 6; the stream delivers
    one block at every tick; the call of tick 6, the last before the main
    thread reads the button released, is suspended after its test of
    [recording]. *)
Definition late_world : World :=
  {| record_button_at := fun t => (t <=? 6)%nat;
     direction_switch_at := fun _ => false;
     exit_button_pressed_at := fun _ => false;
     exit_thread_steps_at := fun _ => 0;
     microphone_at :=
       fun t => [{| dl_status := false; dl_indata := [Z.of_nat t] |}];
     callback_suspended_at := fun t => (t =? 6)%nat;
     input_stream_open := fun _ => OpenOk;
     file_exists := fun _ => true;
     final_result := fun _ _ => Parsed (JObject [("text", JString "")]);
     restore_punctuation := fun s => s;
     sp_encode := fun _ s => [s];
     translate_batch := fun _ l => l;
     sp_decode := fun _ l => String.concat " " l |}.

(** The globals after start-up in the English-to-Spanish position. *)
Definition ready_state : State :=
  set_current_direction en_to_es (set_models loaded_en_to_es initial_state).

(** C3, the failing run.  The callback tests [recording] and appends in two
    steps with no lock around them.  Here the main thread reads the button
    released and clears the flag between the two: the queue has six blocks
    when the flag is cleared and seven when the [finally] block has
    returned, the seventh appended while [stream.stop()] waited.  The block
    of tick 7, whose call began after the clear, is dropped. *)
Theorem C3_put_lands_after_flag_cleared :
  exists sta st1 st2,
    start_capture late_world ready_state = Ret tt sta /\
    wait_for_button_release_or_switch_change late_world 5 en_to_es sta
    = Ret None st1 /\
    recording (set_recording false st1) = false /\
    q (set_recording false st1)
    = [[0%Z]; [1%Z]; [2%Z]; [3%Z]; [4%Z]; [5%Z]] /\
    stop_capture late_world st1 = Ret tt st2 /\
    q st2 = [[0%Z]; [1%Z]; [2%Z]; [3%Z]; [4%Z]; [5%Z]; [6%Z]] /\
    microphone_at late_world 7 = [{| dl_status := false; dl_indata := [7%Z] |}].
Proof.
  do 3 eexists.
  split; [vm_compute; reflexivity|].
  split; [vm_compute; reflexivity|].
  split; [reflexivity|].
  split; [vm_compute; reflexivity|].
  split; [vm_compute; reflexivity|].
  split; [vm_compute; reflexivity|reflexivity].
Qed.

(** C6.  The blocks the callback accepts are queued in the order of its
    calls; draining the queue and concatenating gives the samples of the
    blocks in that order, and their number is the sum of the block
    lengths. *)
Theorem C6_drain_keeps_order (st : State) (ds : list delivery) :
  recording st = true -> q st = [] -> ds <> [] ->
  let chunks := map dl_indata ds in
  q (deliver ds st) = chunks /\
  exists st',
    drain [] (deliver ds st) = Ret chunks st' /\ q st' = [] /\
    aggregate chunks = Some (List.concat chunks) /\
    List.length (List.concat chunks) = list_sum (map (@List.length Z) chunks).
Proof.
  intros Hrec Hq Hne chunks.
  destruct (deliver_recording ds st Hrec) as [Hd _]. rewrite Hq in Hd.
  simpl in Hd. split; [exact Hd|].
  unfold drain, bind, gets, modify, ret. rewrite drain_loop_spec, Hd. simpl.
  eexists. split; [reflexivity|]. split; [reflexivity|]. split.
  - unfold chunks. destruct ds; [congruence|reflexivity].
  - apply length_concat_sum.
Qed.

Lemma C6_witness :
  let st := set_recording true initial_state in
  let ds := [ {| dl_status := false; dl_indata := [1%Z; 2%Z] |};
              {| dl_status := true; dl_indata := [3%Z] |} ] in
  recording st = true /\ q st = [] /\ ds <> [] /\
  q (deliver ds st) = [[1%Z; 2%Z]; [3%Z]].
Proof.
  intros st ds.
  split; [reflexivity|]. split; [reflexivity|]. split; [discriminate|].
  apply (C6_drain_keeps_order st ds eq_refl eq_refl). discriminate.
Defined.

(** ** Announcements and the two "no audio" routes *)

(** The file [play_no_audio] selects (lines 188-192). *)
Definition no_audio_file (direction : pyval) : string :=
  if pyval_eqb direction en_to_es then NO_AUDIO_EN_FILE else NO_AUDIO_ES_FILE.

Arguments Models.path_of : simpl never.

Section Routes.

Variable W : World.

Lemma aggregate_concat (frames : list chunk) :
  aggregate frames = Some (List.concat frames).
Proof. destruct frames; reflexivity. Qed.

Lemma play_audio_file_spec file_path st :
  exists st',
    play_audio_file W file_path st = Ret tt st' /\
    main_of (log st') = main_of (log st) ++ [announcement W file_path] /\
    current_direction st' = current_direction st /\
    models st' = models st /\
    (exit_requested st = true -> exit_requested st' = true).
Proof.
  unfold play_audio_file, pass_time, bind, modify. eexists.
  split; [reflexivity|].
  unfold play_audio_file_as, announcement.
  destruct (file_exists W file_path); settle; repeat split; auto;
    apply tick_monotonic.
Qed.

Lemma play_no_audio_spec direction st :
  exists st',
    play_no_audio W direction st = Ret tt st' /\
    main_of (log st')
    = main_of (log st) ++ [announcement W (no_audio_file direction)] /\
    current_direction st' = current_direction st /\
    models st' = models st /\
    (exit_requested st = true -> exit_requested st' = true).
Proof.
  unfold play_no_audio, no_audio_file.
  destruct (pyval_eqb direction en_to_es); apply play_audio_file_spec.
Qed.

(** The branch of lines 315-318. *)
Lemma after_transcription_blank (s : string) st :
  all_space s = true ->
  exists st',
    after_transcription W (JString s) st = Ret Continue st' /\
    main_of (log st')
    = main_of (log st)
      ++ [EvPrint "No speech detected";
          announcement W (no_audio_file (current_direction st))] /\
    current_direction st' = current_direction st.
Proof.
  intros Hs. apply strip_empty_iff in Hs.
  unfold after_transcription. rewrite Hs. simpl.
  unfold print, emit, bind, modify, gets. simpl.
  destruct (play_no_audio_spec (current_direction st)
              (log_event MainThread (EvPrint "No speech detected") st))
    as [st' [E [Hl [Hd _]]]].
  rewrite E. exists st'. split; [reflexivity|]. split; [|exact Hd].
  rewrite Hl. settle. now rewrite <- app_assoc.
Qed.

(** [transcribe] when the recognizer is loaded and its final result parses
    to an object. *)
Lemma transcribe_object (audio : list Z) (kv : list (string * json)) st :
  Models.vosk_model (models st) <> None ->
  final_result W (Models.path_of (Models.vosk_model (models st)) (models st))
               audio = Parsed (JObject kv) ->
  exists st',
    transcribe W audio st = Ret (dict_get kv "text" (JString "")) st' /\
    main_of (log st')
    = main_of (log st)
      ++ [EvRecognize (Models.path_of (Models.vosk_model (models st))
                                      (models st)) audio] /\
    current_direction st' = current_direction st /\
    models st' = models st.
Proof.
  intros Hm Hr. unfold transcribe, pass_time, emit, bind, modify, gets.
  settle. destruct (Models.vosk_model (models st)) as [i|] eqn:E; [|congruence].
  settle. rewrite Hr. eexists. split; [reflexivity|]. settle. auto.
Qed.

End Routes.

Lemma length_zero_iff {A} (l : list A) : Nat.eqb (List.length l) 0 = true <-> l = [].
Proof. destruct l; simpl; split; congruence. Qed.




(** ** The recognizer's final result *)

Lemma dict_get_missing (kv : list (string * json)) (key : string) (d : json) :
  has_key kv key = false -> dict_get kv key d = d.
Proof.
  induction kv as [|[k v] kv IH]; simpl; [reflexivity|].
  intros H. apply orb_false_iff in H. destruct H as [Hk Hkv].
  rewrite Hk. now apply IH.
Qed.

(** A [json] value that is a [dict] in Python. *)
Definition is_object (j : json) : bool :=
  match j with JObject _ => true | _ => false end.

(** A final result with no ["text"] member: text that is not JSON, a JSON
    value that is not an object, or an object without the key. *)
Definition lacks_text (r : loads_result) : bool :=
  match r with
  | Parsed (JObject kv) => negb (has_key kv "text")
  | _ => true
  end.

(** A recognizer whose final result is an object with no member. *)
Definition fieldless_world : World :=
  {| record_button_at := fun _ => false;
     direction_switch_at := fun _ => false;
     exit_button_pressed_at := fun _ => false;
     exit_thread_steps_at := fun _ => 0;
     microphone_at := fun _ => [];
     callback_suspended_at := fun _ => false;
     input_stream_open := fun _ => OpenOk;
     file_exists := fun _ => true;
     final_result := fun _ _ => Parsed (JObject []);
     restore_punctuation := fun s => s;
     sp_encode := fun _ s => [s];
     translate_batch := fun _ l => l;
     sp_decode := fun _ l => String.concat " " l |}.

(** A recognizer whose final result is not JSON; the operator holds the
    record button from tick 4 to tick 7 and the stream delivers a block at
    every tick. *)
Definition garbled_world : World :=
  {| record_button_at := fun t => (4 <=? t)%nat && (t <=? 7)%nat;
     direction_switch_at := fun _ => false;
     exit_button_pressed_at := fun _ => false;
     exit_thread_steps_at := fun _ => 0;
     microphone_at :=
       fun t => [{| dl_status := false; dl_indata := [Z.of_nat t] |}];
     callback_suspended_at := fun _ => false;
     input_stream_open := fun _ => OpenOk;
     file_exists := fun _ => true;
     final_result := fun _ _ => NotJson;
     restore_punctuation := fun s => s;
     sp_encode := fun _ s => [s];
     translate_batch := fun _ l => l;
     sp_decode := fun _ l => String.concat " " l |}.

(** A recognizer whose final result is JSON but not an object. *)
Definition array_world : World :=
  {| record_button_at := fun _ => false;
     direction_switch_at := fun _ => false;
     exit_button_pressed_at := fun _ => false;
     exit_thread_steps_at := fun _ => 0;
     microphone_at := fun _ => [];
     callback_suspended_at := fun _ => false;
     input_stream_open := fun _ => OpenOk;
     file_exists := fun _ => true;
     final_result := fun _ _ => Parsed (JArray []);
     restore_punctuation := fun s => s;
     sp_encode := fun _ s => [s];
     translate_batch := fun _ l => l;
     sp_decode := fun _ l => String.concat " " l |}.

(** ** Switching direction *)

Lemma load_models_total (d : pyval) (m : Models.t) :
  exists m', Models.load_models d m = Some m'.
Proof.
  unfold Models.load_models.
  rewrite ModelsFacts.load_models_body_split, ModelsFacts.run_app.
  assert (Hu : exists m0,
             Models.run (Models.enter_load :: Models.unload_models_body) m
             = Some m0) by (eexists; reflexivity).
  destruct Hu as [m0 ->]. unfold Models.construct_part.
  destruct (pyval_eqb d en_to_es);
    [|destruct (pyval_eqb d es_to_en)];
    try (match goal with
         | |- context [Models.run (Models.construct_body ?a ?b ?c ?e ?f ?h) ?x] =>
             destruct (ModelsFacts.construct_body_runs a b c e f h x)
               as [m1 [E _]]; exists m1; exact E
         end).
  exists m0. reflexivity.
Qed.

(** The file [play_mode_announcement] selects (lines 184-186). *)
Definition mode_file (direction : pyval) : string :=
  if pyval_eqb direction es_to_en then MODE_ES_EN_FILE else MODE_EN_ES_FILE.

(** The console line of [load_models]. *)
Definition loading_line (direction : pyval) : list event :=
  if pyval_eqb direction en_to_es then [EvPrint "Loading EN->ES models"]
  else if pyval_eqb direction es_to_en then [EvPrint "Loading ES->EN models"]
  else [].

Section Switching.

Variable W : World.

Lemma read_exit_requested_spec st :
  read_exit_requested st
  = Ret (exit_requested st)
        (log_event MainThread (EvReadExit (exit_requested st)) st).
Proof. reflexivity. Qed.

Lemma load_models_spec (d : pyval) st :
  exists st' m',
    load_models W d st = Ret tt st' /\
    Models.load_models d (models st) = Some m' /\ models st' = m' /\
    main_of (log st') = main_of (log st) ++ EvLoadModels d :: loading_line d /\
    current_direction st' = current_direction st /\
    recording st' = recording st /\ stream_active st' = stream_active st /\
    stream st' = stream st.
Proof.
  destruct (load_models_total d (models st)) as [m' Hm].
  unfold load_models, load_message, loading_line, pass_time, print, emit,
    bind, modify, gets, ret.
  destruct (pyval_eqb d en_to_es); [|destruct (pyval_eqb d es_to_en)];
    settle; rewrite Hm; eexists; exists m';
    (split; [reflexivity|]); settle;
    rewrite <- ?app_assoc; repeat split; reflexivity.
Qed.

Lemma switch_direction_spec (d : pyval) st :
  exists st' m',
    switch_direction W d st = Ret tt st' /\
    Models.load_models d (models st) = Some m' /\ models st' = m' /\
    current_direction st' = d /\
    main_of (log st')
    = main_of (log st)
      ++ EvLoadModels d :: loading_line d ++ [announcement W (mode_file d)] /\
    recording st' = recording st /\ stream_active st' = stream_active st /\
    stream st' = stream st.
Proof.
  unfold switch_direction, bind, modify.
  destruct (load_models_spec d (set_current_direction d st))
    as [st1 [m' [E1 [Hm [Hm1 [Hl1 [Hd1 [Hr1 [Ha1 Hs1]]]]]]]]].
  rewrite E1. unfold play_mode_announcement.
  destruct (play_audio_file_spec W (mode_file d) st1)
    as [st2 [E2 [Hl2 [Hd2 [Hm2 _]]]]].
  fold (mode_file d). rewrite E2.
  exists st2, m'. split; [reflexivity|]. split; [exact Hm|].
  split; [congruence|]. split; [rewrite Hd2, Hd1; reflexivity|].
  split.
  - rewrite Hl2, Hl1. simpl. now rewrite <- app_assoc.
  - unfold play_audio_file, pass_time, bind, modify in E2.
    injection E2 as <-. unfold play_audio_file_as.
    destruct (file_exists W (mode_file d)); settle; auto.
Qed.


End Switching.

(** ** Relations every step of a program keeps *)

(** [keeps R m]: however [m] ends, its final state is related to its initial
    state by [R]. *)
Definition keeps {A} (R : State -> State -> Prop) (m : M A) : Prop :=
  forall st,
    match m st with
    | Ret _ st' => R st st'
    | Raise _ st' => R st st'
    | OutOfFuel => True
    end.

Section Keeps.

Variable R : State -> State -> Prop.
Hypothesis R_refl : forall st, R st st.
Hypothesis R_trans : forall a b c, R a b -> R b c -> R a c.

Lemma keeps_ret {A} (a : A) : keeps R (ret a).
Proof. intros st. apply R_refl. Qed.

Lemma keeps_raise {A} (e : exn) : keeps R (@raise A e).
Proof. intros st. apply R_refl. Qed.

Lemma keeps_gets {A} (f : State -> A) : keeps R (gets f).
Proof. intros st. apply R_refl. Qed.

Lemma keeps_out_of_fuel {A} : keeps R (fun _ : State => @OutOfFuel A).
Proof. intros st. exact I. Qed.

Lemma keeps_modify (f : State -> State) :
  (forall st, R st (f st)) -> keeps R (modify f).
Proof. intros H st. apply H. Qed.

Lemma keeps_bind {A B} (m : M A) (k : A -> M B) :
  keeps R m -> (forall a, keeps R (k a)) -> keeps R (bind m k).
Proof.
  intros Hm Hk st. unfold bind. specialize (Hm st).
  destruct (m st) as [a st1|e st1|]; auto.
  specialize (Hk a st1). destruct (k a st1); eauto.
Qed.

Lemma keeps_try_finally {A} (body : M A) (fin : M unit) :
  keeps R body -> keeps R fin -> keeps R (try_finally body fin).
Proof.
  intros Hb Hf st. unfold try_finally. specialize (Hb st).
  destruct (body st) as [a st1|e st1|]; auto;
    specialize (Hf st1); destruct (fin st1); eauto.
Qed.

Lemma keeps_try_except {A} (body : M A) (catches : exn -> bool)
  (handler : M A) :
  keeps R body -> keeps R handler -> keeps R (try_except body catches handler).
Proof.
  intros Hb Hh st. unfold try_except. specialize (Hb st).
  destruct (body st) as [a st1|e st1|]; auto.
  destruct (catches e); [|exact Hb].
  specialize (Hh st1).
  destruct (handler st1); auto; eapply R_trans; eauto.
Qed.

Lemma keeps_and_then {A B} (m : M (flow A)) (k : A -> M (flow B)) :
  keeps R m -> (forall a, keeps R (k a)) -> keeps R (and_then m k).
Proof.
  intros Hm Hk. unfold and_then. apply keeps_bind; [exact Hm|].
  intros [a| |]; auto using keeps_ret.
Qed.

End Keeps.

(** A relation that no tick, no read of an input and no poll sleep
    breaks. *)
Record polling (W : World) (R : State -> State -> Prop) : Prop := {
  polling_refl : forall st, R st st;
  polling_trans : forall a b c, R a b -> R b c -> R a c;
  polling_tick : forall st, R st (tick W st);
  polling_read_exit :
    forall v st, R st (log_event MainThread (EvReadExit v) st);
  polling_read_button :
    forall v st, R st (log_event MainThread (EvReadButton v) st);
  polling_read_switch :
    forall v st, R st (log_event MainThread (EvReadSwitch v) st);
  polling_sleep : forall ms st, R st (log_event MainThread (EvSleep ms) st)
}.

Section Polling.

Variable W : World.
Variable R : State -> State -> Prop.
Hypothesis HR : polling W R.

Let pret {A} (a : A) : keeps R (ret a) :=
  keeps_ret R (polling_refl W R HR) a.

Let pbind {A B} (m : M A) (k : A -> M B)
  : keeps R m -> (forall a, keeps R (k a)) -> keeps R (bind m k) :=
  keeps_bind R (polling_trans W R HR) m k.

Lemma polling_read_exit_requested : keeps R read_exit_requested.
Proof.
  unfold read_exit_requested, emit.
  apply pbind; [apply keeps_gets, (polling_refl W R HR)|]. intros e.
  apply pbind; [apply keeps_modify, (polling_read_exit W R HR)|]. intros _.
  apply pret.
Qed.

Lemma polling_pass_time : keeps R (pass_time W).
Proof. apply keeps_modify, (polling_tick W R HR). Qed.

Lemma polling_record_button_is_active : keeps R (record_button_is_active W).
Proof.
  unfold record_button_is_active, emit.
  apply pbind; [apply polling_pass_time|]. intros _.
  apply pbind; [apply keeps_gets, (polling_refl W R HR)|]. intros t.
  apply pbind; [apply keeps_modify, (polling_read_button W R HR)|]. intros _.
  apply pret.
Qed.

Lemma polling_get_translation_direction :
  keeps R (get_translation_direction W).
Proof.
  unfold get_translation_direction, emit.
  apply pbind; [apply polling_pass_time|]. intros _.
  apply pbind; [apply keeps_gets, (polling_refl W R HR)|]. intros t.
  apply pbind; [apply keeps_modify, (polling_read_switch W R HR)|]. intros _.
  apply pret.
Qed.

Lemma polling_sleep_call ms : keeps R (sleep W ms).
Proof.
  unfold sleep, emit.
  apply pbind; [apply polling_pass_time|]. intros _.
  apply keeps_modify, (polling_sleep W R HR).
Qed.

Lemma polling_wait_for_button_or_switch_change fuel last :
  keeps R (wait_for_button_or_switch_change W fuel last).
Proof.
  induction fuel as [|fuel IH]; simpl; [apply keeps_out_of_fuel|].
  apply pbind; [apply polling_read_exit_requested|].
  intros e. destruct e; [apply pret|].
  apply pbind; [apply polling_record_button_is_active|].
  intros b. destruct b; [apply pret|].
  apply pbind; [apply polling_get_translation_direction|].
  intros nd. destruct (negb _); [apply pret|].
  apply pbind; [apply polling_sleep_call | intros _; exact IH].
Qed.

Lemma polling_wait_for_button_release_or_switch_change fuel last :
  keeps R (wait_for_button_release_or_switch_change W fuel last).
Proof.
  induction fuel as [|fuel IH]; simpl; [apply keeps_out_of_fuel|].
  apply pbind; [apply polling_record_button_is_active|].
  intros b. apply pbind.
  { destruct b; [apply polling_read_exit_requested | apply pret]. }
  intros e. destruct (b && negb e).
  - apply pbind; [apply polling_get_translation_direction|].
    intros nd. destruct (negb _); [apply pret|].
    apply pbind; [apply polling_sleep_call | intros _; exact IH].
  - apply pbind; [apply polling_read_exit_requested|].
    intros e'. destruct e'; apply pret.
Qed.

End Polling.

(** A relation that no step of the main thread and no tick breaks. *)
Record stable (W : World) (R : State -> State -> Prop) : Prop := {
  stable_refl : forall st, R st st;
  stable_trans : forall a b c, R a b -> R b c -> R a c;
  stable_tick : forall st, R st (tick W st);
  stable_log : forall e st, R st (log_event MainThread e st);
  stable_red_led : forall v st, R st (set_red_led v st);
  stable_green_led : forall v st, R st (set_green_led v st);
  stable_current_direction : forall v st, R st (set_current_direction v st);
  stable_models : forall v st, R st (set_models v st);
  stable_stream : forall v st, R st (set_stream v st);
  stable_stream_active : forall v st, R st (set_stream_active v st);
  stable_streams_opened : forall v st, R st (set_streams_opened v st);
  stable_recording : forall v st, R st (set_recording v st);
  stable_q : forall v st, R st (set_q v st)
}.

Section Stable.

Variable W : World.
Variable R : State -> State -> Prop.
Hypothesis HR : stable W R.

Lemma stable_polling : polling W R.
Proof.
  destruct HR. constructor; auto.
Qed.

Lemma kret {A} (a : A) : keeps R (ret a).
Proof. apply keeps_ret, (stable_refl W R HR). Qed.

Lemma kraise {A} (e : exn) : keeps R (@raise A e).
Proof. apply keeps_raise, (stable_refl W R HR). Qed.

Lemma kgets {A} (f : State -> A) : keeps R (gets f).
Proof. apply keeps_gets, (stable_refl W R HR). Qed.

Lemma kbind {A B} (m : M A) (k : A -> M B) :
  keeps R m -> (forall a, keeps R (k a)) -> keeps R (bind m k).
Proof. apply keeps_bind, (stable_trans W R HR). Qed.

Lemma ktry {A} (body : M A) (fin : M unit) :
  keeps R body -> keeps R fin -> keeps R (try_finally body fin).
Proof. apply keeps_try_finally, (stable_trans W R HR). Qed.

Lemma kexcept {A} (body : M A) (catches : exn -> bool) (handler : M A) :
  keeps R body -> keeps R handler -> keeps R (try_except body catches handler).
Proof. apply keeps_try_except, (stable_trans W R HR). Qed.

Lemma kand {A B} (m : M (flow A)) (k : A -> M (flow B)) :
  keeps R m -> (forall a, keeps R (k a)) -> keeps R (and_then m k).
Proof.
  apply keeps_and_then; [apply (stable_refl W R HR) | apply (stable_trans W R HR)].
Qed.

Lemma kmodify (f : State -> State) :
  (forall st, R st (f st)) -> keeps R (modify f).
Proof. apply keeps_modify. Qed.

(** Decomposes a program built from the primitives. *)
Ltac step :=
  repeat match goal with
  | |- keeps _ (ret _) => apply kret
  | |- keeps _ (raise _) => apply kraise
  | |- keeps _ (gets _) => apply kgets
  | |- keeps _ (fun _ => OutOfFuel) => apply keeps_out_of_fuel
  | |- keeps _ (bind _ _) => apply kbind
  | |- forall _, keeps _ _ => intros ?
  | |- keeps _ (if ?b then _ else _) => destruct b
  | |- keeps _ (match ?x with _ => _ end) => destruct x
  | |- keeps _ (modify _) =>
      apply kmodify; intros;
      first [ apply (stable_tick W R HR) | apply (stable_log W R HR)
            | apply (stable_red_led W R HR) | apply (stable_green_led W R HR)
            | apply (stable_current_direction W R HR)
            | apply (stable_models W R HR) | apply (stable_stream W R HR)
            | apply (stable_stream_active W R HR)
            | apply (stable_streams_opened W R HR)
            | apply (stable_recording W R HR) | apply (stable_q W R HR) ]
  end.

Lemma keeps_emit e : keeps R (emit e).
Proof. unfold emit. step. Qed.

Lemma keeps_pass_time : keeps R (pass_time W).
Proof. unfold pass_time. step. Qed.

Lemma keeps_print msg : keeps R (print msg).
Proof. apply keeps_emit. Qed.

Lemma keeps_red_led_on : keeps R red_led_on.
Proof. unfold red_led_on, emit. step. Qed.
Lemma keeps_red_led_off : keeps R red_led_off.
Proof. unfold red_led_off, emit. step. Qed.
Lemma keeps_green_led_on : keeps R green_led_on.
Proof. unfold green_led_on, emit. step. Qed.
Lemma keeps_green_led_off : keeps R green_led_off.
Proof. unfold green_led_off, emit. step. Qed.

Lemma keeps_read_exit_requested : keeps R read_exit_requested.
Proof. unfold read_exit_requested, emit. step. Qed.

Lemma keeps_record_button_is_active : keeps R (record_button_is_active W).
Proof. unfold record_button_is_active, pass_time, emit. step. Qed.

Lemma keeps_get_translation_direction : keeps R (get_translation_direction W).
Proof. unfold get_translation_direction, pass_time, emit. step. Qed.

Lemma keeps_sleep ms : keeps R (sleep W ms).
Proof. unfold sleep, pass_time, emit. step. Qed.

Lemma keeps_play_audio_file f : keeps R (play_audio_file W f).
Proof.
  unfold play_audio_file, pass_time. apply kbind; [step|]. intros _.
  apply kmodify. intros st. unfold play_audio_file_as.
  destruct (file_exists W f); apply (stable_log W R HR).
Qed.

Lemma keeps_play_mode_announcement d : keeps R (play_mode_announcement W d).
Proof. apply keeps_play_audio_file. Qed.

Lemma keeps_play_no_audio d : keeps R (play_no_audio W d).
Proof.
  unfold play_no_audio.
  destruct (pyval_eqb d en_to_es); apply keeps_play_audio_file.
Qed.

Lemma keeps_load_models d : keeps R (load_models W d).
Proof. unfold load_models, load_message, pass_time, print, emit. step. Qed.

Lemma keeps_transcribe a : keeps R (transcribe W a).
Proof. unfold transcribe, pass_time, emit. step. Qed.

Lemma keeps_translate t : keeps R (translate W t).
Proof. unfold translate, pass_time, emit. step. Qed.

Lemma keeps_speak t : keeps R (speak W t).
Proof. unfold speak, pass_time, emit. step. Qed.

Lemma keeps_restore_punctuation_call t : keeps R (restore_punctuation_call W t).
Proof. unfold restore_punctuation_call, pass_time, emit. step. Qed.

Lemma keeps_open_input_stream : keeps R (open_input_stream W).
Proof. unfold open_input_stream, print, emit. step. Qed.

Lemma keeps_stream_stop : keeps R (stream_stop W).
Proof. unfold stream_stop, pass_time, emit. step. Qed.

Lemma keeps_stream_close : keeps R stream_close.
Proof. unfold stream_close, emit. step. Qed.

Lemma keeps_drain fr : keeps R (drain fr).
Proof. unfold drain. step. Qed.

Lemma keeps_switch_direction d : keeps R (switch_direction W d).
Proof.
  unfold switch_direction.
  apply kbind; [step|]. intros _.
  apply kbind; [apply keeps_load_models|]. intros _.
  apply keeps_play_mode_announcement.
Qed.

Lemma keeps_wait_for_button_or_switch_change fuel last :
  keeps R (wait_for_button_or_switch_change W fuel last).
Proof.
  apply polling_wait_for_button_or_switch_change, stable_polling.
Qed.

Lemma keeps_wait_for_button_release_or_switch_change fuel last :
  keeps R (wait_for_button_release_or_switch_change W fuel last).
Proof.
  apply polling_wait_for_button_release_or_switch_change, stable_polling.
Qed.

Lemma keeps_playback_wait fuel : keeps R (playback_wait W fuel).
Proof.
  induction fuel as [|fuel IH]; simpl; [apply keeps_out_of_fuel|].
  apply kbind; [apply keeps_read_exit_requested|].
  intros e. destruct e; [apply kret|].
  apply kbind; [apply keeps_record_button_is_active|].
  intros b. destruct b; [apply kret|].
  apply kbind; [apply keeps_get_translation_direction|].
  intros nd. apply kbind; [apply kgets|].
  intros cd. destruct (negb _).
  - apply kbind; [apply keeps_green_led_off|].
    intros _. apply kbind; [apply keeps_switch_direction | intros _; apply kret].
  - apply kbind; [apply keeps_sleep | intros _; exact IH].
Qed.

Lemma keeps_after_idle_wait dc : keeps R (after_idle_wait W dc).
Proof.
  unfold after_idle_wait.
  apply kbind; [apply keeps_read_exit_requested|].
  intros e. destruct (e || _); [apply kret|].
  destruct (truthy dc); [|apply kret].
  apply kbind; [apply keeps_switch_direction | intros _; apply kret].
Qed.

Lemma keeps_idle_phase fuel : keeps R (idle_phase W fuel).
Proof.
  unfold idle_phase.
  apply kbind; [apply keeps_red_led_off|]. intros _.
  apply kbind; [apply keeps_green_led_off|]. intros _.
  apply kbind; [apply kgets|]. intros cd.
  apply kbind; [apply keeps_print|]. intros _.
  apply kbind; [apply keeps_print|]. intros _.
  apply kbind; [apply keeps_wait_for_button_or_switch_change|].
  intros dc. apply keeps_after_idle_wait.
Qed.

Lemma keeps_stop_capture : keeps R (stop_capture W).
Proof.
  unfold stop_capture.
  apply kbind; [apply keeps_modify; apply (stable_recording W R HR)|]. intros _.
  apply kbind; [apply keeps_stream_stop|]. intros _.
  apply kbind; [apply keeps_stream_close|]. intros _.
  apply keeps_red_led_off.
Qed.

Lemma keeps_start_capture : keeps R (start_capture W).
Proof.
  unfold start_capture.
  apply kbind; [apply keeps_modify; apply (stable_q W R HR)|]. intros _.
  apply kbind; [apply keeps_modify; apply (stable_recording W R HR)|]. intros _.
  apply kbind; [apply keeps_open_input_stream|]. intros _.
  apply kbind; [apply keeps_red_led_on|]. intros _.
  apply keeps_print.
Qed.

Lemma keeps_capture fuel : keeps R (capture W fuel).
Proof.
  unfold capture.
  apply kbind; [apply kgets|]. intros cd.
  apply ktry; [apply keeps_wait_for_button_release_or_switch_change
    |apply keeps_stop_capture].
Qed.

Lemma keeps_after_capture dc : keeps R (after_capture W dc).
Proof. apply keeps_after_idle_wait. Qed.

Lemma keeps_recording_phase fuel : keeps R (recording_phase W fuel).
Proof.
  unfold recording_phase.
  apply kbind; [apply keeps_start_capture|]. intros _.
  apply kbind; [apply keeps_capture|]. intros dc.
  apply keeps_after_capture.
Qed.

Lemma keeps_after_transcription text : keeps R (after_transcription W text).
Proof.
  unfold after_transcription. destruct text; try apply kraise.
  destruct (String.eqb _ _).
  - apply kbind; [apply keeps_print|]. intros _.
    apply kbind; [apply kgets|]. intros cd.
    apply kbind; [apply keeps_play_no_audio|]. intros _.
    apply kret.
  - apply kbind; [apply keeps_print|]. intros _.
    apply kbind; [apply keeps_restore_punctuation_call|]. intros p.
    apply kbind; [apply keeps_print|]. intros _.
    apply kbind; [apply keeps_print|]. intros _.
    apply kbind; [apply keeps_red_led_on|]. intros _.
    apply kbind; [apply keeps_translate|]. intros t.
    apply kbind; [apply keeps_red_led_off|]. intros _.
    apply kret.
Qed.

Lemma keeps_processing_phase : keeps R (processing_phase W).
Proof.
  unfold processing_phase.
  apply kbind; [apply keeps_drain|]. intros frames.
  destruct (aggregate frames) as [audio|]; [|apply kraise].
  destruct (Nat.eqb _ _).
  - apply kbind; [apply keeps_print|]. intros _.
    apply kbind; [apply kgets|]. intros cd.
    apply kbind; [apply keeps_play_no_audio|]. intros _.
    apply kret.
  - apply kbind; [apply keeps_print|]. intros _.
    apply kbind; [apply keeps_red_led_on|]. intros _.
    apply kbind; [apply keeps_transcribe|]. intros t.
    apply kbind; [apply keeps_red_led_off|]. intros _.
    apply kbind; [apply keeps_print|]. intros _.
    apply keeps_after_transcription.
Qed.

Lemma keeps_after_playback_wait play tr : keeps R (after_playback_wait W play tr).
Proof.
  unfold after_playback_wait.
  apply kbind; [apply keeps_green_led_off|]. intros _.
  apply kbind; [apply keeps_read_exit_requested|].
  intros e. destruct e; [apply kret|].
  destruct (negb play); [apply kret|].
  apply kbind; [apply keeps_print|]. intros _.
  apply kbind; [apply keeps_speak|]. intros _.
  apply kret.
Qed.

Lemma keeps_playback_phase fuel tr : keeps R (playback_phase W fuel tr).
Proof.
  unfold playback_phase.
  apply kbind; [apply keeps_green_led_on|]. intros _.
  apply kbind; [apply keeps_print|]. intros _.
  apply kbind; [apply keeps_playback_wait|]. intros p.
  apply keeps_after_playback_wait.
Qed.

Lemma keeps_main_iteration fuel : keeps R (main_iteration W fuel).
Proof.
  unfold main_iteration.
  apply kand; [apply keeps_idle_phase|]. intros _.
  apply kand; [apply keeps_recording_phase|].
  intros _.
  apply kand; [apply keeps_processing_phase|].
  intros tr. apply keeps_playback_phase.
Qed.

Lemma keeps_main_loop rounds fuel : keeps R (main_loop W rounds fuel).
Proof.
  induction rounds as [|rounds IH]; simpl; [apply keeps_out_of_fuel|].
  apply kbind; [apply keeps_read_exit_requested|].
  intros e. destruct e; [apply kret|].
  apply kbind; [apply keeps_main_iteration|].
  intros r. destruct r; [exact IH | exact IH | apply kret].
Qed.

Lemma keeps_shutdown : keeps R (shutdown W).
Proof.
  unfold shutdown.
  apply kbind; [apply keeps_print|]. intros _.
  apply kbind; [apply keeps_red_led_off|]. intros _.
  apply kbind; [apply keeps_green_led_off|]. intros _.
  apply kbind; [apply keeps_print|]. intros _.
  apply kbind; [apply keeps_pass_time|]. intros _.
  apply keeps_emit.
Qed.

Lemma keeps_main rounds fuel : keeps R (main W rounds fuel).
Proof.
  unfold main. apply ktry; [|apply keeps_shutdown].
  apply kexcept; [|apply keeps_print].
  apply kbind; [apply keeps_get_translation_direction|].
  intros d. apply kbind; [apply keeps_modify; apply (stable_current_direction W R HR)|]. intros _.
  apply kbind; [apply keeps_load_models|]. intros _.
  apply kbind; [apply keeps_play_mode_announcement|].
  intros _. apply keeps_main_loop.
Qed.

End Stable.

(** ** No statement of the program raises [KeyboardInterrupt] *)

(** [uninterrupted m]: [m] never ends with a [KeyboardInterrupt]. *)
Definition uninterrupted {A} (m : M A) : Prop :=
  forall st s, m st <> Raise KeyboardInterrupt s.

Lemma u_ret {A} (a : A) : uninterrupted (ret a).
Proof. intros st s. discriminate. Qed.

Lemma u_gets {A} (f : State -> A) : uninterrupted (gets f).
Proof. intros st s. discriminate. Qed.

Lemma u_modify (f : State -> State) : uninterrupted (modify f).
Proof. intros st s. discriminate. Qed.

Lemma u_out_of_fuel {A} : uninterrupted (fun _ : State => @OutOfFuel A).
Proof. intros st s. discriminate. Qed.

Lemma u_raise {A} (e : exn) :
  is_KeyboardInterrupt e = false -> uninterrupted (@raise A e).
Proof. intros H st s E. injection E as -> _. discriminate. Qed.

Lemma u_bind {A B} (m : M A) (k : A -> M B) :
  uninterrupted m -> (forall a, uninterrupted (k a)) ->
  uninterrupted (bind m k).
Proof.
  intros Hm Hk st s. unfold bind. specialize (Hm st).
  destruct (m st) as [a st1|e st1|]; [apply Hk| |discriminate].
  intros E. injection E as -> ->. now apply (Hm s).
Qed.

Lemma u_try_finally {A} (body : M A) (fin : M unit) :
  uninterrupted body -> uninterrupted fin ->
  uninterrupted (try_finally body fin).
Proof.
  intros Hb Hf st s. unfold try_finally. specialize (Hb st).
  destruct (body st) as [a st1|e st1|]; [| |discriminate];
    specialize (Hf st1); destruct (fin st1) as [u st2|e' st2|];
    try discriminate.
  - intros E. injection E as -> ->. now apply (Hf s).
  - intros E. injection E as -> ->. now apply (Hb st1).
  - intros E. injection E as -> ->. now apply (Hf s).
Qed.

Lemma u_and_then {A B} (m : M (flow A)) (k : A -> M (flow B)) :
  uninterrupted m -> (forall a, uninterrupted (k a)) ->
  uninterrupted (and_then m k).
Proof.
  intros Hm Hk. unfold and_then. apply u_bind; [exact Hm|].
  intros r. destruct r; [apply Hk | apply u_ret | apply u_ret].
Qed.

(** A [try] whose body raises nothing of the class it catches is its
    body. *)
Lemma try_except_uninterrupted {A} (body handler : M A) (st : State) :
  uninterrupted body ->
  try_except body is_KeyboardInterrupt handler st = body st.
Proof.
  intros Hb. unfold try_except. specialize (Hb st).
  destruct (body st) as [a st1|e st1|]; try reflexivity.
  destruct e; try reflexivity. now destruct (Hb st1).
Qed.

Create HintDb uninterrupted.
#[global] Hint Resolve u_ret u_gets u_modify u_out_of_fuel : uninterrupted.

(** Decomposes a program into its statements. *)
Ltac quiet :=
  repeat first
    [ solve [auto with uninterrupted]
    | apply u_raise; reflexivity
    | apply u_bind; [|intros ?]
    | apply u_and_then; [|intros ?]
    | apply u_try_finally
    | match goal with
      | |- uninterrupted (match ?x with _ => _ end) => destruct x
      end ].

Section Uninterrupted.

Variable W : World.

Lemma u_emit e : uninterrupted (emit e).
Proof. unfold emit. quiet. Qed.
Lemma u_pass_time : uninterrupted (pass_time W).
Proof. unfold pass_time. quiet. Qed.
Lemma u_print msg : uninterrupted (print msg).
Proof. apply u_emit. Qed.
#[local] Hint Resolve u_emit u_pass_time u_print : uninterrupted.

Lemma u_red_led_on : uninterrupted red_led_on.
Proof. unfold red_led_on. quiet. Qed.
Lemma u_red_led_off : uninterrupted red_led_off.
Proof. unfold red_led_off. quiet. Qed.
Lemma u_green_led_on : uninterrupted green_led_on.
Proof. unfold green_led_on. quiet. Qed.
Lemma u_green_led_off : uninterrupted green_led_off.
Proof. unfold green_led_off. quiet. Qed.
Lemma u_read_exit_requested : uninterrupted read_exit_requested.
Proof. unfold read_exit_requested. quiet. Qed.
Lemma u_record_button_is_active : uninterrupted (record_button_is_active W).
Proof. unfold record_button_is_active. quiet. Qed.
Lemma u_get_translation_direction :
  uninterrupted (get_translation_direction W).
Proof. unfold get_translation_direction. quiet. Qed.
Lemma u_sleep ms : uninterrupted (sleep W ms).
Proof. unfold sleep. quiet. Qed.
Lemma u_play_audio_file f : uninterrupted (play_audio_file W f).
Proof. unfold play_audio_file. quiet. Qed.
#[local] Hint Resolve u_red_led_on u_red_led_off u_green_led_on u_green_led_off
  u_read_exit_requested u_record_button_is_active
  u_get_translation_direction u_sleep u_play_audio_file : uninterrupted.

Lemma u_play_mode_announcement d : uninterrupted (play_mode_announcement W d).
Proof. unfold play_mode_announcement. quiet. Qed.
Lemma u_play_no_audio d : uninterrupted (play_no_audio W d).
Proof. unfold play_no_audio. quiet. Qed.
Lemma u_load_models d : uninterrupted (load_models W d).
Proof. unfold load_models, load_message. quiet. Qed.
Lemma u_transcribe a : uninterrupted (transcribe W a).
Proof. unfold transcribe. quiet. Qed.
Lemma u_translate t : uninterrupted (translate W t).
Proof. unfold translate. quiet. Qed.
Lemma u_speak t : uninterrupted (speak W t).
Proof. unfold speak. quiet. Qed.
Lemma u_restore_punctuation_call t :
  uninterrupted (restore_punctuation_call W t).
Proof. unfold restore_punctuation_call. quiet. Qed.
Lemma u_open_input_stream : uninterrupted (open_input_stream W).
Proof. unfold open_input_stream. quiet. Qed.
Lemma u_stream_stop : uninterrupted (stream_stop W).
Proof. unfold stream_stop. quiet. Qed.
Lemma u_stream_close : uninterrupted stream_close.
Proof. unfold stream_close. quiet. Qed.
Lemma u_drain fr : uninterrupted (drain fr).
Proof. unfold drain. quiet. Qed.
#[local] Hint Resolve u_play_mode_announcement u_play_no_audio u_load_models
  u_transcribe u_translate u_speak u_restore_punctuation_call
  u_open_input_stream u_stream_stop u_stream_close u_drain : uninterrupted.

Lemma u_switch_direction d : uninterrupted (switch_direction W d).
Proof. unfold switch_direction. quiet. Qed.
#[local] Hint Resolve u_switch_direction : uninterrupted.

Lemma u_wait_for_button_or_switch_change fuel last :
  uninterrupted (wait_for_button_or_switch_change W fuel last).
Proof. induction fuel as [|fuel IH]; simpl; quiet. Qed.

Lemma u_wait_for_button_release_or_switch_change fuel last :
  uninterrupted (wait_for_button_release_or_switch_change W fuel last).
Proof. induction fuel as [|fuel IH]; simpl; quiet. Qed.

Lemma u_playback_wait fuel : uninterrupted (playback_wait W fuel).
Proof. induction fuel as [|fuel IH]; simpl; quiet. Qed.
#[local] Hint Resolve u_wait_for_button_or_switch_change
  u_wait_for_button_release_or_switch_change u_playback_wait : uninterrupted.

Lemma u_after_idle_wait dc : uninterrupted (after_idle_wait W dc).
Proof. unfold after_idle_wait. quiet. Qed.
Lemma u_stop_capture : uninterrupted (stop_capture W).
Proof. unfold stop_capture. quiet. Qed.
Lemma u_start_capture : uninterrupted (start_capture W).
Proof. unfold start_capture. quiet. Qed.
#[local] Hint Resolve u_after_idle_wait u_stop_capture u_start_capture : uninterrupted.

Lemma u_idle_phase fuel : uninterrupted (idle_phase W fuel).
Proof. unfold idle_phase. quiet. Qed.
Lemma u_capture fuel : uninterrupted (capture W fuel).
Proof. unfold capture. quiet. Qed.
Lemma u_after_capture dc : uninterrupted (after_capture W dc).
Proof. unfold after_capture. quiet. Qed.
#[local] Hint Resolve u_idle_phase u_capture u_after_capture : uninterrupted.

Lemma u_recording_phase fuel : uninterrupted (recording_phase W fuel).
Proof. unfold recording_phase. quiet. Qed.
Lemma u_after_transcription text : uninterrupted (after_transcription W text).
Proof. unfold after_transcription. quiet. Qed.
#[local] Hint Resolve u_recording_phase u_after_transcription : uninterrupted.

Lemma u_processing_phase : uninterrupted (processing_phase W).
Proof. unfold processing_phase. quiet. Qed.
Lemma u_after_playback_wait play tr :
  uninterrupted (after_playback_wait W play tr).
Proof. unfold after_playback_wait. quiet. Qed.
#[local] Hint Resolve u_processing_phase u_after_playback_wait : uninterrupted.

Lemma u_playback_phase fuel tr : uninterrupted (playback_phase W fuel tr).
Proof. unfold playback_phase. quiet. Qed.
#[local] Hint Resolve u_playback_phase : uninterrupted.

Lemma u_main_iteration fuel : uninterrupted (main_iteration W fuel).
Proof. unfold main_iteration. quiet. Qed.
#[local] Hint Resolve u_main_iteration : uninterrupted.

Lemma u_main_loop rounds fuel : uninterrupted (main_loop W rounds fuel).
Proof. induction rounds as [|rounds IH]; simpl; quiet. Qed.

End Uninterrupted.

(** The exit flag, once set, stays set. *)
Definition flag_stays (st st' : State) : Prop :=
  exit_requested st = true -> exit_requested st' = true.

Lemma stable_flag_stays (W : World) : stable W flag_stays.
Proof.
  constructor; unfold flag_stays; intros; auto.
  now apply tick_monotonic.
Qed.

(** *** What a polling loop leaves alone *)

Definition poll_event (e : event) : Prop :=
  match e with
  | EvReadExit _ | EvReadButton _ | EvReadSwitch _ | EvSleep _ => True
  | _ => False
  end.

(** The main thread has only read inputs and slept between the two states. *)
Definition only_polled (st st' : State) : Prop :=
  stream st' = stream st /\ models st' = models st /\
  current_direction st' = current_direction st /\
  recording st' = recording st /\ stream_active st' = stream_active st /\
  exists polls,
    main_of (log st') = main_of (log st) ++ polls /\ Forall poll_event polls.

Lemma only_polled_event (e : event) (st : State) :
  poll_event e -> only_polled st (log_event MainThread e st).
Proof.
  intros He. unfold only_polled. simpl. repeat split; auto.
  exists [e]. rewrite main_of_app. simpl. auto.
Qed.

Lemma polling_only_polled (W : World) : polling W only_polled.
Proof.
  constructor; intros; try (apply only_polled_event; exact I).
  - unfold only_polled. repeat split; auto. exists []. now rewrite app_nil_r.
  - destruct H as [H1 [H2 [H3 [H4 [H5 [p [Hp Fp]]]]]]].
    destruct H0 as [K1 [K2 [K3 [K4 [K5 [p' [Hp' Fp']]]]]]].
    unfold only_polled. repeat split; try congruence.
    exists (p ++ p'). split; [|now apply Forall_app].
    now rewrite Hp', Hp, app_assoc.
  - unfold only_polled. autorewrite with ticks. repeat split; auto.
    exists []. now rewrite app_nil_r.
Qed.

(** The number of calls of the recognizer among the events. *)
Fixpoint recognizer_calls (l : list event) : nat :=
  match l with
  | [] => 0
  | EvRecognize _ _ :: rest => S (recognizer_calls rest)
  | _ :: rest => recognizer_calls rest
  end.

Lemma recognizer_calls_app (l1 l2 : list event) :
  recognizer_calls (l1 ++ l2) = recognizer_calls l1 + recognizer_calls l2.
Proof.
  induction l1 as [|e l1 IH]; simpl; [reflexivity|].
  destruct e; simpl; now rewrite IH.
Qed.

Lemma recognizer_calls_polls (l : list event) :
  Forall poll_event l -> recognizer_calls l = 0.
Proof.
  induction 1 as [|e l He _ IH]; [reflexivity|].
  destruct e; simpl in *; tauto.
Qed.

(** ** A direction change while recording *)

Section Recording.

Variable W : World.

Lemma start_capture_spec st :
  exists sta,
    start_capture W st = Ret tt sta /\
    models sta = models st /\
    current_direction sta = current_direction st /\
    q sta = [] /\ recording sta = true /\
    recognizer_calls (main_of (log sta)) = recognizer_calls (main_of (log st)) /\
    match input_stream_open W (streams_opened st) with
    | OpenOk => stream sta = Some (streams_opened st) /\ stream_active sta = true
    | CtorRaises => stream sta = stream st /\ stream_active sta = stream_active st
    | StartRaises => stream sta = Some (streams_opened st) /\
                     stream_active sta = stream_active st
    end.
Proof.
  unfold start_capture, open_input_stream, red_led_on, print, emit, bind,
    modify, gets. simpl.
  destruct (input_stream_open W (streams_opened st)); simpl;
    eexists; (split; [reflexivity|]); simpl;
    rewrite ?main_of_app, ?recognizer_calls_app; simpl;
    repeat split; auto; lia.
Qed.

Lemma wait_release_only_polled fuel last st d st1 :
  wait_for_button_release_or_switch_change W fuel last st = Ret d st1 ->
  only_polled st st1.
Proof.
  intros E.
  pose proof (polling_wait_for_button_release_or_switch_change
                W only_polled (polling_only_polled W) fuel last st) as H.
  now rewrite E in H.
Qed.

Lemma wait_idle_only_polled fuel last st d st1 :
  wait_for_button_or_switch_change W fuel last st = Ret d st1 ->
  only_polled st st1.
Proof.
  intros E.
  pose proof (polling_wait_for_button_or_switch_change
                W only_polled (polling_only_polled W) fuel last st) as H.
  now rewrite E in H.
Qed.

(** Lines 293-299 and 252-258 once the flag has been read. *)
Lemma after_capture_spec (d : pyval) st :
  d = en_to_es \/ d = es_to_en ->
  exists st',
    after_capture W d st
    = Ret (if exit_requested st then Break else Continue) st' /\
    recording st' = recording st /\ stream_active st' = stream_active st /\
    main_of (log st')
    = main_of (log st)
      ++ EvReadExit (exit_requested st)
         :: (if exit_requested st then []
             else EvLoadModels d :: loading_line d
                  ++ [announcement W (mode_file d)]) /\
    (exit_requested st = false ->
     current_direction st' = d /\
     exists m', Models.load_models d (models st) = Some m' /\ models st' = m').
Proof.
  intros Hd. unfold after_capture, bind. rewrite read_exit_requested_spec.
  destruct (exit_requested st) eqn:Ee; simpl.
  - eexists. split; [reflexivity|]. simpl. rewrite main_of_app. simpl.
    split; [reflexivity|]. split; [reflexivity|]. split; [reflexivity|].
    discriminate.
  - assert (Hx : pyval_eqb d (Some "exit") = false)
      by (destruct Hd as [-> | ->]; reflexivity).
    assert (Ht : truthy d = true) by (destruct Hd as [-> | ->]; reflexivity).
    rewrite Hx, Ht.
    destruct (switch_direction_spec W d
                (log_event MainThread (EvReadExit false) st))
      as [st' [m' [E [Hm [Hm' [Hc [Hl [Hr [Ha _]]]]]]]]].
    rewrite E. exists st'. split; [reflexivity|].
    split; [exact Hr|]. split; [exact Ha|]. split.
    + rewrite Hl. simpl. rewrite main_of_app. simpl.
      now rewrite <- app_assoc.
    + intros _. split; [exact Hc|]. exists m'. split; [exact Hm | exact Hm'].
Qed.

End Recording.

(** With the name [stream] bound: when the wait of the recording phase
    returns a direction, the [finally] block stops and closes the stream and
    clears the flag, the queued audio is left undrained and the recognizer
    is not called in the iteration; the exit flag is then read, and unless
    it is set the new direction becomes current, its models are loaded, its
    mode announcement is played and the iteration ends with [continue],
    which leads back to the idle wait.  (When the flag is set the iteration
    ends with [break].) *)
Lemma direction_change_with_stream_bound
  (W : World) (fuel : nat) (st sta st1 : State) (d : pyval) :
  start_capture W st = Ret tt sta ->
  stream sta <> None ->
  wait_for_button_release_or_switch_change W fuel (current_direction sta) sta
  = Ret d st1 ->
  d = en_to_es \/ d = es_to_en ->
  exists (e : bool) (st3 : State),
    recording_phase W fuel st = Ret (if e then Break else Continue) st3 /\
    recording st3 = false /\ stream_active st3 = false /\
    recognizer_calls (main_of (log st3)) = recognizer_calls (main_of (log st)) /\
    main_of (log st3)
    = main_of (log st1)
      ++ [EvStreamStop; EvStreamClose; EvLed Red Off; EvReadExit e]
      ++ (if e then []
          else EvLoadModels d :: loading_line d
               ++ [announcement W (mode_file d)]) /\
    (e = false ->
     current_direction st3 = d /\
     exists m', Models.load_models d (models st) = Some m' /\ models st3 = m').
Proof.
  intros Hstart Hbound Hwait Hd.
  destruct (start_capture_spec W st) as [sta' [Es [Hms [_ [_ [_ [Hrc _]]]]]]].
  rewrite Hstart in Es. injection Es as <-.
  destruct (wait_release_only_polled W fuel _ sta d st1 Hwait)
    as [Hs1 [Hm1 [_ [_ [_ [polls [Hp Fp]]]]]]].
  destruct (stop_capture_bound W st1)
    as [st2 [E2 [Hr2 [Ha2 [_ [_ [_ [_ [Hm2 Hl2]]]]]]]]];
    [congruence|].
  destruct (after_capture_spec W d st2 Hd) as [st3 [E3 [Hr3 [Ha3 [Hl3 Hx3]]]]].
  exists (exit_requested st2), st3.
  split; [|split; [congruence|split; [congruence|split; [|split]]]].
  - unfold recording_phase, bind. rewrite Hstart.
    unfold capture, bind, gets, try_finally. rewrite Hwait, E2. exact E3.
  - rewrite Hl3, Hl2, Hp, !recognizer_calls_app, Hrc.
    rewrite (recognizer_calls_polls polls Fp).
    destruct (exit_requested st2); simpl.
    + lia.
    + rewrite !recognizer_calls_app. unfold loading_line, announcement; simpl.
      destruct (pyval_eqb d en_to_es); [|destruct (pyval_eqb d es_to_en)];
        destruct (file_exists W (mode_file d)); simpl; lia.
  - rewrite Hl3, Hl2. rewrite <- app_assoc. reflexivity.
  - intros He. destruct (Hx3 He) as [Hc [m' [Hm Hm']]].
    split; [exact Hc|]. exists m'. split; [|exact Hm'].
    rewrite <- Hms, <- Hm1, <- Hm2. exact Hm.
Qed.

(** The record button stays held and the switch is toggled after a few
    ticks. *)
Definition toggling_world : World :=
  {| record_button_at := fun _ => true;
     direction_switch_at := fun t => (3 <=? t)%nat;
     exit_button_pressed_at := fun _ => false;
     exit_thread_steps_at := fun _ => 0;
     microphone_at :=
       fun t => [{| dl_status := false; dl_indata := [Z.of_nat t] |}];
     callback_suspended_at := fun _ => false;
     input_stream_open := fun _ => OpenOk;
     file_exists := fun _ => true;
     final_result := fun _ _ => Parsed (JObject [("text", JString "hola")]);
     restore_punctuation := fun s => s;
     sp_encode := fun _ s => [s];
     translate_batch := fun _ l => l;
     sp_decode := fun _ l => String.concat " " l |}.

Definition state_of {A} (o : outcome A) : State :=
  match o with
  | Ret _ st => st
  | Raise _ st => st
  | OutOfFuel => initial_state
  end.

Definition toggling_started : State :=
  Eval vm_compute in state_of (start_capture toggling_world ready_state).

Definition toggling_detected : State :=
  Eval vm_compute in
    state_of (wait_for_button_release_or_switch_change
                toggling_world 5 en_to_es toggling_started).

Example toggling_discards_the_recording :
  start_capture toggling_world ready_state = Ret tt toggling_started /\
  stream toggling_started <> None /\
  wait_for_button_release_or_switch_change
    toggling_world 5 (current_direction toggling_started) toggling_started
  = Ret es_to_en toggling_detected /\
  exists (e : bool) (st3 : State),
    recording_phase toggling_world 5 ready_state
    = Ret (if e then Break else Continue) st3 /\
    recognizer_calls (main_of (log st3)) = 0.
Proof.
  assert (H1 : start_capture toggling_world ready_state
               = Ret tt toggling_started) by (vm_compute; reflexivity).
  assert (H2 : stream toggling_started <> None) by discriminate.
  assert (H3 : wait_for_button_release_or_switch_change
                 toggling_world 5 (current_direction toggling_started)
                 toggling_started
               = Ret es_to_en toggling_detected) by (vm_compute; reflexivity).
  split; [exact H1|]. split; [exact H2|]. split; [exact H3|].
  destruct (direction_change_with_stream_bound
              toggling_world 5 ready_state toggling_started toggling_detected
              es_to_en H1 H2 H3 (or_intror eq_refl))
    as [e [st3 [E [_ [_ [Hrc _]]]]]].
  exists e, st3. split; [exact E | exact Hrc].
Qed.

(** ** A stream that cannot be opened *)

(** When [sd.InputStream(...)] raises on an attempt made while the name
    [stream] is still unbound, the [finally] block raises [NameError] at
    [stream.stop()] and the iteration never reaches the "no audio" branch. *)
Lemma unopened_stream_raises (W : World) (fuel : nat) (st st1 : State)
  (d : pyval) :
  stream st = None ->
  input_stream_open W (streams_opened st) = CtorRaises ->
  (forall sta, start_capture W st = Ret tt sta ->
     wait_for_button_release_or_switch_change
       W fuel (current_direction sta) sta = Ret d st1) ->
  recording_phase W fuel st
  = Raise (NameError "stream") (set_recording false st1).
Proof.
  intros Hs Ho Hwait.
  destruct (start_capture_spec W st) as [sta [Es [_ [_ [_ [_ [_ Hopen]]]]]]].
  rewrite Ho in Hopen. destruct Hopen as [Hsa _].
  specialize (Hwait sta Es).
  destruct (wait_release_only_polled W fuel _ sta d st1 Hwait) as [Hs1 _].
  unfold recording_phase, bind. rewrite Es.
  unfold capture, bind, gets, try_finally. rewrite Hwait.
  rewrite stop_capture_unbound by congruence. reflexivity.
Qed.

(** No input device: the constructor of the stream raises on every
    attempt.  The operator holds the record button from tick 3 to tick 6. *)
Definition deaf_world : World :=
  {| record_button_at := fun t => (3 <=? t)%nat && (t <=? 6)%nat;
     direction_switch_at := fun _ => false;
     exit_button_pressed_at := fun _ => false;
     exit_thread_steps_at := fun _ => 0;
     microphone_at := fun _ => [];
     callback_suspended_at := fun _ => false;
     input_stream_open := fun _ => CtorRaises;
     file_exists := fun _ => true;
     final_result := fun _ _ => Parsed (JObject [("text", JString "hola")]);
     restore_punctuation := fun s => s;
     sp_encode := fun _ s => [s];
     translate_batch := fun _ l => l;
     sp_decode := fun _ l => String.concat " " l |}.

(** C2, the failing run.  On the first recording attempt of a device with no
    input device the program does not play the "no audio" announcement and
    go on: the [NameError] leaves the main loop and the outer [finally]
    shuts the device down. *)
Theorem C2_failed_open_aborts_first_attempt :
  exists st',
    main deaf_world 3 10 initial_state = Raise (NameError "stream") st' /\
    main_of (log st')
    = [EvReadSwitch false; EvLoadModels (Some "en_to_es");
       EvPrint "Loading EN->ES models"; EvAplay "./en-es-mode-quieter.wav";
       EvReadExit false; EvLed Red Off; EvLed Green Off;
       EvPrint "Mode: EN->ES";
       EvPrint
         "Press/hold button to record (or toggle switch to change direction).";
       EvReadExit false; EvReadButton true; EvReadExit false;
       EvPrint "Failed to open input stream"; EvLed Red On;
       EvPrint
         "Recording... (release button to stop, or toggle switch to change direction)";
       EvReadButton true; EvReadExit false; EvReadSwitch false;
       EvSleep 10; EvReadButton false; EvReadExit false;
       EvPrint "Exiting translator"; EvLed Red Off;
       EvLed Green Off; EvPrint "Shutting down"; EvShutdown].
Proof.
  eexists. split; vm_compute; reflexivity.
Qed.

(** No input device either, and the operator, holding the record button,
    toggles the direction switch. *)
Definition deaf_toggling_world : World :=
  {| record_button_at := fun t => (3 <=? t)%nat;
     direction_switch_at := fun t => (6 <=? t)%nat;
     exit_button_pressed_at := fun _ => false;
     exit_thread_steps_at := fun _ => 0;
     microphone_at := fun _ => [];
     callback_suspended_at := fun _ => false;
     input_stream_open := fun _ => CtorRaises;
     file_exists := fun _ => true;
     final_result := fun _ _ => Parsed (JObject [("text", JString "hola")]);
     restore_punctuation := fun s => s;
     sp_encode := fun _ s => [s];
     translate_batch := fun _ l => l;
     sp_decode := fun _ l => String.concat " " l |}.

(** C5, the failing run.  The change of direction is detected during the
    recording (the switch is read at 1 against [en_to_es]), and the
    [finally] block, which is to stop the capture, raises [NameError] at
    [stream.stop()] because the constructor of the stream had raised: the
    models of the new direction are not loaded, its announcement is not
    played, [current_direction] stays as it was, and instead of returning
    to the idle wait the program shuts the device down. *)
Theorem C5_unopened_stream_loses_the_switch :
  exists st',
    main deaf_toggling_world 3 10 initial_state
    = Raise (NameError "stream") st' /\
    current_direction st' = en_to_es /\
    main_of (log st')
    = [EvReadSwitch false; EvLoadModels (Some "en_to_es");
       EvPrint "Loading EN->ES models"; EvAplay "./en-es-mode-quieter.wav";
       EvReadExit false; EvLed Red Off; EvLed Green Off;
       EvPrint "Mode: EN->ES";
       EvPrint
         "Press/hold button to record (or toggle switch to change direction).";
       EvReadExit false; EvReadButton true; EvReadExit false;
       EvPrint "Failed to open input stream"; EvLed Red On;
       EvPrint
         "Recording... (release button to stop, or toggle switch to change direction)";
       EvReadButton true; EvReadExit false; EvReadSwitch true;
       EvPrint "Exiting translator"; EvLed Red Off;
       EvLed Green Off; EvPrint "Shutting down"; EvShutdown].
Proof.
  eexists. split; [vm_compute; reflexivity|].
  split; vm_compute; reflexivity.
Qed.

(** The stream is constructed but [stream.start()] raises. *)
Definition mute_world : World :=
  {| record_button_at := fun t => (1 <=? t)%nat && (t <=? 3)%nat;
     direction_switch_at := fun _ => false;
     exit_button_pressed_at := fun _ => false;
     exit_thread_steps_at := fun _ => 0;
     microphone_at := fun _ => [];
     callback_suspended_at := fun _ => false;
     input_stream_open := fun _ => StartRaises;
     file_exists := fun _ => true;
     final_result := fun _ _ => Parsed (JObject [("text", JString "hola")]);
     restore_punctuation := fun s => s;
     sp_encode := fun _ s => [s];
     translate_batch := fun _ l => l;
     sp_decode := fun _ l => String.concat " " l |}.

(** For comparison: when it is [stream.start()] that raises, the name is
    bound, the [finally] block runs through, and the iteration ends in the
    "no audio" branch with no call of the recognizer. *)
Example failed_start_is_empty_audio :
  exists st',
    main_iteration mute_world 10 ready_state = Ret Continue st' /\
    main_of (log st')
    = [EvLed Red Off; EvLed Green Off; EvPrint "Mode: EN->ES";
       EvPrint
         "Press/hold button to record (or toggle switch to change direction).";
       EvReadExit false; EvReadButton true; EvReadExit false;
       EvPrint "Failed to open input stream"; EvLed Red On;
       EvPrint
         "Recording... (release button to stop, or toggle switch to change direction)";
       EvReadButton true; EvReadExit false; EvReadSwitch false;
       EvSleep 10; EvReadButton false; EvReadExit false; EvStreamStop;
       EvStreamClose; EvLed Red Off; EvReadExit false;
       EvPrint "No audio recorded"; EvAplay "./no_audio-en-quieter.wav"].
Proof.
  eexists. split; vm_compute; reflexivity.
Qed.

(** ** The exit flag and the polling loops *)

(** The number of poll sleeps among the events. *)
Fixpoint sleeps (l : list event) : nat :=
  match l with
  | [] => 0
  | EvSleep _ :: rest => S (sleeps rest)
  | _ :: rest => sleeps rest
  end.

Lemma sleeps_app (l1 l2 : list event) :
  sleeps (l1 ++ l2) = sleeps l1 + sleeps l2.
Proof.
  induction l1 as [|e l1 IH]; simpl; [reflexivity|].
  destruct e; simpl; now rewrite IH.
Qed.

(** From here on [switch_direction] is used through its lemma. *)
Opaque switch_direction.

Section ExitResolution.

Variable W : World.

(** One pass through the body of each polling loop.  The value is [Some v]
    when the pass leaves the loop with [v] and [None] when it reaches the
    end of the body, after the sleep, and the loop condition is tested
    again. *)
Definition idle_iteration (last_direction : pyval) : M (option pyval) :=
  e <- read_exit_requested ;;
  if e then ret (Some (Some "exit")) else
  b <- record_button_is_active W ;;
  if b then ret (Some None) else
  new_direction <- get_translation_direction W ;;
  if negb (pyval_eqb new_direction last_direction)
  then ret (Some new_direction)
  else sleep W 10 ;; ret None.

Definition release_iteration (last_direction : pyval) : M (option pyval) :=
  b <- record_button_is_active W ;;
  e <- (if b then read_exit_requested else ret false) ;;
  if b && negb e then
    new_direction <- get_translation_direction W ;;
    if negb (pyval_eqb new_direction last_direction)
    then ret (Some new_direction)
    else sleep W 10 ;; ret None
  else
    e' <- read_exit_requested ;;
    if e' then ret (Some (Some "exit")) else ret (Some None).

Definition playback_iteration : M (option bool) :=
  e <- read_exit_requested ;;
  if e then ret (Some false) else
  b <- record_button_is_active W ;;
  if b then ret (Some true) else
  new_direction <- get_translation_direction W ;;
  cd <- gets current_direction ;;
  if negb (pyval_eqb new_direction cd) then
    green_led_off ;; switch_direction W new_direction ;; ret (Some false)
  else sleep W 10 ;; ret None.

(** What remains of each phase after a pass: the rest of the loop when the
    pass did not leave it, then the statements after the loop. *)
Definition idle_rest (fuel : nat) (last_direction : pyval)
  (r : option pyval) : M (flow unit) :=
  dc <- match r with
        | Some v => ret v
        | None => wait_for_button_or_switch_change W (S fuel) last_direction
        end ;;
  after_idle_wait W dc.

Definition capture_rest (fuel : nat) (last_direction : pyval)
  (r : option pyval) : M (flow unit) :=
  dc <- try_finally
          match r with
          | Some v => ret v
          | None =>
              wait_for_button_release_or_switch_change W (S fuel) last_direction
          end
          (stop_capture W) ;;
  after_capture W dc.

Definition playback_rest (fuel : nat) (translation : string)
  (r : option bool) : M (flow unit) :=
  p <- match r with
       | Some v => ret v
       | None => playback_wait W (S fuel)
       end ;;
  after_playback_wait W p translation.

Lemma bind_assoc {A B C} (m : M A) (k : A -> M B) (h : B -> M C) st :
  bind (bind m k) h st = bind m (fun a => bind (k a) h) st.
Proof. unfold bind. destruct (m st); reflexivity. Qed.

Lemma bind_ext {A B} (m : M A) (k k' : A -> M B) st :
  (forall a st', k a st' = k' a st') -> bind m k st = bind m k' st.
Proof. intros H. unfold bind. destruct (m st); auto. Qed.

(** A step that always returns can be moved out of a [try]. *)
Definition total {A} (m : M A) : Prop := forall st, exists a st', m st = Ret a st'.

Lemma try_finally_bind {A B} (m : M A) (k : A -> M B) (fin : M unit) st :
  total m ->
  try_finally (bind m k) fin st = bind m (fun a => try_finally (k a) fin) st.
Proof.
  intros H. destruct (H st) as [a [st' E]].
  unfold try_finally, bind. rewrite E. reflexivity.
Qed.

Lemma total_read_exit_requested : total read_exit_requested.
Proof. intros st. eexists. eexists. reflexivity. Qed.

Lemma total_record_button_is_active : total (record_button_is_active W).
Proof. intros st. eexists. eexists. reflexivity. Qed.

Lemma total_get_translation_direction : total (get_translation_direction W).
Proof. intros st. eexists. eexists. reflexivity. Qed.

Lemma total_sleep ms : total (sleep W ms).
Proof. intros st. eexists. eexists. reflexivity. Qed.

Lemma total_ret {A} (a : A) : total (ret a).
Proof. intros st. eexists. eexists. reflexivity. Qed.

Ltac under_bind := rewrite !bind_assoc; apply bind_ext; intros ? ?.

Lemma idle_unroll fuel last st :
  (dc <- wait_for_button_or_switch_change W (S (S fuel)) last ;;
   after_idle_wait W dc) st
  = (r <- idle_iteration last ;; idle_rest fuel last r) st.
Proof.
  unfold idle_iteration.
  change (wait_for_button_or_switch_change W (S (S fuel)) last)
    with (e <- read_exit_requested ;;
          if e then ret (Some "exit") else
          b <- record_button_is_active W ;;
          if b then ret None else
          new_direction <- get_translation_direction W ;;
          if negb (pyval_eqb new_direction last) then ret new_direction
          else sleep W 10 ;;
               wait_for_button_or_switch_change W (S fuel) last).
  under_bind. destruct a; [reflexivity|].
  under_bind. destruct a; [reflexivity|].
  under_bind. destruct (negb _); [reflexivity|].
  under_bind. reflexivity.
Qed.

Lemma try_bind_assoc {A B C} (m : M A) (k : A -> M B) (fin : M unit)
  (h : B -> M C) st :
  total m ->
  bind (try_finally (bind m k) fin) h st
  = bind m (fun a => bind (try_finally (k a) fin) h) st.
Proof.
  intros H. destruct (H st) as [a [st' E]].
  unfold try_finally, bind. rewrite E. reflexivity.
Qed.

Ltac under_try lemma :=
  rewrite try_bind_assoc by apply lemma;
  rewrite bind_assoc; apply bind_ext; intros ? ?.

Lemma capture_unroll fuel last st :
  (dc <- try_finally
           (wait_for_button_release_or_switch_change W (S (S fuel)) last)
           (stop_capture W) ;;
   after_capture W dc) st
  = (r <- release_iteration last ;; capture_rest fuel last r) st.
Proof.
  unfold release_iteration.
  change (wait_for_button_release_or_switch_change W (S (S fuel)) last)
    with (b <- record_button_is_active W ;;
          e <- (if b then read_exit_requested else ret false) ;;
          if b && negb e then
            new_direction <- get_translation_direction W ;;
            if negb (pyval_eqb new_direction last) then ret new_direction
            else sleep W 10 ;;
                 wait_for_button_release_or_switch_change W (S fuel) last
          else
            e' <- read_exit_requested ;;
            if e' then ret (Some "exit") else ret None).
  under_try total_record_button_is_active.
  assert (He : total (if a then read_exit_requested else ret false))
    by (destruct a; [apply total_read_exit_requested | apply total_ret]).
  under_try He.
  destruct (a && negb a0).
  - under_try total_get_translation_direction.
    destruct (negb _); [reflexivity|].
    under_try (total_sleep 10). reflexivity.
  - under_try total_read_exit_requested.
    destruct a1; reflexivity.
Qed.

Lemma playback_unroll fuel translation st :
  (p <- playback_wait W (S (S fuel)) ;;
   after_playback_wait W p translation) st
  = (r <- playback_iteration ;; playback_rest fuel translation r) st.
Proof.
  unfold playback_iteration.
  change (playback_wait W (S (S fuel)))
    with (e <- read_exit_requested ;;
          if e then ret false else
          b <- record_button_is_active W ;;
          if b then ret true else
          new_direction <- get_translation_direction W ;;
          cd <- gets current_direction ;;
          if negb (pyval_eqb new_direction cd) then
            green_led_off ;; switch_direction W new_direction ;; ret false
          else sleep W 10 ;; playback_wait W (S fuel)).
  under_bind. destruct a; [reflexivity|].
  under_bind. destruct a; [reflexivity|].
  under_bind. under_bind. destruct (negb _).
  - under_bind. under_bind. reflexivity.
  - under_bind. reflexivity.
Qed.

Lemma record_button_is_active_spec st :
  record_button_is_active W st
  = Ret (record_button_at W (S (clock st)))
        (log_event MainThread
           (EvReadButton (record_button_at W (S (clock st)))) (tick W st)).
Proof. reflexivity. Qed.

Lemma get_translation_direction_spec st :
  get_translation_direction W st
  = Ret (if direction_switch_at W (S (clock st)) then es_to_en else en_to_es)
        (log_event MainThread
           (EvReadSwitch (direction_switch_at W (S (clock st)))) (tick W st)).
Proof. reflexivity. Qed.

(** *** A flag found set at the loop condition *)

Lemma idle_wait_exit fuel last st :
  exit_requested st = true ->
  wait_for_button_or_switch_change W (S fuel) last st
  = Ret (Some "exit") (log_event MainThread (EvReadExit true) st).
Proof.
  intros H.
  change (wait_for_button_or_switch_change W (S fuel) last)
    with (e <- read_exit_requested ;;
          if e then ret (Some "exit") else
          b <- record_button_is_active W ;;
          if b then ret None else
          new_direction <- get_translation_direction W ;;
          if negb (pyval_eqb new_direction last) then ret new_direction
          else sleep W 10 ;;
               wait_for_button_or_switch_change W fuel last).
  unfold bind at 1. rewrite read_exit_requested_spec, H. reflexivity.
Qed.

Lemma release_wait_exit fuel last st :
  exit_requested st = true ->
  exists st',
    wait_for_button_release_or_switch_change W (S fuel) last st
    = Ret (Some "exit") st' /\
    exit_requested st' = true /\ stream st' = stream st /\
    clock st' = S (clock st) /\
    sleeps (main_of (log st')) = sleeps (main_of (log st)).
Proof.
  intros H.
  change (wait_for_button_release_or_switch_change W (S fuel) last)
    with (b <- record_button_is_active W ;;
          e <- (if b then read_exit_requested else ret false) ;;
          if b && negb e then
            new_direction <- get_translation_direction W ;;
            if negb (pyval_eqb new_direction last) then ret new_direction
            else sleep W 10 ;;
                 wait_for_button_release_or_switch_change W fuel last
          else
            e' <- read_exit_requested ;;
            if e' then ret (Some "exit") else ret None).
  unfold bind at 1. rewrite record_button_is_active_spec.
  assert (Ht : exit_requested (tick W st) = true) by now apply tick_monotonic.
  destruct (record_button_at W (S (clock st))).
  - unfold bind at 1. rewrite read_exit_requested_spec. simpl. rewrite Ht.
    simpl. unfold bind at 1. rewrite read_exit_requested_spec. simpl.
    rewrite Ht. eexists. split; [reflexivity|]. settle.
    rewrite !sleeps_app. simpl. repeat split; auto. lia.
  - unfold bind at 1. unfold ret at 1. simpl.
    unfold bind at 1. rewrite read_exit_requested_spec. simpl. rewrite Ht.
    eexists. split; [reflexivity|]. settle.
    rewrite !sleeps_app. simpl. repeat split; auto. lia.
Qed.

Lemma playback_wait_exit fuel st :
  exit_requested st = true ->
  playback_wait W (S fuel) st
  = Ret false (log_event MainThread (EvReadExit true) st).
Proof.
  intros H.
  change (playback_wait W (S fuel))
    with (e <- read_exit_requested ;;
          if e then ret false else
          b <- record_button_is_active W ;;
          if b then ret true else
          new_direction <- get_translation_direction W ;;
          cd <- gets current_direction ;;
          if negb (pyval_eqb new_direction cd) then
            green_led_off ;; switch_direction W new_direction ;; ret false
          else sleep W 10 ;; playback_wait W fuel).
  unfold bind at 1. rewrite read_exit_requested_spec, H. reflexivity.
Qed.

(** *** A flag found set after the loop *)

Lemma after_idle_wait_exit dc st :
  exit_requested st = true ->
  after_idle_wait W dc st
  = Ret Break (log_event MainThread (EvReadExit true) st).
Proof.
  intros H. unfold after_idle_wait. unfold bind at 1.
  rewrite read_exit_requested_spec, H. reflexivity.
Qed.

Lemma after_capture_exit dc st :
  exit_requested st = true ->
  after_capture W dc st
  = Ret Break (log_event MainThread (EvReadExit true) st).
Proof. apply after_idle_wait_exit. Qed.

Lemma after_playback_wait_exit play translation st :
  exit_requested st = true ->
  after_playback_wait W play translation st
  = Ret Break
      (log_event MainThread (EvReadExit true)
         (log_event MainThread (EvLed Green Off) (set_green_led false st))).
Proof.
  intros H. unfold after_playback_wait, green_led_off, emit.
  unfold bind, modify. rewrite read_exit_requested_spec. simpl.
  rewrite H. reflexivity.
Qed.

(** *** The rest of a phase once a pass has ended with the flag set *)

Lemma idle_rest_exit fuel last r st :
  exit_requested st = true ->
  exists st',
    idle_rest fuel last r st = Ret Break st' /\
    clock st' = clock st /\
    sleeps (main_of (log st')) = sleeps (main_of (log st)).
Proof.
  intros H. unfold idle_rest, bind. destruct r as [v|].
  - unfold ret. rewrite after_idle_wait_exit by exact H.
    eexists. split; [reflexivity|]. settle. rewrite sleeps_app. simpl.
    split; [reflexivity | lia].
  - rewrite idle_wait_exit by exact H.
    rewrite after_idle_wait_exit by exact H.
    eexists. split; [reflexivity|]. settle. rewrite !sleeps_app. simpl.
    split; [reflexivity | lia].
Qed.

Lemma playback_rest_exit fuel translation r st :
  exit_requested st = true ->
  exists st',
    playback_rest fuel translation r st = Ret Break st' /\
    clock st' = clock st /\
    sleeps (main_of (log st')) = sleeps (main_of (log st)).
Proof.
  intros H. unfold playback_rest, bind. destruct r as [v|].
  - unfold ret. rewrite after_playback_wait_exit by exact H.
    eexists. split; [reflexivity|]. settle. rewrite !sleeps_app. simpl.
    split; [reflexivity | lia].
  - rewrite playback_wait_exit by exact H.
    rewrite after_playback_wait_exit by exact H.
    eexists. split; [reflexivity|]. settle. rewrite !sleeps_app. simpl.
    split; [reflexivity | lia].
Qed.

Lemma stop_then_exit (dc : pyval) st :
  exit_requested st = true ->
  exists st',
    match stream st with
    | Some _ => try_finally (ret dc) (stop_capture W) st = Ret dc st'
    | None => try_finally (ret dc) (stop_capture W) st
              = Raise (NameError "stream") st'
    end /\
    exit_requested st' = true /\
    sleeps (main_of (log st')) = sleeps (main_of (log st)).
Proof.
  intros H. unfold try_finally, ret.
  pose proof (keeps_stop_capture W flag_stays (stable_flag_stays W) st) as Hk.
  destruct (stream st) as [i|] eqn:Es.
  - destruct (stop_capture_bound W st)
      as [st' [E [_ [_ [_ [_ [_ [_ [_ Hl]]]]]]]]];
      [congruence|].
    rewrite E in *. exists st'. split; [reflexivity|]. split; [now apply Hk|].
    rewrite Hl, sleeps_app. simpl. lia.
  - rewrite stop_capture_unbound in * by exact Es.
    eexists. split; [reflexivity|]. split; [now apply Hk|]. reflexivity.
Qed.

Lemma capture_rest_exit fuel last r st :
  exit_requested st = true ->
  exists st',
    match stream st with
    | Some _ => capture_rest fuel last r st = Ret Break st'
    | None => capture_rest fuel last r st = Raise (NameError "stream") st'
    end /\
    sleeps (main_of (log st')) = sleeps (main_of (log st)).
Proof.
  intros H. unfold capture_rest. destruct r as [v|].
  - destruct (stop_then_exit v st H) as [st1 [E [He Hs]]].
    unfold bind. destruct (stream st).
    + rewrite E, after_capture_exit by exact He.
      eexists. split; [reflexivity|]. settle. rewrite sleeps_app. simpl. lia.
    + rewrite E. exists st1. split; [reflexivity | exact Hs].
  - destruct (release_wait_exit fuel last st H)
      as [st1 [E1 [He1 [Hs1 [_ Hsl1]]]]].
    destruct (stop_then_exit (Some "exit") st1 He1) as [st2 [E2 [He2 Hs2]]].
    unfold try_finally, ret in E2. unfold bind, try_finally. rewrite E1.
    rewrite Hs1 in E2. destruct (stream st).
    + destruct (stop_capture W st1) as [u s|x s|]; try discriminate.
      injection E2 as ->. rewrite after_capture_exit by exact He2.
      eexists. split; [reflexivity|]. settle. rewrite sleeps_app. simpl. lia.
    + destruct (stop_capture W st1) as [u s|x s|]; try discriminate.
      injection E2 as -> ->. exists st2. split; [reflexivity | lia].
Qed.

End ExitResolution.

(** Nothing resets [exit_requested]: a tick keeps it set, and so does every
    run of the main program and of each of its phases.  Each polling loop is
    a sequence of passes through its body ([idle_unroll], [capture_unroll],
    [playback_unroll]).  From a state in which the flag is set, what remains
    of a phase takes no further poll sleep: the loop condition or the test
    after the loop sees the flag and the main loop is left, by [break] (or,
    in the recording phase with the name [stream] unbound, by the
    [NameError] of the [finally] block, which leaves it as well). *)
Lemma exit_flag_stays_and_ends_each_phase (W : World) :
  (forall st, exit_requested st = true -> exit_requested (tick W st) = true) /\
  (forall rounds fuel, keeps flag_stays (main W rounds fuel)) /\
  (forall fuel translation,
      keeps flag_stays (idle_phase W fuel) /\
      keeps flag_stays (recording_phase W fuel) /\
      keeps flag_stays (processing_phase W) /\
      keeps flag_stays (playback_phase W fuel translation)) /\
  (forall fuel last st,
      (dc <- wait_for_button_or_switch_change W (S (S fuel)) last ;;
       after_idle_wait W dc) st
      = (r <- idle_iteration W last ;; idle_rest W fuel last r) st) /\
  (forall fuel last r st,
      exit_requested st = true ->
      exists st',
        idle_rest W fuel last r st = Ret Break st' /\
        clock st' = clock st /\
        sleeps (main_of (log st')) = sleeps (main_of (log st))) /\
  (forall fuel last st,
      (dc <- try_finally
               (wait_for_button_release_or_switch_change W (S (S fuel)) last)
               (stop_capture W) ;;
       after_capture W dc) st
      = (r <- release_iteration W last ;; capture_rest W fuel last r) st) /\
  (forall fuel last r st,
      exit_requested st = true ->
      exists st',
        match stream st with
        | Some _ => capture_rest W fuel last r st = Ret Break st'
        | None => capture_rest W fuel last r st
                  = Raise (NameError "stream") st'
        end /\
        sleeps (main_of (log st')) = sleeps (main_of (log st))) /\
  (forall fuel translation st,
      (p <- playback_wait W (S (S fuel)) ;;
       after_playback_wait W p translation) st
      = (r <- playback_iteration W ;; playback_rest W fuel translation r) st) /\
  (forall fuel translation r st,
      exit_requested st = true ->
      exists st',
        playback_rest W fuel translation r st = Ret Break st' /\
        clock st' = clock st /\
        sleeps (main_of (log st')) = sleeps (main_of (log st))).
Proof.
  split; [apply tick_monotonic|].
  split; [intros; apply keeps_main, stable_flag_stays|].
  split.
  { intros fuel translation. repeat split.
    - apply keeps_idle_phase, stable_flag_stays.
    - apply keeps_recording_phase, stable_flag_stays.
    - apply keeps_processing_phase, stable_flag_stays.
    - apply keeps_playback_phase, stable_flag_stays. }
  split; [apply idle_unroll|].
  split; [apply idle_rest_exit|].
  split; [apply capture_unroll|].
  split; [apply capture_rest_exit|].
  split; [apply playback_unroll | apply playback_rest_exit].
Qed.

(** The state after start-up with the exit flag set. *)
Definition exit_set : State := set_exit_requested true ready_state.

Example exit_set_ends_the_waits :
  exit_requested exit_set = true /\
  exit_requested (tick quiet_world exit_set) = true /\
  (exists st', idle_rest quiet_world 0 en_to_es None exit_set = Ret Break st') /\
  (exists st',
      playback_rest quiet_world 0 "Hola." None exit_set = Ret Break st').
Proof.
  assert (H : exit_requested exit_set = true) by reflexivity.
  destruct (exit_flag_stays_and_ends_each_phase quiet_world)
    as [Ht [_ [_ [_ [Hi [_ [_ [_ Hp]]]]]]]].
  split; [exact H|]. split; [exact (Ht exit_set H)|]. split.
  - destruct (Hi 0 en_to_es None exit_set H) as [st' [E _]].
    exists st'. exact E.
  - destruct (Hp 0 "Hola." None exit_set H) as [st' [E _]].
    exists st'. exact E.
Qed.

(** ** Exit and a direction change seen together *)

(** In the idle and the recording phase the flag is read again after the
    wait has returned: a direction observed when the flag is already set is
    dropped, nothing is loaded and the main loop is left. *)
Lemma exit_beats_switch_after_a_wait (W : World) (d : pyval) (st : State) :
  exit_requested st = true ->
  (exists st',
      after_idle_wait W d st = Ret Break st' /\
      main_of (log st') = main_of (log st) ++ [EvReadExit true]) /\
  (exists st',
      after_capture W d st = Ret Break st' /\
      main_of (log st') = main_of (log st) ++ [EvReadExit true]).
Proof.
  intros H. split.
  - rewrite after_idle_wait_exit by exact H. eexists. split; [reflexivity|].
    simpl. now rewrite main_of_app.
  - rewrite after_capture_exit by exact H. eexists. split; [reflexivity|].
    simpl. now rewrite main_of_app.
Qed.

(** The loop that waits for the playback decision gives way to a flag that
    is set when its condition is tested. *)
Lemma exit_beats_switch_at_playback_condition (W : World) (fuel : nat)
  (st : State) :
  exit_requested st = true ->
  playback_wait W (S fuel) st
  = Ret false (log_event MainThread (EvReadExit true) st).
Proof. apply playback_wait_exit. Qed.

(** A complete session.  The operator records a phrase (ticks 4 to 7); the
    exit button is pressed while the phrase is being transcribed; the
    callback does its toggles and plays the exit sound while the main thread
    transcribes, punctuates and translates; it assigns [exit_requested]
    while the main thread, in the loop of lines 333-345, is reading the
    record button; by the next read the direction switch has been
    toggled. *)
Definition race_world : World :=
  {| record_button_at := fun t => (4 <=? t)%nat && (t <=? 7)%nat;
     direction_switch_at := fun t => (14 <=? t)%nat;
     exit_button_pressed_at := fun t => (t =? 9)%nat;
     exit_thread_steps_at :=
       fun t => if (t =? 9)%nat then 6 else if (t =? 10)%nat then 6
                else if (t =? 11)%nat then 5 else if (t =? 12)%nat then 1
                else if (t =? 13)%nat then 1 else 0;
     microphone_at :=
       fun t => [{| dl_status := false; dl_indata := [Z.of_nat t] |}];
     callback_suspended_at := fun _ => false;
     input_stream_open := fun _ => OpenOk;
     file_exists := fun _ => true;
     final_result :=
       fun _ _ => Parsed (JObject [("text", JString "hello there")]);
     restore_punctuation := fun _ => "Hello there.";
     sp_encode := fun _ s => [s];
     translate_batch := fun _ _ => ["Hola."];
     sp_decode := fun _ l => String.concat " " l |}.

(** C1, the failing run.  In the wait for the playback decision the flag is
    tested only at the loop condition.  Here it is set after that test and
    before the direction is read: the loop reads the new direction with the
    flag set, loads the models of the new direction and plays its mode
    announcement, and only then does the program see the flag and leave.
    The events are those from the moment the translation-ready indicator is
    switched on. *)
Theorem C1_playback_wait_switches_with_flag_set :
  exists st',
    main race_world 3 10 initial_state = Ret tt st' /\
    exit_requested st' = true /\
    skipn 54 (log st')
    = [(MainThread, EvLed Green On);
       (MainThread,
        EvPrint
          "Press button to play translation (or toggle switch to change direction).");
       (MainThread, EvReadExit false);
       (ExitThread, EvExitFlagSet);
       (MainThread, EvReadButton false);
       (ExitThread, EvPrint "Exit button pressed. Cleaning up...");
       (MainThread, EvReadSwitch true);
       (MainThread, EvLed Green Off);
       (MainThread, EvLoadModels (Some "es_to_en"));
       (MainThread, EvPrint "Loading ES->EN models");
       (MainThread, EvAplay "./es-en-mode-quieter.wav");
       (MainThread, EvLed Green Off);
       (MainThread, EvReadExit true);
       (MainThread, EvPrint "Exiting translator");
       (MainThread, EvLed Red Off);
       (MainThread, EvLed Green Off);
       (MainThread, EvPrint "Shutting down");
       (MainThread, EvShutdown)].
Proof.
  eexists. split; [vm_compute; reflexivity|].
  split; vm_compute; reflexivity.
Qed.




(** The same coincidence during the idle wait: the exit button is pressed at
    start-up, the callback assigns the flag while the idle loop is reading
    the record button, and the switch has been toggled by the next read. *)
Definition idle_race_world : World :=
  {| record_button_at := fun _ => false;
     direction_switch_at := fun t => (5 <=? t)%nat;
     exit_button_pressed_at := fun t => (t =? 1)%nat;
     exit_thread_steps_at :=
       fun t => if (t =? 1)%nat then 9 else if (t =? 2)%nat then 8
                else if (t =? 3)%nat then 1 else if (t =? 4)%nat then 1
                else 0;
     microphone_at := fun _ => [];
     callback_suspended_at := fun _ => false;
     input_stream_open := fun _ => OpenOk;
     file_exists := fun _ => true;
     final_result := fun _ _ => Parsed (JObject [("text", JString "")]);
     restore_punctuation := fun s => s;
     sp_encode := fun _ s => [s];
     translate_batch := fun _ l => l;
     sp_decode := fun _ l => String.concat " " l |}.

(** There the direction is dropped: no model is loaded after the flag is
    set. *)
Example idle_wait_gives_way :
  exists st',
    main idle_race_world 3 10 initial_state = Ret tt st' /\
    main_of (log st')
    = [EvReadSwitch false; EvLoadModels (Some "en_to_es");
       EvPrint "Loading EN->ES models"; EvAplay "./en-es-mode-quieter.wav";
       EvReadExit false; EvLed Red Off; EvLed Green Off;
       EvPrint "Mode: EN->ES";
       EvPrint
         "Press/hold button to record (or toggle switch to change direction).";
       EvReadExit false; EvReadButton false; EvReadSwitch true;
       EvReadExit true;
       EvPrint "Exiting translator"; EvLed Red Off; EvLed Green Off;
       EvPrint "Shutting down"; EvShutdown].
Proof.
  eexists. split; vm_compute; reflexivity.
Qed.

(** * Start-up: the audio devices *)

Section DeviceSelection.

Variable P : Probes.

Definition output_probe (device : string) : startup_event :=
  SuAplay device silence.

Definition input_probe (device : string) : startup_event :=
  SuInputStream device.

Lemma test_audio_device_true (device : string) (s : Startup) :
  fst (test_audio_device P device s) = true <->
  aplay_silence P device = Returned 0.
Proof.
  unfold test_audio_device. simpl.
  destruct (aplay_silence P device) as [c|]; split; intros H;
    try discriminate.
  - apply Z.eqb_eq in H. now subst.
  - injection H as ->. reflexivity.
Qed.

Lemma test_input_device_true (device : string) (s : Startup) :
  fst (test_input_device P device s) = true <->
  input_stream_probe P device = WithCompletes.
Proof.
  unfold test_input_device. simpl.
  destruct (input_stream_probe P device); split; intros H;
    reflexivity || discriminate.
Qed.

Lemma select_audio_device_loop_spec (devices : list string) (s : Startup) :
  INPUT_DEVICE (snd (select_audio_device_loop P devices s)) = INPUT_DEVICE s /\
  if fst (select_audio_device_loop P devices s) then
    exists before device after,
      devices = before ++ device :: after /\
      Forall (fun d => aplay_silence P d <> Returned 0) before /\
      aplay_silence P device = Returned 0 /\
      APLAY_DEVICE (snd (select_audio_device_loop P devices s)) = Some device /\
      startup_log (snd (select_audio_device_loop P devices s))
      = startup_log s ++ map output_probe (before ++ [device])
        ++ [SuPrint ("Selected output audio device: " ++ device)]
  else
    Forall (fun d => aplay_silence P d <> Returned 0) devices /\
    APLAY_DEVICE (snd (select_audio_device_loop P devices s)) = APLAY_DEVICE s /\
    startup_log (snd (select_audio_device_loop P devices s))
    = startup_log s ++ map output_probe devices.
Proof.
  revert s. induction devices as [|device rest IH]; intros s.
  - simpl. rewrite app_nil_r. auto.
  - cbn [select_audio_device_loop].
    pose proof (test_audio_device_true device s) as Ht.
    destruct (test_audio_device P device s) as [usable s1] eqn:E.
    assert (Hs1 : s1 = startup_emit (output_probe device) s)
      by (unfold test_audio_device in E; now injection E as _ <-).
    simpl in Ht. destruct usable.
    + simpl. subst s1. simpl. split; [reflexivity|].
      exists [], device, rest. simpl. repeat split; auto.
      * now apply Ht.
      * now rewrite <- app_assoc.
    + specialize (IH s1). destruct IH as [Hin IH]. subst s1. simpl in *.
      split; [exact Hin|].
      assert (Hfail : aplay_silence P device <> Returned 0)
        by (intros H; apply Ht in H; discriminate).
      destruct (fst (select_audio_device_loop P rest _)).
      * destruct IH as [before [dev [after [Hd [Hb [Hu [Ha Hl]]]]]]].
        exists (device :: before), dev, after. simpl.
        repeat split; auto.
        -- now rewrite Hd.
        -- rewrite Hl, <- app_assoc. reflexivity.
      * destruct IH as [Hb [Ha Hl]]. repeat split; auto.
        rewrite Hl, <- app_assoc. reflexivity.
Qed.

Lemma select_input_device_loop_spec (devices : list string) (s : Startup) :
  APLAY_DEVICE (snd (select_input_device_loop P devices s)) = APLAY_DEVICE s /\
  if fst (select_input_device_loop P devices s) then
    exists before device after,
      devices = before ++ device :: after /\
      Forall (fun d => input_stream_probe P d <> WithCompletes) before /\
      input_stream_probe P device = WithCompletes /\
      INPUT_DEVICE (snd (select_input_device_loop P devices s)) = Some device /\
      startup_log (snd (select_input_device_loop P devices s))
      = startup_log s ++ map input_probe (before ++ [device])
        ++ [SuPrint ("Selected input audio device: " ++ device)]
  else
    Forall (fun d => input_stream_probe P d <> WithCompletes) devices /\
    INPUT_DEVICE (snd (select_input_device_loop P devices s)) = INPUT_DEVICE s /\
    startup_log (snd (select_input_device_loop P devices s))
    = startup_log s ++ map input_probe devices.
Proof.
  revert s. induction devices as [|device rest IH]; intros s.
  - simpl. rewrite app_nil_r. auto.
  - cbn [select_input_device_loop].
    pose proof (test_input_device_true device s) as Ht.
    destruct (test_input_device P device s) as [usable s1] eqn:E.
    assert (Hs1 : s1 = startup_emit (input_probe device) s)
      by (unfold test_input_device in E; now injection E as _ <-).
    simpl in Ht. destruct usable.
    + simpl. subst s1. simpl. split; [reflexivity|].
      exists [], device, rest. simpl. repeat split; auto.
      * now apply Ht.
      * now rewrite <- app_assoc.
    + specialize (IH s1). destruct IH as [Hin IH]. subst s1. simpl in *.
      split; [exact Hin|].
      assert (Hfail : input_stream_probe P device <> WithCompletes)
        by (intros H; apply Ht in H; discriminate).
      destruct (fst (select_input_device_loop P rest _)).
      * destruct IH as [before [dev [after [Hd [Hb [Hu [Ha Hl]]]]]]].
        exists (device :: before), dev, after. simpl.
        repeat split; auto.
        -- now rewrite Hd.
        -- rewrite Hl, <- app_assoc. reflexivity.
      * destruct IH as [Hb [Ha Hl]]. repeat split; auto.
        rewrite Hl, <- app_assoc. reflexivity.
Qed.

End DeviceSelection.

(** X1.  [select_audio_device] always leaves a device name in
    [APLAY_DEVICE]: the first entry of [POSSIBLE_DEVICES] on which the test
    run of [aplay] returns code 0, the entries before it having failed and
    those after it not being tried; or ["default"] when the run fails on
    every entry, a raised exception counting as a failure.  [INPUT_DEVICE]
    is not touched. *)
Theorem select_audio_device_first_usable (P : Probes) (s : Startup) :
  INPUT_DEVICE (select_audio_device P s) = INPUT_DEVICE s /\
  ((exists before device after,
       POSSIBLE_DEVICES = before ++ device :: after /\
       Forall (fun d => aplay_silence P d <> Returned 0) before /\
       aplay_silence P device = Returned 0 /\
       APLAY_DEVICE (select_audio_device P s) = Some device /\
       startup_log (select_audio_device P s)
       = startup_log s ++ map output_probe (before ++ [device])
         ++ [SuPrint ("Selected output audio device: " ++ device)])
   \/
   (Forall (fun d => aplay_silence P d <> Returned 0) POSSIBLE_DEVICES /\
    APLAY_DEVICE (select_audio_device P s) = Some "default" /\
    startup_log (select_audio_device P s)
    = startup_log s ++ map output_probe POSSIBLE_DEVICES
      ++ [SuPrint "No valid output device found, falling back to 'default'"])).
Proof.
  unfold select_audio_device.
  pose proof (select_audio_device_loop_spec P POSSIBLE_DEVICES s) as [Hi H].
  destruct (select_audio_device_loop P POSSIBLE_DEVICES s) as [returned s1].
  simpl in *. destruct returned.
  - split; [exact Hi|]. left. exact H.
  - destruct H as [Hf [Ha Hl]]. simpl. split; [exact Hi|]. right.
    repeat split; auto. rewrite Hl, <- app_assoc. reflexivity.
Qed.

(** X2.  [select_input_device] leaves in [INPUT_DEVICE] the first entry of
    [POSSIBLE_INPUT_DEVICES] on which an input stream can be opened, the
    entries before it having failed and those after it not being tried; when
    none can be opened it leaves [None], the default input device.
    [APLAY_DEVICE] is not touched. *)
Theorem select_input_device_first_usable (P : Probes) (s : Startup) :
  APLAY_DEVICE (select_input_device P s) = APLAY_DEVICE s /\
  ((exists before device after,
       POSSIBLE_INPUT_DEVICES = before ++ device :: after /\
       Forall (fun d => input_stream_probe P d <> WithCompletes) before /\
       input_stream_probe P device = WithCompletes /\
       INPUT_DEVICE (select_input_device P s) = Some device /\
       startup_log (select_input_device P s)
       = startup_log s ++ map input_probe (before ++ [device])
         ++ [SuPrint ("Selected input audio device: " ++ device)])
   \/
   (Forall (fun d => input_stream_probe P d <> WithCompletes) POSSIBLE_INPUT_DEVICES /\
    INPUT_DEVICE (select_input_device P s) = None /\
    startup_log (select_input_device P s)
    = startup_log s ++ map input_probe POSSIBLE_INPUT_DEVICES
      ++ [SuPrint "No valid input device found; will use default input device"])).
Proof.
  unfold select_input_device.
  pose proof (select_input_device_loop_spec P POSSIBLE_INPUT_DEVICES s) as [Hi H].
  destruct (select_input_device_loop P POSSIBLE_INPUT_DEVICES s)
    as [returned s1].
  simpl in *. destruct returned.
  - split; [exact Hi|]. left. exact H.
  - destruct H as [Hf [Ha Hl]]. simpl. split; [exact Hi|]. right.
    repeat split; auto. rewrite Hl, <- app_assoc. reflexivity.
Qed.

(** * The model set a call of [load_models] leaves *)

Module ModelsLoaded.
Import Models.

(** The globals right after [unload_models] when no constructor value is
    pending: nothing is alive, the piper globals are as before. *)
Definition unloaded (m : t) : t :=
  {| vosk_model := None; translator := None; sp_source := None;
     sp_target := None; piper_voice := piper_voice m;
     piper_config := piper_config m; fresh := None; heap := [];
     next_id := next_id m; loads := S (loads m) |}.

(** The globals with one model set loaded: four objects, numbered from [n],
    all of set [g]. *)
Definition loaded (vosk ct src tgt voice config : string) (n g : nat) : t :=
  {| vosk_model := Some n; translator := Some (1 + n);
     sp_source := Some (2 + n); sp_target := Some (3 + n);
     piper_voice := Some voice; piper_config := Some config;
     fresh := None;
     heap := [ {| obj_id := n; obj_kind := Recognizer;
                  obj_path := Some vosk; obj_set := g |};
               {| obj_id := 1 + n; obj_kind := Translator;
                  obj_path := Some ct; obj_set := g |};
               {| obj_id := 2 + n; obj_kind := Tokenizer;
                  obj_path := Some src; obj_set := g |};
               {| obj_id := 3 + n; obj_kind := Tokenizer;
                  obj_path := Some tgt; obj_set := g |} ];
     next_id := 4 + n; loads := g |}.

Lemma eqb_1 n : (n =? S n)%nat = false.
Proof. apply Nat.eqb_neq. lia. Qed.
Lemma eqb_2 n : (n =? S (S n))%nat = false.
Proof. apply Nat.eqb_neq. lia. Qed.
Lemma eqb_3 n : (n =? S (S (S n)))%nat = false.
Proof. apply Nat.eqb_neq. lia. Qed.
Lemma eqb_1' n : (S n =? n)%nat = false.
Proof. apply Nat.eqb_neq. lia. Qed.
Lemma eqb_2' n : (S (S n) =? n)%nat = false.
Proof. apply Nat.eqb_neq. lia. Qed.
Lemma eqb_3' n : (S (S (S n)) =? n)%nat = false.
Proof. apply Nat.eqb_neq. lia. Qed.

Lemma run_step (s : stmt) (rest : list stmt) (m : t) :
  run (s :: rest) m
  = match s m with Some m' => run rest m' | None => None end.
Proof. reflexivity. Qed.

Lemma run_nil (m : t) : run [] m = Some m.
Proof. reflexivity. Qed.

(** Executes the next statement on globals that are given field by field. *)
Ltac crunch :=
  unfold enter_load, rebind, gc_collect, construct, store, sp_load, set_piper,
    get;
  cbn -[Nat.eqb];
  unfold drop_unreferenced, with_slot, with_heap, referenced, set_path;
  repeat progress
    (cbn -[Nat.eqb];
     rewrite ?Nat.eqb_refl, ?eqb_1, ?eqb_2, ?eqb_3, ?eqb_1', ?eqb_2', ?eqb_3',
       ?orb_true_r, ?orb_false_r).

Local Opaque run.

Lemma unload_result (m : t) :
  fresh m = None ->
  run (enter_load :: unload_models_body) m = Some (unloaded m).
Proof.
  destruct m as [a b c d pv pc f h n l]. simpl. intros ->.
  unfold unloaded, unload_models_body.
  do 6 (rewrite run_step; crunch).
  rewrite run_nil. do 2 f_equal.
  rewrite ModelsFacts.filter_none; reflexivity.
Qed.

Lemma unload_models_result (m : t) :
  fresh m = None ->
  exists m0,
    unload_models m = Some m0 /\
    (forall s, get s m0 = None) /\ heap m0 = [] /\
    piper_voice m0 = piper_voice m /\ piper_config m0 = piper_config m.
Proof.
  destruct m as [a b c d pv pc f h n l]. simpl. intros ->.
  unfold unload_models, unload_models_body.
  do 5 (rewrite run_step; crunch).
  rewrite run_nil. eexists. split; [reflexivity|]. cbn.
  split; [intros s; now destruct s|].
  split; [rewrite ModelsFacts.filter_none; reflexivity|]. auto.
Qed.

Lemma construct_result vosk ct src tgt voice config pv pc (n g : nat) :
  run (construct_body vosk ct src tgt voice config)
      {| vosk_model := None; translator := None; sp_source := None;
         sp_target := None; piper_voice := pv; piper_config := pc;
         fresh := None; heap := []; next_id := n; loads := g |}
  = Some (loaded vosk ct src tgt voice config n g).
Proof.
  unfold construct_body, loaded.
  do 11 (rewrite run_step; crunch).
  rewrite run_nil. reflexivity.
Qed.

Transparent run.

Lemma pyval_eqb_eq (a b : pyval) : pyval_eqb a b = true <-> a = b.
Proof.
  destruct a as [x|], b as [y|]; simpl; split; intros H;
    try discriminate; try reflexivity.
  - apply String.eqb_eq in H. now subst.
  - injection H as ->. apply String.eqb_refl.
Qed.

Lemma load_models_en_to_es (m : t) :
  fresh m = None ->
  load_models en_to_es m
  = Some (loaded VOSK_EN CT_EN_ES SP_EN_ES_SRC SP_EN_ES_TGT
                 PIPER_ES PIPER_CONFIG_ES (next_id m) (S (loads m))).
Proof.
  intros Hf. unfold load_models.
  rewrite ModelsFacts.load_models_body_split, ModelsFacts.run_app.
  rewrite (unload_result m Hf).
  change (construct_part en_to_es)
    with (construct_body VOSK_EN CT_EN_ES SP_EN_ES_SRC SP_EN_ES_TGT
                         PIPER_ES PIPER_CONFIG_ES).
  apply construct_result.
Qed.

Lemma load_models_es_to_en (m : t) :
  fresh m = None ->
  load_models es_to_en m
  = Some (loaded VOSK_ES CT_ES_EN SP_ES_EN_SRC SP_ES_EN_TGT
                 PIPER_EN PIPER_CONFIG_EN (next_id m) (S (loads m))).
Proof.
  intros Hf. unfold load_models.
  rewrite ModelsFacts.load_models_body_split, ModelsFacts.run_app.
  rewrite (unload_result m Hf).
  change (construct_part es_to_en)
    with (construct_body VOSK_ES CT_ES_EN SP_ES_EN_SRC SP_ES_EN_TGT
                         PIPER_EN PIPER_CONFIG_EN).
  apply construct_result.
Qed.

Lemma load_models_other (d : pyval) (m : t) :
  fresh m = None -> d <> en_to_es -> d <> es_to_en ->
  load_models d m = Some (unloaded m).
Proof.
  intros Hf Hen Hes. unfold load_models.
  rewrite ModelsFacts.load_models_body_split, ModelsFacts.run_app.
  rewrite (unload_result m Hf). unfold construct_part.
  destruct (pyval_eqb d en_to_es) eqn:E1;
    [apply pyval_eqb_eq in E1; contradiction|].
  destruct (pyval_eqb d es_to_en) eqn:E2;
    [apply pyval_eqb_eq in E2; contradiction|].
  reflexivity.
Qed.

Lemma path_of_loaded vosk ct src tgt voice config (n g : nat) (m : t) :
  m = loaded vosk ct src tgt voice config n g ->
  path_of (vosk_model m) m = Some vosk /\
  path_of (translator m) m = Some ct /\
  path_of (sp_source m) m = Some src /\
  path_of (sp_target m) m = Some tgt.
Proof.
  intros ->. unfold path_of, loaded.
  repeat progress
    (cbn -[Nat.eqb];
     rewrite ?Nat.eqb_refl, ?eqb_1, ?eqb_2, ?eqb_3, ?eqb_1', ?eqb_2', ?eqb_3').
  auto.
Qed.

End ModelsLoaded.

(** X3.  Whatever was loaded before, a call of [load_models] with one of
    the two directions that returns, none of its constructors having
    raised, leaves exactly the four objects of that direction, bound to the
    four globals: the recognizer of the source language, the translator of
    the pair, its two tokenizers with their files loaded, and in the piper
    globals the voice of the target language. *)
Theorem load_models_leaves_the_set (m m' : Models.t) :
  Models.fresh m = None ->
  (Models.load_models en_to_es m = Some m' ->
   m' = ModelsLoaded.loaded VOSK_EN CT_EN_ES SP_EN_ES_SRC SP_EN_ES_TGT
          PIPER_ES PIPER_CONFIG_ES (Models.next_id m) (S (Models.loads m)) /\
   Models.path_of (Models.vosk_model m') m' = Some VOSK_EN /\
   Models.path_of (Models.translator m') m' = Some CT_EN_ES /\
   Models.path_of (Models.sp_source m') m' = Some SP_EN_ES_SRC /\
   Models.path_of (Models.sp_target m') m' = Some SP_EN_ES_TGT /\
   Models.piper_voice m' = Some PIPER_ES /\
   Models.piper_config m' = Some PIPER_CONFIG_ES /\
   List.length (Models.heap m') = 4) /\
  (Models.load_models es_to_en m = Some m' ->
   m' = ModelsLoaded.loaded VOSK_ES CT_ES_EN SP_ES_EN_SRC SP_ES_EN_TGT
          PIPER_EN PIPER_CONFIG_EN (Models.next_id m) (S (Models.loads m)) /\
   Models.path_of (Models.vosk_model m') m' = Some VOSK_ES /\
   Models.path_of (Models.translator m') m' = Some CT_ES_EN /\
   Models.path_of (Models.sp_source m') m' = Some SP_ES_EN_SRC /\
   Models.path_of (Models.sp_target m') m' = Some SP_ES_EN_TGT /\
   Models.piper_voice m' = Some PIPER_EN /\
   Models.piper_config m' = Some PIPER_CONFIG_EN /\
   List.length (Models.heap m') = 4).
Proof.
  intros Hf. split; intros E.
  - rewrite (ModelsLoaded.load_models_en_to_es m Hf) in E.
    injection E as <-. split; [reflexivity|].
    destruct (ModelsLoaded.path_of_loaded
                VOSK_EN CT_EN_ES SP_EN_ES_SRC SP_EN_ES_TGT PIPER_ES
                PIPER_CONFIG_ES (Models.next_id m) (S (Models.loads m)) _
                eq_refl) as [H1 [H2 [H3 H4]]].
    rewrite H1, H2, H3, H4. repeat split.
  - rewrite (ModelsLoaded.load_models_es_to_en m Hf) in E.
    injection E as <-. split; [reflexivity|].
    destruct (ModelsLoaded.path_of_loaded
                VOSK_ES CT_ES_EN SP_ES_EN_SRC SP_ES_EN_TGT PIPER_EN
                PIPER_CONFIG_EN (Models.next_id m) (S (Models.loads m)) _
                eq_refl) as [H1 [H2 [H3 H4]]].
    rewrite H1, H2, H3, H4. repeat split.
Qed.

(** The globals after a switch from English-to-Spanish to
    Spanish-to-English. *)
Definition loaded_es_to_en : Models.t :=
  Eval vm_compute in
    match Models.load_models es_to_en loaded_en_to_es with
    | Some m => m
    | None => Models.init
    end.

Lemma load_models_leaves_the_set_witness :
  Models.fresh loaded_en_to_es = None /\
  Models.load_models es_to_en loaded_en_to_es = Some loaded_es_to_en /\
  Models.path_of (Models.vosk_model loaded_es_to_en) loaded_es_to_en
  = Some VOSK_ES /\
  Models.piper_voice loaded_es_to_en = Some PIPER_EN /\
  List.length (Models.heap loaded_es_to_en) = 4.
Proof.
  assert (E : Models.load_models es_to_en loaded_en_to_es
              = Some loaded_es_to_en) by (vm_compute; reflexivity).
  split; [reflexivity|]. split; [exact E|].
  destruct (load_models_leaves_the_set loaded_en_to_es loaded_es_to_en
              eq_refl) as [_ H].
  destruct (H E) as [_ [Hv [_ [_ [_ [Hp [_ Hn]]]]]]].
  repeat split; assumption.
Defined.

(** X4.  [unload_models] rebinds the four object globals to [None], after
    which no model object is alive; it leaves [piper_voice] and
    [piper_config] as they are.  So does [load_models] when its argument is
    neither ["en_to_es"] nor ["es_to_en"]: it unloads and loads nothing. *)
Theorem load_models_unknown_direction_unloads (d : pyval) (m : Models.t) :
  Models.fresh m = None ->
  d <> en_to_es -> d <> es_to_en ->
  (exists m0,
      Models.unload_models m = Some m0 /\
      (forall s, Models.get s m0 = None) /\ Models.heap m0 = [] /\
      Models.piper_voice m0 = Models.piper_voice m /\
      Models.piper_config m0 = Models.piper_config m) /\
  (exists m',
      Models.load_models d m = Some m' /\
      (forall s, Models.get s m' = None) /\ Models.heap m' = [] /\
      Models.piper_voice m' = Models.piper_voice m /\
      Models.piper_config m' = Models.piper_config m).
Proof.
  intros Hf Hen Hes. split.
  - destruct (ModelsLoaded.unload_models_result m Hf) as [m0 [E H]].
    exists m0. split; [exact E | exact H].
  - exists (ModelsLoaded.unloaded m).
    split; [now apply ModelsLoaded.load_models_other|].
    repeat split. intros s. now destruct s.
Qed.

Lemma load_models_unknown_direction_unloads_witness :
  exists m',
    Models.load_models (Some "exit") loaded_en_to_es = Some m' /\
    Models.heap m' = [] /\ Models.piper_voice m' = Some PIPER_ES.
Proof.
  destruct (load_models_unknown_direction_unloads (Some "exit")
              loaded_en_to_es eq_refl)
    as [_ [m' [E [_ [Hh [Hv _]]]]]]; [discriminate | discriminate |].
  exists m'. repeat split; assumption.
Defined.

(** * Invariants of the main program *)

Definition valid_direction (d : pyval) : Prop := d = en_to_es \/ d = es_to_en.

(** The state in which a run ended, by a return or by an exception. *)
Definition ends_in {A} (o : outcome A) (st' : State) : Prop :=
  match o with
  | Ret _ s => s = st'
  | Raise _ s => s = st'
  | OutOfFuel => False
  end.

(** [maintains I m]: from a state where [I] holds, [m] ends in a state where
    [I] holds, however it ends. *)
Definition maintains {A} (I : State -> Prop) (m : M A) : Prop :=
  keeps (fun st st' => I st -> I st') m.

(** [returns Q m]: every value [m] returns satisfies [Q]. *)
Definition returns {A} (Q : A -> Prop) (m : M A) : Prop :=
  forall st a st', m st = Ret a st' -> Q a.

Lemma maintains_ends {A} (I : State -> Prop) (m : M A) (st st' : State) :
  maintains I m -> I st -> ends_in (m st) st' -> I st'.
Proof.
  intros Hm HI He. specialize (Hm st).
  destruct (m st) as [a s|e s|]; simpl in He; subst; auto. destruct He.
Qed.

Lemma maintains_ext {A} (I : State -> Prop) (m m' : M A) :
  (forall st, m st = m' st) -> maintains I m -> maintains I m'.
Proof. intros He Hm st. rewrite <- He. apply Hm. Qed.

(** What the value of one of the two wait functions can be. *)
Definition wait_value (v : pyval) : Prop :=
  v = None \/ v = Some "exit" \/ valid_direction v.

Section Returns.

Variable W : World.

Lemma returns_ret {A} (Q : A -> Prop) (a : A) : Q a -> returns Q (ret a).
Proof. intros H st b st' E. injection E as <- _. exact H. Qed.

Lemma returns_bind {A B} (Q : B -> Prop) (m : M A) (k : A -> M B) :
  (forall a, returns Q (k a)) -> returns Q (bind m k).
Proof.
  intros Hk st b st' E. unfold bind in E.
  destruct (m st) as [a s|e s|]; try discriminate. now apply (Hk a s b st').
Qed.

Lemma returns_out_of_fuel {A} (Q : A -> Prop) :
  returns Q (fun _ : State => @OutOfFuel A).
Proof. intros st a st' E. discriminate. Qed.

Lemma returns_get_translation_direction :
  returns valid_direction (get_translation_direction W).
Proof.
  intros st d st' E. rewrite get_translation_direction_spec in E.
  injection E as <- _. unfold valid_direction.
  destruct (direction_switch_at W (S (clock st))); auto.
Qed.

Lemma returns_wait_for_button_or_switch_change fuel last :
  returns wait_value (wait_for_button_or_switch_change W fuel last).
Proof.
  induction fuel as [|fuel IH]; simpl; [apply returns_out_of_fuel|].
  apply returns_bind. intros e.
  destruct e; [apply returns_ret; unfold wait_value; auto|].
  apply returns_bind. intros b.
  destruct b; [apply returns_ret; unfold wait_value; auto|].
  intros st v st' E. unfold bind in E.
  destruct (get_translation_direction W st) as [nd s| |] eqn:Eg;
    try discriminate.
  apply returns_get_translation_direction in Eg.
  destruct (negb (pyval_eqb nd last)).
  - injection E as <- _. unfold wait_value. auto.
  - revert E. apply (returns_bind wait_value (sleep W 10)). intros _. exact IH.
Qed.

Lemma returns_wait_for_button_release_or_switch_change fuel last :
  returns wait_value (wait_for_button_release_or_switch_change W fuel last).
Proof.
  induction fuel as [|fuel IH]; simpl; [apply returns_out_of_fuel|].
  apply returns_bind. intros b. apply returns_bind. intros e.
  destruct (b && negb e).
  - intros st v st' E. unfold bind in E.
    destruct (get_translation_direction W st) as [nd s| |] eqn:Eg;
      try discriminate.
    apply returns_get_translation_direction in Eg.
    destruct (negb (pyval_eqb nd last)).
    + injection E as <- _. unfold wait_value. auto.
    + revert E. apply (returns_bind wait_value (sleep W 10)).
      intros _. exact IH.
  - apply returns_bind. intros e'.
    destruct e'; apply returns_ret; unfold wait_value; auto.
Qed.

Lemma returns_try_finally {A} (Q : A -> Prop) (body : M A) (fin : M unit) :
  returns Q body -> returns Q (try_finally body fin).
Proof.
  intros Hb st a st' E. unfold try_finally in E.
  destruct (body st) as [b s|e s|] eqn:Eb; try discriminate.
  - destruct (fin s) as [u s2|e s2|]; try discriminate.
    injection E as <- _. now apply (Hb st b s).
  - destruct (fin s) as [u s2|e2 s2|]; discriminate.
Qed.

Lemma returns_capture fuel : returns wait_value (capture W fuel).
Proof.
  unfold capture. apply returns_bind. intros cd.
  apply returns_try_finally,
    returns_wait_for_button_release_or_switch_change.
Qed.

End Returns.

(** The events that say nothing about the models and do not end the
    program. *)
Definition quiet_event (e : event) : Prop :=
  match e with
  | EvLoadModels _ | EvRecognize _ _ | EvTranslate _ _ | EvSpeak _ _ _
  | EvShutdown => False
  | _ => True
  end.

(** What a property of the state needs in order to hold throughout the main
    loop: the other threads and the quiet steps of the main thread leave it
    alone, and each of the steps that matter re-establishes it. *)
Record upkeep (W : World) (I : State -> Prop) : Prop := {
  up_tick : forall st, I st -> I (tick W st);
  up_event :
    forall e st, quiet_event e -> I st -> I (log_event MainThread e st);
  up_red_led : forall v st, I st -> I (set_red_led v st);
  up_green_off : forall st, I st -> I (set_green_led false st);
  up_q : forall v st, I st -> I (set_q v st);
  up_switch :
    forall d, valid_direction d -> maintains I (switch_direction W d);
  up_transcribe : forall audio, maintains I (transcribe W audio);
  up_translate : forall text, maintains I (translate W text);
  up_speak : forall text, maintains I (speak W text);
  up_record :
    forall fuel, maintains I (start_capture W ;; capture W fuel)
}.

Section Upkeep.

Variable W : World.
Variable I : State -> Prop.
Hypothesis HI : upkeep W I.

Let R (st st' : State) : Prop := I st -> I st'.

Lemma m_ret {A} (a : A) : maintains I (ret a).
Proof. apply keeps_ret. intros st H. exact H. Qed.

Lemma m_raise {A} (e : exn) : maintains I (@raise A e).
Proof. apply keeps_raise. intros st H. exact H. Qed.

Lemma m_gets {A} (f : State -> A) : maintains I (gets f).
Proof. apply keeps_gets. intros st H. exact H. Qed.

Lemma m_bind {A B} (m : M A) (k : A -> M B) :
  maintains I m -> (forall a, maintains I (k a)) -> maintains I (bind m k).
Proof. apply keeps_bind. intros a b c Hab Hbc H. auto. Qed.

Lemma m_and_then {A B} (m : M (flow A)) (k : A -> M (flow B)) :
  maintains I m -> (forall a, maintains I (k a)) ->
  maintains I (and_then m k).
Proof.
  apply keeps_and_then; [intros st H; exact H|].
  intros a b c Hab Hbc H. auto.
Qed.

Lemma m_try_finally {A} (body : M A) (fin : M unit) :
  maintains I body -> maintains I fin -> maintains I (try_finally body fin).
Proof. apply keeps_try_finally. intros a b c Hab Hbc H. auto. Qed.

Lemma m_modify (f : State -> State) :
  (forall st, I st -> I (f st)) -> maintains I (modify f).
Proof. intros H. apply keeps_modify. exact H. Qed.

(** The continuation is needed only for the values the first part can
    return. *)
Lemma m_bind_returns {A B} (Q : A -> Prop) (m : M A) (k : A -> M B) :
  maintains I m -> returns Q m ->
  (forall a, Q a -> maintains I (k a)) -> maintains I (bind m k).
Proof.
  intros Hm Hq Hk st. unfold bind. specialize (Hm st).
  destruct (m st) as [a s|e s|] eqn:E; auto.
  specialize (Hk a (Hq st a s E) s). destruct (k a s); auto.
Qed.

Lemma m_out_of_fuel {A} : maintains I (fun _ : State => @OutOfFuel A).
Proof. apply keeps_out_of_fuel. Qed.

Lemma m_emit e : quiet_event e -> maintains I (emit e).
Proof. intros He. apply m_modify. intros st. now apply (up_event W I HI). Qed.

Lemma m_pass_time : maintains I (pass_time W).
Proof. apply m_modify, (up_tick W I HI). Qed.

Lemma m_print msg : maintains I (print msg).
Proof. now apply m_emit. Qed.

Lemma m_red_led_on : maintains I red_led_on.
Proof.
  apply m_bind; [apply m_modify, (up_red_led W I HI)|].
  intros _. now apply m_emit.
Qed.

Lemma m_red_led_off : maintains I red_led_off.
Proof.
  apply m_bind; [apply m_modify, (up_red_led W I HI)|].
  intros _. now apply m_emit.
Qed.

Lemma m_green_led_off : maintains I green_led_off.
Proof.
  apply m_bind; [apply m_modify, (up_green_off W I HI)|].
  intros _. now apply m_emit.
Qed.

Lemma upkeep_polling : polling W R.
Proof.
  constructor; unfold R; intros; auto.
  - now apply (up_tick W I HI).
  - now apply (up_event W I HI).
  - now apply (up_event W I HI).
  - now apply (up_event W I HI).
  - now apply (up_event W I HI).
Qed.

Lemma m_read_exit_requested : maintains I read_exit_requested.
Proof. apply polling_read_exit_requested with (W := W), upkeep_polling. Qed.

Lemma m_record_button_is_active : maintains I (record_button_is_active W).
Proof. apply polling_record_button_is_active, upkeep_polling. Qed.

Lemma m_get_translation_direction :
  maintains I (get_translation_direction W).
Proof. apply polling_get_translation_direction, upkeep_polling. Qed.

Lemma m_sleep ms : maintains I (sleep W ms).
Proof. apply polling_sleep_call, upkeep_polling. Qed.

Lemma m_wait_for_button_or_switch_change fuel last :
  maintains I (wait_for_button_or_switch_change W fuel last).
Proof. apply polling_wait_for_button_or_switch_change, upkeep_polling. Qed.

Lemma m_play_audio_file f : maintains I (play_audio_file W f).
Proof.
  unfold play_audio_file. apply m_bind; [apply m_pass_time|]. intros _.
  apply m_modify. intros st H. unfold play_audio_file_as.
  destruct (file_exists W f); now apply (up_event W I HI).
Qed.

Lemma m_play_no_audio d : maintains I (play_no_audio W d).
Proof.
  unfold play_no_audio. destruct (pyval_eqb d en_to_es); apply m_play_audio_file.
Qed.

Lemma m_restore_punctuation_call t :
  maintains I (restore_punctuation_call W t).
Proof.
  unfold restore_punctuation_call.
  apply m_bind; [apply m_pass_time|]. intros _.
  apply m_bind; [now apply m_emit|]. intros _. apply m_ret.
Qed.

Lemma m_drain frames : maintains I (drain frames).
Proof.
  unfold drain. apply m_bind; [apply m_gets|]. intros queue.
  apply m_bind; [apply m_modify, (up_q W I HI)|]. intros _. apply m_ret.
Qed.

(** Lines 252-258 and 293-299, for the values a wait can return. *)
Lemma m_after_idle_wait dc :
  wait_value dc -> maintains I (after_idle_wait W dc).
Proof.
  intros Hv. unfold after_idle_wait.
  apply m_bind; [apply m_read_exit_requested|]. intros e.
  destruct (e || pyval_eqb dc (Some "exit")) eqn:Eb; [apply m_ret|].
  destruct (truthy dc) eqn:Et; [|apply m_ret].
  apply m_bind; [|intros _; apply m_ret].
  apply (up_switch W I HI).
  apply orb_false_iff in Eb. destruct Eb as [_ Ex].
  destruct Hv as [-> | [-> | Hd]]; [discriminate | discriminate | exact Hd].
Qed.

Lemma m_idle_wait fuel last :
  maintains I (dc <- wait_for_button_or_switch_change W fuel last ;;
               after_idle_wait W dc).
Proof.
  apply m_bind_returns with (Q := wait_value).
  - apply m_wait_for_button_or_switch_change.
  - apply returns_wait_for_button_or_switch_change.
  - apply m_after_idle_wait.
Qed.

Lemma m_idle_phase fuel : maintains I (idle_phase W fuel).
Proof.
  unfold idle_phase.
  apply m_bind; [apply m_red_led_off|]. intros _.
  apply m_bind; [apply m_green_led_off|]. intros _.
  apply m_bind; [apply m_gets|]. intros cd.
  apply m_bind; [apply m_print|]. intros _.
  apply m_bind; [apply m_print|]. intros _.
  apply m_idle_wait.
Qed.

Lemma m_recording_phase fuel : maintains I (recording_phase W fuel).
Proof.
  apply maintains_ext
    with (m := dc <- (start_capture W ;; capture W fuel) ;;
               after_capture W dc).
  { intros st. unfold recording_phase. now rewrite bind_assoc. }
  apply m_bind_returns with (Q := wait_value).
  - apply (up_record W I HI).
  - apply returns_bind. intros _. apply returns_capture.
  - apply m_after_idle_wait.
Qed.

Lemma m_after_transcription text : maintains I (after_transcription W text).
Proof.
  unfold after_transcription. destruct text; try apply m_raise.
  destruct (String.eqb _ _).
  - apply m_bind; [apply m_print|]. intros _.
    apply m_bind; [apply m_gets|]. intros cd.
    apply m_bind; [apply m_play_no_audio|]. intros _. apply m_ret.
  - apply m_bind; [apply m_print|]. intros _.
    apply m_bind; [apply m_restore_punctuation_call|]. intros p.
    apply m_bind; [apply m_print|]. intros _.
    apply m_bind; [apply m_print|]. intros _.
    apply m_bind; [apply m_red_led_on|]. intros _.
    apply m_bind; [apply (up_translate W I HI)|]. intros t.
    apply m_bind; [apply m_red_led_off|]. intros _. apply m_ret.
Qed.

Lemma m_processing_phase : maintains I (processing_phase W).
Proof.
  unfold processing_phase.
  apply m_bind; [apply m_drain|]. intros frames.
  destruct (aggregate frames) as [audio|]; [|apply m_raise].
  destruct (Nat.eqb _ _).
  - apply m_bind; [apply m_print|]. intros _.
    apply m_bind; [apply m_gets|]. intros cd.
    apply m_bind; [apply m_play_no_audio|]. intros _. apply m_ret.
  - apply m_bind; [apply m_print|]. intros _.
    apply m_bind; [apply m_red_led_on|]. intros _.
    apply m_bind; [apply (up_transcribe W I HI)|]. intros t.
    apply m_bind; [apply m_red_led_off|]. intros _.
    apply m_bind; [apply m_print|]. intros _.
    apply m_after_transcription.
Qed.

Lemma m_playback_wait fuel : maintains I (playback_wait W fuel).
Proof.
  induction fuel as [|fuel IH]; simpl; [apply m_out_of_fuel|].
  apply m_bind; [apply m_read_exit_requested|].
  intros e. destruct e; [apply m_ret|].
  apply m_bind; [apply m_record_button_is_active|].
  intros b. destruct b; [apply m_ret|].
  apply m_bind_returns with (Q := valid_direction).
  - apply m_get_translation_direction.
  - apply returns_get_translation_direction.
  - intros nd Hnd. apply m_bind; [apply m_gets|]. intros cd.
    destruct (negb _).
    + apply m_bind; [apply m_green_led_off|]. intros _.
      apply m_bind; [now apply (up_switch W I HI)|]. intros _. apply m_ret.
    + apply m_bind; [apply m_sleep | intros _; exact IH].
Qed.

(** The rest of the loop body is maintained when the property also
    tolerates the translation-ready indicator being switched on. *)
Hypothesis I_green_on : forall st, I st -> I (set_green_led true st).

Lemma m_green_led_on : maintains I green_led_on.
Proof.
  apply m_bind; [apply m_modify, I_green_on|].
  intros _. now apply m_emit.
Qed.

Lemma m_after_playback_wait play translation :
  maintains I (after_playback_wait W play translation).
Proof.
  unfold after_playback_wait.
  apply m_bind; [apply m_green_led_off|]. intros _.
  apply m_bind; [apply m_read_exit_requested|].
  intros e. destruct e; [apply m_ret|].
  destruct (negb play); [apply m_ret|].
  apply m_bind; [apply m_print|]. intros _.
  apply m_bind; [apply (up_speak W I HI)|]. intros _. apply m_ret.
Qed.

Lemma m_playback_phase fuel translation :
  maintains I (playback_phase W fuel translation).
Proof.
  unfold playback_phase.
  apply m_bind; [apply m_green_led_on|]. intros _.
  apply m_bind; [apply m_print|]. intros _.
  apply m_bind; [apply m_playback_wait|]. intros p.
  apply m_after_playback_wait.
Qed.

Lemma m_main_iteration fuel : maintains I (main_iteration W fuel).
Proof.
  unfold main_iteration.
  apply m_and_then; [apply m_idle_phase|]. intros _.
  apply m_and_then; [apply m_recording_phase|]. intros _.
  apply m_and_then; [apply m_processing_phase|]. intros translation.
  apply m_playback_phase.
Qed.

Lemma m_main_loop rounds fuel : maintains I (main_loop W rounds fuel).
Proof.
  induction rounds as [|rounds IH]; simpl; [apply m_out_of_fuel|].
  apply m_bind; [apply m_read_exit_requested|].
  intros e. destruct e; [apply m_ret|].
  apply m_bind; [apply m_main_iteration|].
  intros r. destruct r; [exact IH | exact IH | apply m_ret].
Qed.

(** The [finally] block of the program, for a property that the shutdown
    command leaves alone. *)
Lemma m_shutdown :
  (forall st, I st -> I (log_event MainThread EvShutdown st)) ->
  maintains I (shutdown W).
Proof.
  intros Hs. unfold shutdown.
  apply m_bind; [apply m_print|]. intros _.
  apply m_bind; [apply m_red_led_off|]. intros _.
  apply m_bind; [apply m_green_led_off|]. intros _.
  apply m_bind; [apply m_print|]. intros _.
  apply m_bind; [apply m_pass_time|]. intros _.
  apply m_modify, Hs.
Qed.

End Upkeep.

Transparent switch_direction.

(** Lines 242-353: everything inside the [try]. *)
Definition main_body (W : World) (rounds fuel : nat) : M unit :=
  d <- get_translation_direction W ;;
  switch_direction W d ;; main_loop W rounds fuel.

Lemma u_main_body (W : World) (rounds fuel : nat) :
  uninterrupted (main_body W rounds fuel).
Proof.
  unfold main_body.
  apply u_bind; [apply u_get_translation_direction|]. intros d.
  apply u_bind; [apply u_switch_direction|]. intros _.
  apply u_main_loop.
Qed.

(** The program reads the switch, switches to the direction read, runs the
    main loop and shuts down; the [except] clause never takes over. *)
Lemma main_unfold (W : World) (rounds fuel : nat) (st : State) :
  main W rounds fuel st
  = try_finally
      (d <- get_translation_direction W ;;
       switch_direction W d ;; main_loop W rounds fuel)
      (shutdown W) st.
Proof.
  fold (main_body W rounds fuel).
  assert (E : forall s,
             (d <- get_translation_direction W ;;
              modify (set_current_direction d) ;;
              load_models W d ;;
              play_mode_announcement W d ;; main_loop W rounds fuel) s
             = main_body W rounds fuel s).
  { intros s. unfold main_body. apply bind_ext. intros d st1.
    unfold switch_direction.
    symmetry. rewrite bind_assoc. apply bind_ext. intros u st2.
    now rewrite bind_assoc. }
  unfold main, try_finally, try_except. rewrite E.
  pose proof (u_main_body W rounds fuel st) as Hu.
  destruct (main_body W rounds fuel st) as [u s|e s|]; try reflexivity.
  destruct e; try reflexivity. now destruct (Hu s).
Qed.

Opaque switch_direction.

(** The [finally] block raises nothing, so the program ends where it
    ends. *)
Lemma main_ends (W : World) (rounds fuel : nat) (st st' : State) :
  ends_in (main W rounds fuel st) st' ->
  exists s, ends_in (main_body W rounds fuel st) s /\
            shutdown W s = Ret tt st'.
Proof.
  rewrite main_unfold. fold (main_body W rounds fuel).
  unfold try_finally.
  destruct (main_body W rounds fuel st) as [u s|e s|]; [| |intros []];
    intros H; exists s; (split; [reflexivity|]);
    assert (Hs : exists s2, shutdown W s = Ret tt s2)
      by (eexists; reflexivity);
    destruct Hs as [s2 Hs]; rewrite Hs in *; simpl in H; now subst.
Qed.

(** A property that start-up establishes and the main loop maintains holds
    when the [finally] block is entered. *)
Lemma main_body_establishes (W : World) (I0 I : State -> Prop) :
  upkeep W I ->
  (forall st, I st -> I (set_green_led true st)) ->
  (forall st, I0 st -> I0 (tick W st)) ->
  (forall b st, I0 st -> I0 (log_event MainThread (EvReadSwitch b) st)) ->
  (forall d st st', valid_direction d -> I0 st ->
     switch_direction W d st = Ret tt st' -> I st') ->
  forall rounds fuel st s,
    I0 st -> ends_in (main_body W rounds fuel st) s -> I s.
Proof.
  intros HI Hgreen Htick Hread Hswitch rounds fuel st s H0.
  unfold main_body. unfold bind at 1. rewrite get_translation_direction_spec.
  set (d := if direction_switch_at W (S (clock st))
            then es_to_en else en_to_es).
  set (st1 := log_event MainThread _ (tick W st)).
  assert (Hd : valid_direction d)
    by (unfold d, valid_direction; destruct (direction_switch_at W _); auto).
  assert (H1 : I0 st1) by (apply Hread, Htick, H0).
  destruct (switch_direction_spec W d st1) as [st2 [m' [E _]]].
  unfold bind. rewrite E.
  specialize (Hswitch d st1 st2 Hd H1 E).
  apply (maintains_ends I (main_loop W rounds fuel) st2 s); [|exact Hswitch].
  apply m_main_loop; [exact HI | exact Hgreen].
Qed.

(** A property that, besides, the shutdown command leaves alone holds when
    the program ends. *)
Lemma main_establishes (W : World) (I0 I : State -> Prop) :
  upkeep W I ->
  (forall st, I st -> I (set_green_led true st)) ->
  (forall st, I0 st -> I0 (tick W st)) ->
  (forall b st, I0 st -> I0 (log_event MainThread (EvReadSwitch b) st)) ->
  (forall d st st', valid_direction d -> I0 st ->
     switch_direction W d st = Ret tt st' -> I st') ->
  (forall st, I st -> I (log_event MainThread EvShutdown st)) ->
  forall rounds fuel st st',
    I0 st -> ends_in (main W rounds fuel st) st' -> I st'.
Proof.
  intros HI Hgreen Htick Hread Hswitch Hshut rounds fuel st st' H0 He.
  destruct (main_ends W rounds fuel st st' He) as [s [Hb Hs]].
  pose proof (main_body_establishes W I0 I HI Hgreen Htick Hread Hswitch
                rounds fuel st s H0 Hb) as Hbody.
  apply (maintains_ends I (shutdown W) s st'); [|exact Hbody|].
  - apply (m_shutdown W I HI Hshut).
  - rewrite Hs. reflexivity.
Qed.

(** ** A final result of the recognizer that is not an object *)

Section Unrecovered.

Variable W : World.

(** [transcribe] on a final result that is not JSON, or not an object. *)
Lemma transcribe_raises (audio : list Z) st :
  Models.vosk_model (models st) <> None ->
  let model := Models.path_of (Models.vosk_model (models st)) (models st) in
  let called := log_event MainThread (EvRecognize model audio) (tick W st) in
  (final_result W model audio = NotJson ->
   transcribe W audio st = Raise JSONDecodeError called) /\
  (forall j,
      final_result W model audio = Parsed j -> is_object j = false ->
      transcribe W audio st = Raise (AttributeError "get") called).
Proof.
  intros Hm model called. unfold called, model.
  unfold transcribe, pass_time, emit, bind, modify, gets.
  settle. destruct (Models.vosk_model (models st)) as [i|] eqn:E;
    [|congruence].
  settle. split.
  - intros ->. reflexivity.
  - intros j -> Hj. destruct j; try discriminate; reflexivity.
Qed.

(** The state in which [processing_phase] calls [transcribe] (line 311). *)
Definition at_transcribe (st : State) : State :=
  log_event MainThread (EvLed Red On)
    (set_red_led true
       (log_event MainThread (EvPrint "Transcribing...") (set_q [] st))).

(** No statement between the call of [transcribe] and the end of the program
    is inside a [try] with a handler for it: what [transcribe] raises leaves
    [processing_phase], the iteration and the main loop as it is. *)
Lemma processing_phase_passes_on (st : State) (e : exn) (s : State) :
  List.concat (q st) <> [] ->
  transcribe W (List.concat (q st)) (at_transcribe st) = Raise e s ->
  processing_phase W st = Raise e s.
Proof.
  intros Hne Ht.
  unfold processing_phase, drain, bind, gets, modify, ret.
  rewrite drain_loop_spec. simpl. rewrite aggregate_concat.
  destruct (Nat.eqb (List.length (List.concat (q st))) 0) eqn:El;
    [apply length_zero_iff in El; congruence|].
  unfold print, red_led_on, emit, bind, modify. simpl.
  unfold at_transcribe in Ht. simpl in Ht. now rewrite Ht.
Qed.

Lemma main_iteration_passes_on (fuel : nat) (st s1 s2 : State)
  (e : exn) (s : State) :
  idle_phase W fuel st = Ret (Proceed tt) s1 ->
  recording_phase W fuel s1 = Ret (Proceed tt) s2 ->
  processing_phase W s2 = Raise e s ->
  main_iteration W fuel st = Raise e s.
Proof.
  intros Hi Hr Hp. unfold main_iteration, and_then, bind.
  now rewrite Hi, Hr, Hp.
Qed.

Lemma main_loop_passes_on (rounds fuel : nat) (st : State)
  (e : exn) (s : State) :
  exit_requested st = false ->
  main_iteration W fuel (log_event MainThread (EvReadExit false) st)
  = Raise e s ->
  main_loop W (S rounds) fuel st = Raise e s.
Proof.
  intros He Hi. simpl. unfold bind at 1.
  rewrite read_exit_requested_spec, He. unfold bind. now rewrite Hi.
Qed.

(** The [finally] block runs, and the exception is raised again. *)
Lemma main_passes_on (rounds fuel : nat) (st : State) (e : exn) (s : State) :
  main_body W rounds fuel st = Raise e s ->
  exists s', shutdown W s = Ret tt s' /\ main W rounds fuel st = Raise e s'.
Proof.
  intros Hb. rewrite main_unfold. fold (main_body W rounds fuel).
  unfold try_finally. rewrite Hb.
  assert (Hs : exists s', shutdown W s = Ret tt s') by (eexists; reflexivity).
  destruct Hs as [s' Hs]. exists s'. split; [exact Hs|]. now rewrite Hs.
Qed.

End Unrecovered.

(** C10, as amended.  When the recognizer's final result parses to a JSON
    object without a ["text"] member, [transcribe] returns the empty string
    and raises nothing, and the main loop treats it as it treats an empty
    transcription: "No speech detected", the "no audio" announcement of the
    current direction, [continue].  When the final result is not JSON,
    [transcribe] raises [JSONDecodeError]; when it is JSON but not an
    object, it raises [AttributeError].  Nothing catches either: whatever
    [transcribe] raises is raised by [processing_phase], by the iteration
    and by the main loop, and by the program once its [finally] block has
    run. *)
Theorem C10_fieldless_object_is_empty_text
  (W : World) (audio : list Z) (st : State) :
  Models.vosk_model (models st) <> None ->
  let model := Models.path_of (Models.vosk_model (models st)) (models st) in
  let called := log_event MainThread (EvRecognize model audio) (tick W st) in
  (forall kv,
      final_result W model audio = Parsed (JObject kv) ->
      has_key kv "text" = false ->
      exists st1,
        transcribe W audio st = Ret (JString "") st1 /\
        exists st2,
          after_transcription W (JString "") st1 = Ret Continue st2 /\
          main_of (log st2)
          = main_of (log st1)
            ++ [EvPrint "No speech detected";
                announcement W (no_audio_file (current_direction st))]) /\
  (final_result W model audio = NotJson ->
   transcribe W audio st = Raise JSONDecodeError called) /\
  (forall j,
      final_result W model audio = Parsed j -> is_object j = false ->
      transcribe W audio st = Raise (AttributeError "get") called) /\
  (forall st0 e s,
      List.concat (q st0) <> [] ->
      transcribe W (List.concat (q st0)) (at_transcribe st0) = Raise e s ->
      processing_phase W st0 = Raise e s) /\
  (forall fuel st0 s1 s2 e s,
      idle_phase W fuel st0 = Ret (Proceed tt) s1 ->
      recording_phase W fuel s1 = Ret (Proceed tt) s2 ->
      processing_phase W s2 = Raise e s ->
      main_iteration W fuel st0 = Raise e s) /\
  (forall rounds fuel st0 e s,
      exit_requested st0 = false ->
      main_iteration W fuel (log_event MainThread (EvReadExit false) st0)
      = Raise e s ->
      main_loop W (S rounds) fuel st0 = Raise e s) /\
  (forall rounds fuel st0 e s,
      main_body W rounds fuel st0 = Raise e s ->
      exists s',
        shutdown W s = Ret tt s' /\ main W rounds fuel st0 = Raise e s').
Proof.
  intros Hm model called.
  destruct (transcribe_raises W audio st Hm) as [Hn Ho].
  split; [|split; [exact Hn|split; [exact Ho|]]].
  - intros kv Hr Hk.
    destruct (transcribe_object W audio kv st Hm Hr) as [st1 [E1 [_ [Hd1 _]]]].
    rewrite dict_get_missing in E1 by exact Hk.
    exists st1. split; [exact E1|].
    destruct (after_transcription_blank W "" st1 eq_refl)
      as [st2 [E2 [Hl2 _]]].
    exists st2. split; [exact E2|]. now rewrite Hl2, Hd1.
  - split; [apply processing_phase_passes_on|].
    split; [apply main_iteration_passes_on|].
    split; [apply main_loop_passes_on | apply main_passes_on].
Qed.

Lemma C10_witness :
  Models.vosk_model (models ready_state) <> None /\
  (exists st1,
      transcribe fieldless_world [5%Z] ready_state = Ret (JString "") st1) /\
  transcribe array_world [5%Z] ready_state
  = Raise (AttributeError "get")
      (log_event MainThread (EvRecognize (Some VOSK_EN) [5%Z])
         (tick array_world ready_state)).
Proof.
  assert (Hm : Models.vosk_model (models ready_state) <> None)
    by (vm_compute; discriminate).
  split; [exact Hm|]. split.
  - destruct (C10_fieldless_object_is_empty_text fieldless_world [5%Z]
                ready_state Hm) as [H _].
    destruct (H [] eq_refl eq_refl) as [st1 [E _]].
    exists st1. exact E.
  - destruct (C10_fieldless_object_is_empty_text array_world [5%Z]
                ready_state Hm) as [_ [_ [H _]]].
    apply (H (JArray []) eq_refl eq_refl).
Defined.

(** C10 as stated fails: a malformed final result has no ["text"] member,
    and [transcribe] raises on it ([json.loads] fails), as it does on a
    result that is JSON but not an object ([.get] does not exist).  In a
    run, the exception ends the program: after the call of the recognizer
    the main thread does nothing but the [finally] block, and no "no audio"
    announcement is played. *)
Lemma C10_counterexample :
  lacks_text (final_result garbled_world (Some VOSK_EN) [5%Z]) = true /\
  (exists st', transcribe garbled_world [5%Z] ready_state
               = Raise JSONDecodeError st') /\
  lacks_text (final_result array_world (Some VOSK_EN) [5%Z]) = true /\
  (exists st', transcribe array_world [5%Z] ready_state
               = Raise (AttributeError "get") st') /\
  exists st',
    main garbled_world 3 10 initial_state = Raise JSONDecodeError st' /\
    skipn 25 (main_of (log st'))
    = [EvPrint "Transcribing..."; EvLed Red On;
       EvRecognize (Some "vosk_models/vosk-model-small-en-us-0.15")
         [4%Z; 5%Z; 6%Z; 7%Z];
       EvPrint "Exiting translator"; EvLed Red Off;
       EvLed Green Off; EvPrint "Shutting down"; EvShutdown].
Proof.
  split; [reflexivity|]. split; [|split; [reflexivity|split]].
  - eexists. vm_compute. reflexivity.
  - eexists. vm_compute. reflexivity.
  - eexists. split; vm_compute; reflexivity.
Qed.

(** What the three calls into the models do to the state, however they
    end. *)
Section ModelCalls.

Variable W : World.

Lemma transcribe_ends (audio : list Z) (st st' : State) :
  ends_in (transcribe W audio st) st' ->
  (Models.vosk_model (models st) = None /\ st' = tick W st) \/
  (Models.vosk_model (models st) <> None /\
   st' = log_event MainThread
           (EvRecognize (Models.path_of (Models.vosk_model (models st))
                                        (models st)) audio)
           (tick W st)).
Proof.
  unfold transcribe, pass_time, emit, bind, modify, gets. settle.
  destruct (Models.vosk_model (models st)) as [i|] eqn:E; simpl.
  - intros H. right. split; [discriminate|].
    destruct (final_result W _ audio) as [|[]]; simpl in H; now subst.
  - intros <-. now left.
Qed.

Lemma translate_ends (text : string) (st st' : State) :
  ends_in (translate W text st) st' ->
  st' = tick W st \/
  (Models.sp_source (models st) <> None /\
   Models.translator (models st) <> None /\
   Models.sp_target (models st) <> None /\
   st' = log_event MainThread
           (EvTranslate (Models.path_of (Models.translator (models st))
                                        (models st)) text)
           (tick W st)).
Proof.
  unfold translate, pass_time, emit, bind, modify, gets. settle.
  destruct (Models.sp_source (models st)) as [i|];
    destruct (Models.translator (models st)) as [j|];
    destruct (Models.sp_target (models st)) as [k|]; simpl;
    intros <-; auto.
  right. repeat split; discriminate.
Qed.

Lemma speak_ends (text : string) (st st' : State) :
  ends_in (speak W text st) st' ->
  st' = tick W st \/
  exists voice config,
    Models.piper_voice (models st) = Some voice /\
    Models.piper_config (models st) = Some config /\
    st' = log_event MainThread (EvSpeak voice config text) (tick W st).
Proof.
  unfold speak, pass_time, emit, bind, modify, gets. settle.
  destruct (Models.piper_voice (models st)) as [voice|];
    destruct (Models.piper_config (models st)) as [config|]; simpl;
    intros <-; auto.
  right. exists voice, config. auto.
Qed.

End ModelCalls.

Lemma maintains_intro {A} (I : State -> Prop) (m : M A) :
  (forall st st', I st -> ends_in (m st) st' -> I st') -> maintains I m.
Proof.
  intros H st. specialize (H st).
  destruct (m st) as [a s|e s|]; simpl in *; auto.
Qed.

(** A property that does not depend on the capture state is maintained by
    the opening and the closing of a recording. *)
Section Tolerant.

Variable W : World.
Variable I : State -> Prop.
Hypothesis I_tick : forall st, I st -> I (tick W st).
Hypothesis I_event :
  forall e st, quiet_event e -> I st -> I (log_event MainThread e st).
Hypothesis I_red_led : forall v st, I st -> I (set_red_led v st).
Hypothesis I_q : forall v st, I st -> I (set_q v st).
Hypothesis I_recording : forall v st, I st -> I (set_recording v st).
Hypothesis I_stream : forall v st, I st -> I (set_stream v st).
Hypothesis I_stream_active : forall v st, I st -> I (set_stream_active v st).
Hypothesis I_streams_opened :
  forall v st, I st -> I (set_streams_opened v st).

Let t_emit e : quiet_event e -> maintains I (emit e).
Proof. intros He. apply m_modify. intros st. now apply I_event. Qed.

Lemma tolerant_polling : polling W (fun st st' => I st -> I st').
Proof. constructor; intros; auto; now apply I_event. Qed.

Lemma tolerant_start_capture : maintains I (start_capture W).
Proof.
  unfold start_capture.
  apply m_bind; [apply m_modify, I_q|]. intros _.
  apply m_bind; [apply m_modify, I_recording|]. intros _.
  apply m_bind.
  { unfold open_input_stream.
    apply m_bind; [apply m_gets|]. intros n.
    apply m_bind; [apply m_modify, I_streams_opened|]. intros _.
    destruct (input_stream_open W n).
    - apply m_bind; [apply m_modify, I_stream|]. intros _.
      apply m_bind; [apply m_modify, I_stream_active|]. intros _.
      now apply t_emit.
    - now apply t_emit.
    - apply m_bind; [apply m_modify, I_stream|]. intros _. now apply t_emit. }
  intros _.
  apply m_bind; [|intros _; now apply t_emit].
  apply m_bind; [apply m_modify, I_red_led|]. intros _. now apply t_emit.
Qed.

Lemma tolerant_stop_capture : maintains I (stop_capture W).
Proof.
  unfold stop_capture.
  apply m_bind; [apply m_modify, I_recording|]. intros _.
  apply m_bind.
  { unfold stream_stop. apply m_bind; [apply m_gets|]. intros s.
    destruct s; [|apply m_raise].
    apply m_bind; [apply m_modify, I_tick|]. intros _.
    apply m_bind; [apply m_modify, I_stream_active|]. intros _.
    now apply t_emit. }
  intros _. apply m_bind.
  { unfold stream_close. apply m_bind; [apply m_gets|]. intros s.
    destruct s; [|apply m_raise].
    apply m_bind; [apply m_modify, I_stream_active|]. intros _.
    now apply t_emit. }
  intros _.
  apply m_bind; [apply m_modify, I_red_led|]. intros _. now apply t_emit.
Qed.

Lemma tolerant_record fuel : maintains I (start_capture W ;; capture W fuel).
Proof.
  apply m_bind; [apply tolerant_start_capture|]. intros _.
  unfold capture. apply m_bind; [apply m_gets|]. intros cd.
  apply m_try_finally; [|apply tolerant_stop_capture].
  apply polling_wait_for_button_release_or_switch_change, tolerant_polling.
Qed.

End Tolerant.

(** ** The microphone is never left open *)

(** No input stream is running and the callback accepts nothing. *)
Definition released (st : State) : Prop :=
  stream_active st = false /\ recording st = false.

Section Released.

Variable W : World.

Lemma released_record fuel :
  maintains released (start_capture W ;; capture W fuel).
Proof.
  apply maintains_intro. intros st st' [Ha Hr] He.
  destruct (start_capture_spec W st)
    as [sta [Es [_ [_ [_ [Hra [_ Hopen]]]]]]].
  unfold bind in He. rewrite Es in He.
  unfold capture, bind, gets, try_finally in He.
  pose proof (polling_wait_for_button_release_or_switch_change
                W only_polled (polling_only_polled W) fuel
                (current_direction sta) sta) as Hw.
  assert (Hstop : forall st1, only_polled sta st1 ->
            forall st2, ends_in (stop_capture W st1) st2 -> released st2).
  { intros st1 [Hs1 [_ [_ [Hr1 [Ha1 _]]]]] st2 H2.
    destruct (stream st1) as [i|] eqn:Ei.
    - destruct (stop_capture_bound W st1) as [s [E [Hrs [Has _]]]];
        [congruence|].
      rewrite E in H2. simpl in H2. subst s. now split.
    - rewrite stop_capture_unbound in H2 by exact Ei. simpl in H2. subst st2.
      split; [|reflexivity]. simpl. rewrite Ha1.
      destruct (input_stream_open W (streams_opened st));
        destruct Hopen as [Hso Hsa]; congruence. }
  destruct (wait_for_button_release_or_switch_change W fuel
              (current_direction sta) sta) as [d st1|e st1|];
    [| |destruct He].
  - specialize (Hstop st1 Hw).
    destruct (stop_capture W st1) as [u s|e s|]; simpl in He;
      [| |destruct He]; subst; now apply Hstop.
  - specialize (Hstop st1 Hw).
    destruct (stop_capture W st1) as [u s|e2 s|]; simpl in He;
      [| |destruct He]; subst; now apply Hstop.
Qed.

Lemma released_upkeep : upkeep W released.
Proof.
  constructor; unfold released.
  - intros st [Ha Hr]. now rewrite tick_stream_active, tick_recording.
  - intros e st _ H. exact H.
  - intros v st H. exact H.
  - intros st H. exact H.
  - intros v st H. exact H.
  - intros d _. apply maintains_intro. intros st st' [Ha Hr] He.
    destruct (switch_direction_spec W d st)
      as [s [m' [E [_ [_ [_ [_ [Hrs [Has _]]]]]]]]].
    rewrite E in He. simpl in He. subst s. split; congruence.
  - intros audio. apply maintains_intro. intros st st' [Ha Hr] He.
    apply transcribe_ends in He. destruct He as [[_ ->]|[_ ->]]; simpl;
      now rewrite tick_stream_active, tick_recording.
  - intros text. apply maintains_intro. intros st st' [Ha Hr] He.
    apply translate_ends in He. destruct He as [->|[_ [_ [_ ->]]]]; simpl;
      now rewrite tick_stream_active, tick_recording.
  - intros text. apply maintains_intro. intros st st' [Ha Hr] He.
    apply speak_ends in He. destruct He as [->|[v [c [_ [_ ->]]]]]; simpl;
      now rewrite tick_stream_active, tick_recording.
  - apply released_record.
Qed.

End Released.

(** The [finally] block of lines 288-291 after any guarded statement: if
    the name [stream] is bound when the block is entered, then however the
    guarded statement has ended, by returning or by raising whatever
    exception, the stream is stopped, the flag is cleared and no call of
    the callback is left suspended. *)
Lemma finally_releases (W : World) {A} (body : M A) (st st' : State) :
  (forall s, ends_in (body st) s -> stream s <> None) ->
  ends_in (try_finally body (stop_capture W) st) st' ->
  stream_active st' = false /\ recording st' = false /\ in_flight st' = None.
Proof.
  intros Hb. unfold try_finally.
  destruct (body st) as [a s|e s|]; [| |intros []];
    destruct (stop_capture_bound W s (Hb s eq_refl))
      as [s2 [E [Hr [Ha [_ [Hi _]]]]]];
    rewrite E; simpl; intros <-; auto.
Qed.

(** X9.  The capture is stopped wherever the code provides for it.  The
    [finally] block of the recording phase stops the stream and clears
    [recording] however the statement it guards ends, an exception of any
    kind included, as long as the name [stream] is bound.  In a run of the
    program as it is modelled, where the only exceptions are those of the
    program's own statements, no iteration and no run leaves a stream
    running: started with no stream running, however an iteration of the
    main loop ends and however the program ends, the input stream is
    stopped and [recording] is cleared. *)
Theorem microphone_is_released
  (W : World) (rounds fuel : nat) (st st' : State) :
  (forall (body : M pyval),
      (forall s, ends_in (body st) s -> stream s <> None) ->
      ends_in (try_finally body (stop_capture W) st) st' ->
      stream_active st' = false /\ recording st' = false) /\
  (stream_active st = false -> recording st = false ->
   (ends_in (main_iteration W fuel st) st' ->
    stream_active st' = false /\ recording st' = false) /\
   (ends_in (main W rounds fuel st) st' ->
    stream_active st' = false /\ recording st' = false)).
Proof.
  split.
  { intros body Hb He.
    destruct (finally_releases W body st st' Hb He) as [H1 [H2 _]].
    now split. }
  intros Ha Hr. assert (H : released st) by now split. split.
  - apply (maintains_ends released _ st st'); [|exact H].
    apply m_main_iteration; [apply released_upkeep|]. intros s Hs. exact Hs.
  - apply (main_establishes W released released (released_upkeep W));
      try exact H.
    + intros s Hs. exact Hs.
    + intros s [Hsa Hsr]. split;
        now rewrite ?tick_stream_active, ?tick_recording.
    + intros b s Hs. exact Hs.
    + intros d s s' Hd Hs E.
      apply (maintains_ends released (switch_direction W d) s s');
        [ apply (up_switch W released (released_upkeep W) d Hd)
        | exact Hs | rewrite E; reflexivity ].
    + intros s Hs. exact Hs.
Qed.


(** ** The models in use are those of the direction last loaded *)

(** The files of a direction. *)
Record model_set := {
  ms_vosk : string;
  ms_ct : string;
  ms_src : string;
  ms_tgt : string;
  ms_voice : string;
  ms_config : string
}.

(** English speech in, Spanish speech out. *)
Definition EN_ES : model_set :=
  {| ms_vosk := VOSK_EN; ms_ct := CT_EN_ES; ms_src := SP_EN_ES_SRC;
     ms_tgt := SP_EN_ES_TGT; ms_voice := PIPER_ES;
     ms_config := PIPER_CONFIG_ES |}.

(** Spanish speech in, English speech out. *)
Definition ES_EN : model_set :=
  {| ms_vosk := VOSK_ES; ms_ct := CT_ES_EN; ms_src := SP_ES_EN_SRC;
     ms_tgt := SP_ES_EN_TGT; ms_voice := PIPER_EN;
     ms_config := PIPER_CONFIG_EN |}.

Definition model_set_of (d : pyval) : option model_set :=
  if pyval_eqb d en_to_es then Some EN_ES
  else if pyval_eqb d es_to_en then Some ES_EN
  else None.

(** Reads a sequence of events of the main thread: every [load_models] is
    called with one of the two directions, and every call of the recognizer,
    of the translator and of the synthesizer uses the files of the direction
    of the latest [load_models]. *)
Fixpoint directed (loaded : option model_set) (l : list event) : bool :=
  match l with
  | [] => true
  | EvLoadModels d :: rest =>
      match model_set_of d with
      | Some s => directed (Some s) rest
      | None => false
      end
  | EvRecognize model _ :: rest =>
      match loaded with
      | Some s => pyval_eqb model (Some (ms_vosk s)) && directed loaded rest
      | None => false
      end
  | EvTranslate model _ :: rest =>
      match loaded with
      | Some s => pyval_eqb model (Some (ms_ct s)) && directed loaded rest
      | None => false
      end
  | EvSpeak voice config _ :: rest =>
      match loaded with
      | Some s =>
          String.eqb voice (ms_voice s) && String.eqb config (ms_config s)
          && directed loaded rest
      | None => false
      end
  | _ :: rest => directed loaded rest
  end.

(** The set loaded at the end of a sequence of events. *)
Fixpoint last_loaded (loaded : option model_set) (l : list event)
  : option model_set :=
  match l with
  | [] => loaded
  | EvLoadModels d :: rest => last_loaded (model_set_of d) rest
  | _ :: rest => last_loaded loaded rest
  end.

Lemma directed_app (x : option model_set) (l1 l2 : list event) :
  directed x (l1 ++ l2) = directed x l1 && directed (last_loaded x l1) l2.
Proof.
  revert x. induction l1 as [|e l1 IH]; intros x; simpl; [reflexivity|].
  destruct e; simpl; try apply IH.
  - destruct (model_set_of direction) as [s|] eqn:E; [apply IH|reflexivity].
  - destruct x as [s|]; [|reflexivity]. now rewrite IH, andb_assoc.
  - destruct x as [s|]; [|reflexivity]. now rewrite IH, andb_assoc.
  - destruct x as [s|]; [|reflexivity]. now rewrite IH, !andb_assoc.
Qed.

Lemma last_loaded_app (x : option model_set) (l1 l2 : list event) :
  last_loaded x (l1 ++ l2) = last_loaded (last_loaded x l1) l2.
Proof.
  revert x. induction l1 as [|e l1 IH]; intros x; simpl; [reflexivity|].
  destruct e; apply IH.
Qed.

Lemma directed_quiet (x : option model_set) (e : event) :
  quiet_event e -> directed x [e] = true /\ last_loaded x [e] = x.
Proof. destruct e; simpl; intros H; try destruct H; auto. Qed.

(** The globals hold the set [s], and so far the events are [directed]. *)
Definition in_step (st : State) : Prop :=
  exists s n g,
    model_set_of (current_direction st) = Some s /\
    models st
    = ModelsLoaded.loaded (ms_vosk s) (ms_ct s) (ms_src s) (ms_tgt s)
                          (ms_voice s) (ms_config s) n g /\
    directed None (main_of (log st)) = true /\
    last_loaded None (main_of (log st)) = Some s.

(** Nothing is being constructed, and so far the events are [directed]. *)
Definition before_load (st : State) : Prop :=
  Models.fresh (models st) = None /\
  directed None (main_of (log st)) = true.

Lemma in_step_before_load (st : State) : in_step st -> before_load st.
Proof.
  intros [s [n [g [_ [Hm [Hd _]]]]]]. split; [|exact Hd]. now rewrite Hm.
Qed.

Lemma model_set_of_valid (d : pyval) :
  valid_direction d ->
  exists s, model_set_of d = Some s /\
    forall m, Models.fresh m = None ->
      Models.load_models d m
      = Some (ModelsLoaded.loaded (ms_vosk s) (ms_ct s) (ms_src s) (ms_tgt s)
                (ms_voice s) (ms_config s)
                (Models.next_id m) (S (Models.loads m))).
Proof.
  intros [-> | ->].
  - exists EN_ES. split; [reflexivity|]. apply ModelsLoaded.load_models_en_to_es.
  - exists ES_EN. split; [reflexivity|]. apply ModelsLoaded.load_models_es_to_en.
Qed.



Section InStep.

Variable W : World.

Lemma in_step_event (e : event) (st : State) :
  quiet_event e -> in_step st -> in_step (log_event MainThread e st).
Proof.
  intros He [s [n [g [Hc [Hm [Hd Hl]]]]]]. exists s, n, g. simpl.
  rewrite main_of_app, directed_app, last_loaded_app, Hd, Hl. simpl main_of.
  destruct (directed_quiet (Some s) e He) as [-> ->]. auto.
Qed.

Lemma in_step_tick (st : State) : in_step st -> in_step (tick W st).
Proof.
  intros [s [n [g [Hc [Hm [Hd Hl]]]]]]. exists s, n, g.
  now rewrite tick_current_direction, tick_models, tick_main_of.
Qed.

Lemma switch_establishes (d : pyval) (st st' : State) :
  valid_direction d -> before_load st ->
  switch_direction W d st = Ret tt st' -> in_step st'.
Proof.
  intros Hd [Hf Hdir] E.
  destruct (switch_direction_spec W d st)
    as [s' [m' [E' [Hload [Hm [Hc [Hl _]]]]]]].
  rewrite E' in E. injection E as ->.
  destruct (model_set_of_valid d Hd) as [s [Hs Hres]].
  rewrite (Hres _ Hf) in Hload. injection Hload as <-.
  exists s, (Models.next_id (models st)), (S (Models.loads (models st))).
  rewrite Hc, Hl, directed_app, last_loaded_app, Hdir. simpl.
  rewrite Hs. repeat split; auto.
  - unfold loading_line, announcement.
    destruct (pyval_eqb d en_to_es); [|destruct (pyval_eqb d es_to_en)];
      destruct (file_exists W (mode_file d)); reflexivity.
  - unfold loading_line, announcement.
    destruct (pyval_eqb d en_to_es); [|destruct (pyval_eqb d es_to_en)];
      destruct (file_exists W (mode_file d)); reflexivity.
Qed.

Lemma in_step_upkeep : upkeep W in_step.
Proof.
  constructor.
  - apply in_step_tick.
  - intros e st He. now apply in_step_event.
  - intros v st H. exact H.
  - intros st H. exact H.
  - intros v st H. exact H.
  - intros d Hd. apply maintains_intro. intros st st' H He.
    destruct (switch_direction_spec W d st) as [s [m' [E _]]].
    rewrite E in He. simpl in He. subst s.
    apply (switch_establishes d st st' Hd (in_step_before_load st H) E).
  - intros audio. apply maintains_intro. intros st st' H He.
    apply transcribe_ends in He.
    destruct He as [[_ ->]|[_ ->]]; [now apply in_step_tick|].
    destruct H as [s [n [g [Hc [Hm [Hd Hl]]]]]].
    destruct (ModelsLoaded.path_of_loaded _ _ _ _ _ _ _ _ _ Hm)
      as [Hv _]. rewrite Hv.
    exists s, n, g. simpl.
    rewrite tick_current_direction, tick_models, main_of_app, tick_main_of.
    rewrite directed_app, last_loaded_app, Hd, Hl. simpl.
    rewrite String.eqb_refl. auto.
  - intros text. apply maintains_intro. intros st st' H He.
    apply translate_ends in He.
    destruct He as [->|[_ [_ [_ ->]]]]; [now apply in_step_tick|].
    destruct H as [s [n [g [Hc [Hm [Hd Hl]]]]]].
    destruct (ModelsLoaded.path_of_loaded _ _ _ _ _ _ _ _ _ Hm)
      as [_ [Ht _]]. rewrite Ht.
    exists s, n, g. simpl.
    rewrite tick_current_direction, tick_models, main_of_app, tick_main_of.
    rewrite directed_app, last_loaded_app, Hd, Hl. simpl.
    rewrite String.eqb_refl. auto.
  - intros text. apply maintains_intro. intros st st' H He.
    apply speak_ends in He.
    destruct He as [->|[voice [config [Hv [Hcf ->]]]]];
      [now apply in_step_tick|].
    destruct H as [s [n [g [Hc [Hm [Hd Hl]]]]]].
    rewrite Hm in Hv, Hcf. simpl in Hv, Hcf.
    injection Hv as <-. injection Hcf as <-.
    exists s, n, g. simpl.
    rewrite tick_current_direction, tick_models, main_of_app, tick_main_of.
    rewrite directed_app, last_loaded_app, Hd, Hl. simpl.
    rewrite !String.eqb_refl. auto.
  - apply tolerant_record; auto.
    + apply in_step_tick.
    + intros e st He. now apply in_step_event.
Qed.

End InStep.

(** X11.  In every run of the program, [load_models] is only ever called
    with ["en_to_es"] or ["es_to_en"], and every call of the recognizer, of
    the translator and of the speech synthesizer is made with the files of
    the direction most recently loaded: the recognizer of its source
    language, its translator, the voice of its target language.  When the
    statements of the [try] block have run to their end, the loop being
    left by its condition or by [break] and every [load_models] having
    returned, the globals hold the set of [current_direction]. *)
Theorem models_follow_the_direction
  (W : World) (rounds fuel : nat) (st st' : State) :
  Models.fresh (models st) = None ->
  directed None (main_of (log st)) = true ->
  (ends_in (main W rounds fuel st) st' ->
   directed None (main_of (log st')) = true) /\
  (main_body W rounds fuel st = Ret tt st' ->
   exists s n g,
     model_set_of (current_direction st') = Some s /\
     models st'
     = ModelsLoaded.loaded (ms_vosk s) (ms_ct s) (ms_src s) (ms_tgt s)
                           (ms_voice s) (ms_config s) n g).
Proof.
  intros Hf Hd.
  assert (Ht : forall s, before_load s -> before_load (tick W s))
    by (intros s [Hsf Hsd]; split; now rewrite ?tick_models, ?tick_main_of).
  assert (Hr : forall b s, before_load s ->
               before_load (log_event MainThread (EvReadSwitch b) s)).
  { intros b s [Hsf Hsd]. split; [exact Hsf|]. simpl.
    now rewrite main_of_app, directed_app, Hsd. }
  assert (Hsw : forall d s s', valid_direction d -> before_load s ->
                switch_direction W d s = Ret tt s' -> in_step s')
    by (intros d s s' Hv Hs E; now apply (switch_establishes W d s s')).
  assert (H0 : before_load st) by now split.
  split.
  - intros He.
    assert (H : in_step st').
    { apply (main_establishes W before_load in_step (in_step_upkeep W))
        with (rounds := rounds) (fuel := fuel) (st := st); auto.
      intros s [x [n [g [Hc [Hm [Hdi Hl]]]]]]. exists x, n, g. simpl.
      rewrite main_of_app, directed_app, last_loaded_app, Hdi, Hl. auto. }
    now destruct H as [s [n [g [_ [_ [Hdi _]]]]]].
  - intros E.
    assert (H : in_step st').
    { apply (main_body_establishes W before_load in_step (in_step_upkeep W))
        with (rounds := rounds) (fuel := fuel) (st := st); auto.
      rewrite E. reflexivity. }
    destruct H as [s [n [g [Hc [Hm _]]]]]. exists s, n, g. auto.
Qed.

(** ** What the waits return *)

(** [hoare P m Q]: when [m] returns from a state where [P] holds, [Q] holds
    of its value and of the state it returns in. *)
Definition hoare {A} (P : State -> Prop) (m : M A) (Q : A -> State -> Prop)
  : Prop :=
  forall st a st', P st -> m st = Ret a st' -> Q a st'.

Lemma hoare_ret {A} (P : State -> Prop) (Q : A -> State -> Prop) (a : A) :
  (forall st, P st -> Q a st) -> hoare P (ret a) Q.
Proof. intros H st b st' HP E. injection E as <- <-. now apply H. Qed.

Lemma hoare_bind {A B} (P : State -> Prop) (Q1 : A -> State -> Prop)
  (Q : B -> State -> Prop) (m : M A) (k : A -> M B) :
  hoare P m Q1 -> (forall a, hoare (Q1 a) (k a) Q) -> hoare P (bind m k) Q.
Proof.
  intros Hm Hk st b st' HP E. unfold bind in E.
  destruct (m st) as [a s|e s|] eqn:Em; try discriminate.
  apply (Hk a s b st'); [|exact E]. now apply (Hm st a s).
Qed.

Lemma hoare_weaken {A} (P P' : State -> Prop) (Q : A -> State -> Prop)
  (m : M A) :
  (forall st, P st -> P' st) -> hoare P' m Q -> hoare P m Q.
Proof. intros H Hm st a st' HP E. apply (Hm st a st'); auto. Qed.

Lemma hoare_out_of_fuel {A} (P : State -> Prop) (Q : A -> State -> Prop) :
  hoare P (fun _ : State => @OutOfFuel A) Q.
Proof. intros st a st' _ E. discriminate. Qed.

Definition anywhere (st : State) : Prop := True.

Section Waits.

Variable W : World.

(** The direction the switch shows at time [t]. *)
Definition direction_at (t : nat) : pyval :=
  if direction_switch_at W t then es_to_en else en_to_es.

Lemma hoare_read_exit_requested (P : State -> Prop) :
  hoare P read_exit_requested (fun e st => exit_requested st = e).
Proof.
  intros st e st' _ E. rewrite read_exit_requested_spec in E.
  injection E as <- <-. reflexivity.
Qed.

Lemma hoare_record_button_is_active (P : State -> Prop) :
  hoare P (record_button_is_active W)
        (fun b st => record_button_at W (clock st) = b).
Proof.
  intros st b st' _ E. rewrite record_button_is_active_spec in E.
  injection E as <- <-. simpl. now rewrite clock_tick.
Qed.

Lemma hoare_get_translation_direction (P : State -> Prop) :
  hoare P (get_translation_direction W)
        (fun d st => d = direction_at (clock st)).
Proof.
  intros st d st' _ E. rewrite get_translation_direction_spec in E.
  injection E as <- <-. simpl. now rewrite clock_tick.
Qed.

Lemma direction_at_valid (t : nat) : valid_direction (direction_at t).
Proof.
  unfold direction_at, valid_direction.
  destruct (direction_switch_at W t); auto.
Qed.

(** What [wait_for_button_or_switch_change] returns, and in what state:
    ["exit"] with the flag set, [None] right after the record button has
    been read active, or the direction just read from the switch, which
    differs from [last_direction]. *)
Definition idle_wait_post (last : pyval) (v : pyval) (st : State) : Prop :=
  (v = Some "exit" /\ exit_requested st = true) \/
  (v = None /\ record_button_at W (clock st) = true) \/
  (v = direction_at (clock st) /\ pyval_eqb v last = false).

Lemma hoare_wait_for_button_or_switch_change fuel last :
  hoare anywhere (wait_for_button_or_switch_change W fuel last)
        (idle_wait_post last).
Proof.
  induction fuel as [|fuel IH]; simpl; [apply hoare_out_of_fuel|].
  eapply hoare_bind; [apply hoare_read_exit_requested|]. intros e.
  destruct e.
  { apply hoare_ret. intros st H. left. auto. }
  eapply hoare_bind; [apply hoare_record_button_is_active|]. intros b.
  destruct b.
  { apply hoare_ret. intros st H. right. left. auto. }
  eapply hoare_bind; [apply hoare_get_translation_direction|]. intros nd.
  destruct (negb (pyval_eqb nd last)) eqn:En.
  { apply hoare_ret. intros st H. right. right. split; [exact H|].
    now apply negb_true_iff in En. }
  eapply hoare_bind with (Q1 := fun _ _ => True);
    [intros st u st' _ _; exact I|].
  intros _. eapply hoare_weaken; [|exact IH]. intros st _. exact I.
Qed.

(** What [wait_for_button_release_or_switch_change] returns: ["exit"] with
    the flag set, [None] with the flag unset right after the record button
    has been read inactive, or the direction just read from the switch,
    which differs from [last_direction]. *)
Definition release_wait_post (last : pyval) (v : pyval) (st : State) : Prop :=
  (v = Some "exit" /\ exit_requested st = true) \/
  (v = None /\ exit_requested st = false /\
   record_button_at W (clock st) = false) \/
  (v = direction_at (clock st) /\ pyval_eqb v last = false).

Lemma hoare_wait_for_button_release_or_switch_change fuel last :
  hoare anywhere (wait_for_button_release_or_switch_change W fuel last)
        (release_wait_post last).
Proof.
  induction fuel as [|fuel IH]; simpl; [apply hoare_out_of_fuel|].
  eapply hoare_bind; [apply hoare_record_button_is_active|]. intros b.
  eapply hoare_bind
    with (Q1 := fun e st =>
                  record_button_at W (clock st) = b /\
                  (b = true -> exit_requested st = e)).
  { destruct b.
    - intros st e st' Hb E. rewrite read_exit_requested_spec in E.
      injection E as <- <-. simpl. auto.
    - apply hoare_ret. intros st Hb. split; [exact Hb | discriminate]. }
  intros e. destruct (b && negb e) eqn:Ebe.
  - eapply hoare_bind; [apply hoare_get_translation_direction|]. intros nd.
    destruct (negb (pyval_eqb nd last)) eqn:En.
    { apply hoare_ret. intros st H. right. right. split; [exact H|].
      now apply negb_true_iff in En. }
    eapply hoare_bind with (Q1 := fun _ _ => True);
      [intros st u st' _ _; exact I|].
    intros _. eapply hoare_weaken; [|exact IH]. intros st _. exact I.
  - eapply hoare_bind
      with (Q1 := fun e' st =>
                    exit_requested st = e' /\
                    (e' = false -> record_button_at W (clock st) = false)).
    { intros st e' st' [Hb He] E. rewrite read_exit_requested_spec in E.
      injection E as <- <-. simpl. split; [reflexivity|]. intros Hx.
      destruct b; [|exact Hb]. specialize (He eq_refl). subst e.
      simpl in Ebe. rewrite Hx in Ebe. discriminate. }
    intros e'. destruct e'.
    + apply hoare_ret. intros st [H _]. left. auto.
    + apply hoare_ret. intros st [H Hb]. right. left. auto.
Qed.

End Waits.

(** ** The idle phase *)

(** [safe m]: [m] raises no exception. *)
Definition safe {A} (m : M A) : Prop := forall st e s, m st <> Raise e s.

Lemma safe_ret {A} (a : A) : safe (ret a).
Proof. intros st e s H. discriminate. Qed.

Lemma safe_gets {A} (f : State -> A) : safe (gets f).
Proof. intros st e s H. discriminate. Qed.

Lemma safe_modify (f : State -> State) : safe (modify f).
Proof. intros st e s H. discriminate. Qed.

Lemma safe_out_of_fuel {A} : safe (fun _ : State => @OutOfFuel A).
Proof. intros st e s H. discriminate. Qed.

Lemma safe_bind {A B} (m : M A) (k : A -> M B) :
  safe m -> (forall a, safe (k a)) -> safe (bind m k).
Proof.
  intros Hm Hk st e s H. unfold bind in H.
  destruct (m st) as [a s1|e1 s1|] eqn:E; try discriminate.
  - now apply (Hk a s1 e s).
  - now apply (Hm st e1 s1).
Qed.

Lemma safe_bind_returns {A B} (Q : A -> Prop) (m : M A) (k : A -> M B) :
  safe m -> returns Q m -> (forall a, Q a -> safe (k a)) -> safe (bind m k).
Proof.
  intros Hm Hq Hk st e s H. unfold bind in H.
  destruct (m st) as [a s1|e1 s1|] eqn:E; try discriminate.
  - now apply (Hk a (Hq st a s1 E) s1 e s).
  - now apply (Hm st e1 s1).
Qed.

Section Safe.

Variable W : World.

Lemma safe_emit e : safe (emit e).
Proof. apply safe_modify. Qed.

Lemma safe_read_exit_requested : safe read_exit_requested.
Proof.
  apply safe_bind; [apply safe_gets|]. intros e.
  apply safe_bind; [apply safe_emit | intros _; apply safe_ret].
Qed.

Lemma safe_record_button_is_active : safe (record_button_is_active W).
Proof.
  apply safe_bind; [apply safe_modify|]. intros _.
  apply safe_bind; [apply safe_gets|]. intros t.
  apply safe_bind; [apply safe_emit | intros _; apply safe_ret].
Qed.

Lemma safe_get_translation_direction : safe (get_translation_direction W).
Proof.
  apply safe_bind; [apply safe_modify|]. intros _.
  apply safe_bind; [apply safe_gets|]. intros t.
  apply safe_bind; [apply safe_emit | intros _; apply safe_ret].
Qed.

Lemma safe_sleep ms : safe (sleep W ms).
Proof. apply safe_bind; [apply safe_modify | intros _; apply safe_emit]. Qed.

Lemma safe_wait_for_button_or_switch_change fuel last :
  safe (wait_for_button_or_switch_change W fuel last).
Proof.
  induction fuel as [|fuel IH]; simpl; [apply safe_out_of_fuel|].
  apply safe_bind; [apply safe_read_exit_requested|]. intros e.
  destruct e; [apply safe_ret|].
  apply safe_bind; [apply safe_record_button_is_active|]. intros b.
  destruct b; [apply safe_ret|].
  apply safe_bind; [apply safe_get_translation_direction|]. intros nd.
  destruct (negb _); [apply safe_ret|].
  apply safe_bind; [apply safe_sleep | intros _; exact IH].
Qed.

Lemma safe_wait_for_button_release_or_switch_change fuel last :
  safe (wait_for_button_release_or_switch_change W fuel last).
Proof.
  induction fuel as [|fuel IH]; simpl; [apply safe_out_of_fuel|].
  apply safe_bind; [apply safe_record_button_is_active|]. intros b.
  apply safe_bind.
  { destruct b; [apply safe_read_exit_requested | apply safe_ret]. }
  intros e. destruct (b && negb e).
  - apply safe_bind; [apply safe_get_translation_direction|]. intros nd.
    destruct (negb _); [apply safe_ret|].
    apply safe_bind; [apply safe_sleep | intros _; exact IH].
  - apply safe_bind; [apply safe_read_exit_requested|]. intros e'.
    destruct e'; apply safe_ret.
Qed.

Lemma safe_switch_direction d : safe (switch_direction W d).
Proof.
  intros st e s H. destruct (switch_direction_spec W d st) as [s' [m' [E _]]].
  rewrite E in H. discriminate.
Qed.

Lemma safe_after_idle_wait dc : safe (after_idle_wait W dc).
Proof.
  unfold after_idle_wait.
  apply safe_bind; [apply safe_read_exit_requested|]. intros e.
  destruct (e || _); [apply safe_ret|].
  destruct (truthy dc); [|apply safe_ret].
  apply safe_bind; [apply safe_switch_direction | intros _; apply safe_ret].
Qed.

Lemma safe_idle_phase fuel : safe (idle_phase W fuel).
Proof.
  unfold idle_phase, red_led_off, green_led_off, print.
  apply safe_bind.
  { apply safe_bind; [apply safe_modify | intros _; apply safe_emit]. }
  intros _. apply safe_bind.
  { apply safe_bind; [apply safe_modify | intros _; apply safe_emit]. }
  intros _. apply safe_bind; [apply safe_gets|]. intros cd.
  apply safe_bind; [apply safe_emit|]. intros _.
  apply safe_bind; [apply safe_emit|]. intros _.
  apply safe_bind; [apply safe_wait_for_button_or_switch_change|].
  intros dc. apply safe_after_idle_wait.
Qed.

End Safe.




(** Lines 252-258 (and 293-299) for each value the wait can have
    returned. *)
Lemma after_idle_wait_result (W : World) (dc : pyval) (st st' : State)
  (r : flow unit) :
  wait_value dc ->
  after_idle_wait W dc st = Ret r st' ->
  match r with
  | Break =>
      (exit_requested st = true \/ dc = Some "exit") /\
      st' = log_event MainThread (EvReadExit (exit_requested st)) st
  | Proceed _ =>
      exit_requested st = false /\ dc = None /\
      st' = log_event MainThread (EvReadExit false) st
  | Continue =>
      exit_requested st = false /\ valid_direction dc /\
      current_direction st' = dc /\
      Models.load_models dc (models st) = Some (models st')
  end.
Proof.
  intros Hv. unfold after_idle_wait. unfold bind at 1.
  rewrite read_exit_requested_spec.
  destruct (exit_requested st) eqn:Ee; simpl.
  - intros H. injection H as <- <-. auto.
  - destruct Hv as [-> | [-> | Hd]]; simpl.
    + intros H. injection H as <- <-. auto.
    + intros H. injection H as <- <-. auto.
    + assert (Hx : pyval_eqb dc (Some "exit") = false)
        by (destruct Hd as [-> | ->]; reflexivity).
      assert (Ht : truthy dc = true) by (destruct Hd as [-> | ->]; reflexivity).
      rewrite Hx, Ht.
      destruct (switch_direction_spec W dc
                  (log_event MainThread (EvReadExit false) st))
        as [s [m' [E [Hm [Hm' [Hc _]]]]]].
      unfold bind. rewrite E. intros H. injection H as <- <-.
      repeat split; auto. now rewrite Hm'.
Qed.


(** ** What a recording holds *)

(** The blocks the stream callback is handed during the [n] ticks that
    start at time [t], in order. *)
Definition delivered (W : World) (t n : nat) : list chunk :=
  flat_map (fun u => map dl_indata (microphone_at W u)) (seq t n).

Lemma delivered_split (W : World) (t n m : nat) :
  delivered W t (n + m) = delivered W t n ++ delivered W (t + n) m.
Proof.
  unfold delivered. now rewrite seq_app, flat_map_app.
Qed.

(** From a state in which a stream is running and [recording] is true:
    both still hold, and the queue, with the block of a suspended call if
    there is one, has grown by the blocks delivered in between. *)
Definition capturing_since (W : World) (st st' : State) : Prop :=
  recording st = true -> stream_active st = true ->
  recording st' = true /\ stream_active st' = true /\
  clock st <= clock st' /\
  q st' ++ pending st'
  = q st ++ pending st ++ delivered W (clock st) (clock st' - clock st).

Lemma polling_capturing_since (W : World) : polling W (capturing_since W).
Proof.
  constructor; unfold capturing_since.
  - intros st Hr Ha. rewrite Nat.sub_diag. simpl.
    now rewrite app_nil_r.
  - intros a b c Hab Hbc Hr Ha.
    destruct (Hab Hr Ha) as [Hrb [Hab' [Hle Hq]]].
    destruct (Hbc Hrb Hab') as [Hrc [Hac [Hle' Hq']]].
    repeat split; auto; [lia|].
    rewrite Hq', app_assoc, Hq, <- !app_assoc. do 2 f_equal.
    replace (clock c - clock a)
      with ((clock b - clock a) + (clock c - clock b)) by lia.
    rewrite delivered_split. do 2 f_equal. lia.
  - intros st Hr Ha.
    rewrite tick_recording, tick_stream_active, clock_tick.
    repeat split; auto.
    rewrite (tick_capturing W st Hr Ha).
    replace (S (clock st) - clock st) with 1 by lia.
    unfold delivered. simpl. now rewrite app_nil_r.
  - intros v st Hr Ha. unfold pending. simpl. rewrite Nat.sub_diag. simpl.
    now rewrite app_nil_r.
  - intros v st Hr Ha. unfold pending. simpl. rewrite Nat.sub_diag. simpl.
    now rewrite app_nil_r.
  - intros v st Hr Ha. unfold pending. simpl. rewrite Nat.sub_diag. simpl.
    now rewrite app_nil_r.
  - intros v st Hr Ha. unfold pending. simpl. rewrite Nat.sub_diag. simpl.
    now rewrite app_nil_r.
Qed.

Section Recorded.

Variable W : World.

Lemma start_capture_untimed (st sta : State) :
  start_capture W st = Ret tt sta ->
  clock sta = clock st /\ exit_requested sta = exit_requested st /\
  in_flight sta = in_flight st.
Proof.
  unfold start_capture, open_input_stream, red_led_on, print, emit, bind,
    modify, gets. simpl.
  destruct (input_stream_open W (streams_opened st)); simpl;
    intros H; injection H as <-; auto.
Qed.

Lemma stop_capture_timed (st st' : State) :
  stream st <> None ->
  stop_capture W st = Ret tt st' -> clock st' = S (clock st).
Proof.
  intros Hs. unfold stop_capture, stream_stop, stream_close, red_led_off,
    emit, pass_time, bind, modify, gets.
  simpl. destruct (stream st) as [i|] eqn:E; [|congruence].
  settle. rewrite E. settle. intros H. injection H as <-. reflexivity.
Qed.

End Recorded.

(** X6.  When a recording whose stream opened ends with the release of the
    record button, the queue holds exactly the blocks whose call of the
    callback tested [recording] before the flag was cleared, in the order
    of their delivery: those of the ticks from the start of the stream to
    the read that found the button released.  The block of a call that was
    suspended after its test is among them, appended while [stream.stop()]
    waits; the blocks handed to the callback during that wait are not.
    When the [finally] block has returned no call is suspended, the stream
    is stopped and the flag is cleared; neither the direction nor the
    models have changed. *)
Theorem recording_keeps_every_block
  (W : World) (fuel : nat) (st st' : State) :
  in_flight st = None ->
  input_stream_open W (streams_opened st) = OpenOk ->
  recording_phase W fuel st = Ret (Proceed tt) st' ->
  exists n,
    clock st' = S (clock st + n) /\
    record_button_at W (clock st + n) = false /\
    q st' = delivered W (clock st) n /\ in_flight st' = None /\
    recording st' = false /\ stream_active st' = false /\
    exit_requested st' = false /\
    current_direction st' = current_direction st /\
    models st' = models st.
Proof.
  intros Hfl Hopen H.
  destruct (start_capture_spec W st)
    as [sta [Es [Hms [Hcs [Hqs [Hrs [_ Ho]]]]]]].
  rewrite Hopen in Ho. destruct Ho as [Hss Has].
  destruct (start_capture_untimed W st sta Es) as [Hks [_ Hfa]].
  unfold recording_phase in H. unfold bind at 1 in H. rewrite Es in H.
  unfold bind at 1 in H. unfold capture in H. unfold bind at 1 in H.
  unfold gets at 1 in H. unfold try_finally in H.
  destruct (wait_for_button_release_or_switch_change W fuel
              (current_direction sta) sta) as [dc st1|e st1|] eqn:Ew;
    [| |discriminate].
  2: { destruct (stop_capture W st1) as [u s|e2 s|]; discriminate. }
  destruct (wait_release_only_polled W fuel _ sta dc st1 Ew)
    as [Hs1 [Hm1 [Hc1 _]]].
  pose proof (polling_wait_for_button_release_or_switch_change
                W (capturing_since W) (polling_capturing_since W) fuel
                (current_direction sta) sta) as Hcap.
  rewrite Ew in Hcap. destruct (Hcap Hrs Has) as [_ [_ [Hle Hq1]]].
  pose proof (hoare_wait_for_button_release_or_switch_change
                W fuel _ sta dc st1 I Ew) as Hpost.
  pose proof (returns_wait_for_button_release_or_switch_change
                W fuel _ sta dc st1 Ew) as Hv.
  assert (Hb : stream st1 <> None) by congruence.
  destruct (stop_capture_bound W st1 Hb)
    as [st2 [E2 [Hr2 [Ha2 [Hq2 [Hi2 [_ [Hc2 [Hm2 _]]]]]]]]].
  pose proof (stop_capture_timed W st1 st2 Hb E2) as Hk2.
  rewrite E2 in H.
  pose proof (after_idle_wait_result W dc st2 st' (Proceed tt) Hv H)
    as [He [Hdc ->]].
  subst dc.
  destruct Hpost as [[Hx _]|[[_ [_ Hbtn]]|[Hx _]]]; try discriminate.
  2: { pose proof (direction_at_valid W (clock st1)) as [Hd|Hd];
       rewrite Hd in Hx; discriminate. }
  exists (clock st1 - clock st). simpl.
  rewrite Hks in *. rewrite Hqs in Hq1. unfold pending at 2 in Hq1.
  rewrite Hfa, Hfl in Hq1. simpl in Hq1.
  replace (clock st + (clock st1 - clock st)) with (clock st1) by lia.
  repeat split; auto; congruence.
Qed.

(** ** From the recording to the translation *)

Section Pipeline.

Variable W : World.
Variable s : model_set.
Variables n g : nat.

Let m : Models.t :=
  ModelsLoaded.loaded (ms_vosk s) (ms_ct s) (ms_src s) (ms_tgt s)
                      (ms_voice s) (ms_config s) n g.

(** What [translate(text)] returns with the set [s] loaded. *)
Definition translation_of (text : string) : string :=
  sp_decode W (Some (ms_tgt s))
    (translate_batch W (Some (ms_ct s))
       (sp_encode W (Some (ms_src s)) text ++ ["</s>"])).

Lemma translate_loaded (text : string) (st : State) :
  models st = m ->
  exists st',
    translate W text st = Ret (translation_of text) st' /\
    main_of (log st')
    = main_of (log st) ++ [EvTranslate (Some (ms_ct s)) text] /\
    models st' = models st /\ current_direction st' = current_direction st.
Proof.
  intros Hm.
  destruct (ModelsLoaded.path_of_loaded _ _ _ _ _ _ _ _ _ Hm)
    as [_ [Hct [Hsrc Htgt]]].
  unfold translate, pass_time, emit, bind, modify, gets. settle.
  rewrite Hsrc, Hct, Htgt.
  replace (Models.sp_source (models st)) with (Some (2 + n))
    by (rewrite Hm; reflexivity).
  replace (Models.translator (models st)) with (Some (1 + n))
    by (rewrite Hm; reflexivity).
  replace (Models.sp_target (models st)) with (Some (3 + n))
    by (rewrite Hm; reflexivity).
  eexists. split; [reflexivity|]. settle. auto.
Qed.

Lemma speak_loaded (text : string) (st : State) :
  models st = m ->
  exists st',
    speak W text st = Ret tt st' /\
    main_of (log st')
    = main_of (log st) ++ [EvSpeak (ms_voice s) (ms_config s) text] /\
    models st' = models st /\ current_direction st' = current_direction st.
Proof.
  intros Hm. unfold speak, pass_time, emit, bind, modify, gets. settle.
  rewrite Hm. simpl.
  eexists. split; [reflexivity|]. settle. rewrite Hm. auto.
Qed.

(** The branch of lines 320-328. *)
Lemma after_transcription_speech (text : string) (st : State) :
  models st = m -> all_space text = false ->
  exists st',
    after_transcription W (JString text) st
    = Ret (Proceed (translation_of (restore_punctuation W text))) st' /\
    main_of (log st')
    = main_of (log st)
      ++ [EvPrint "Restoring punctuation..."; EvPunctuate text;
          EvPrint "Punctuated"; EvPrint "Translating..."; EvLed Red On;
          EvTranslate (Some (ms_ct s)) (restore_punctuation W text);
          EvLed Red Off] /\
    models st' = models st /\ current_direction st' = current_direction st.
Proof.
  intros Hm Hs.
  assert (Hstrip : String.eqb (strip text) "" = false).
  { apply not_true_iff_false. intros H. apply String.eqb_eq in H.
    apply strip_empty_iff in H. congruence. }
  unfold after_transcription. rewrite Hstrip.
  unfold restore_punctuation_call, print, red_led_on, red_led_off, pass_time,
    emit, bind, modify, gets, ret. simpl.
  set (st1 := log_event MainThread (EvLed Red On) _).
  assert (Hm1 : models st1 = m) by (unfold st1; settle; exact Hm).
  destruct (translate_loaded (restore_punctuation W text) st1 Hm1)
    as [st2 [E2 [Hl2 [Hm2 Hc2]]]].
  rewrite E2. eexists. split; [reflexivity|]. settle.
  rewrite Hl2, Hm2, Hc2. unfold st1. settle.
  repeat rewrite <- app_assoc. auto.
Qed.

End Pipeline.

(** X7.  With a model set loaded, a recording that is not empty and a
    recognizer result whose ["text"] is not blank, the processing phase
    raises nothing and hands on the translation: the recognized text, as
    returned (it is stripped for the test only), goes through the
    punctuation model; the punctuated text is encoded with the source
    tokenizer of the set, ["</s>"] is appended, the tokens are translated by
    the translator of the set and the result is decoded with its target
    tokenizer.  The indicator is on during the recognizer call and during
    the translation. *)
Theorem processing_phase_translates
  (W : World) (s : model_set) (n g : nat) (st : State)
  (kv : list (string * json)) (text : string) :
  models st
  = ModelsLoaded.loaded (ms_vosk s) (ms_ct s) (ms_src s) (ms_tgt s)
                        (ms_voice s) (ms_config s) n g ->
  List.concat (q st) <> [] ->
  final_result W (Some (ms_vosk s)) (List.concat (q st))
  = Parsed (JObject kv) ->
  dict_get kv "text" (JString "") = JString text ->
  all_space text = false ->
  exists st',
    processing_phase W st
    = Ret (Proceed
             (sp_decode W (Some (ms_tgt s))
                (translate_batch W (Some (ms_ct s))
                   (sp_encode W (Some (ms_src s))
                              (restore_punctuation W text) ++ ["</s>"]))))
          st' /\
    main_of (log st')
    = main_of (log st)
      ++ [EvPrint "Transcribing..."; EvLed Red On;
          EvRecognize (Some (ms_vosk s)) (List.concat (q st));
          EvLed Red Off; EvPrint "Recognized";
          EvPrint "Restoring punctuation..."; EvPunctuate text;
          EvPrint "Punctuated"; EvPrint "Translating..."; EvLed Red On;
          EvTranslate (Some (ms_ct s)) (restore_punctuation W text);
          EvLed Red Off] /\
    models st' = models st /\ current_direction st' = current_direction st.
Proof.
  intros Hm Hne Hr Ht Hs.
  destruct (ModelsLoaded.path_of_loaded _ _ _ _ _ _ _ _ _ Hm) as [Hv _].
  unfold processing_phase, drain, bind, gets, modify, ret.
  rewrite drain_loop_spec. simpl. rewrite aggregate_concat.
  destruct (Nat.eqb (List.length (List.concat (q st))) 0) eqn:El;
    [apply length_zero_iff in El; congruence|].
  unfold print, red_led_on, red_led_off, emit, bind, modify, gets. simpl.
  set (st1 := log_event MainThread (EvLed Red On) _).
  assert (Hm1 : models st1 = models st) by reflexivity.
  assert (Hvm : Models.vosk_model (models st1) <> None)
    by (rewrite Hm1, Hm; discriminate).
  assert (Hr1 : final_result W
                  (Models.path_of (Models.vosk_model (models st1))
                                  (models st1))
                  (List.concat (q st)) = Parsed (JObject kv))
    by (rewrite Hm1, Hv; exact Hr).
  destruct (transcribe_object W (List.concat (q st)) kv st1 Hvm Hr1)
    as [st2 [E2 [Hl2 [Hd2 Hm2]]]].
  rewrite E2, Ht.
  set (st3 := log_event MainThread (EvPrint "Recognized") _).
  assert (Hm3 : models st3
                = ModelsLoaded.loaded (ms_vosk s) (ms_ct s) (ms_src s)
                    (ms_tgt s) (ms_voice s) (ms_config s) n g)
    by (unfold st3; settle; rewrite Hm2, Hm1; exact Hm).
  destruct (after_transcription_speech W s n g text st3 Hm3 Hs)
    as [st4 [E4 [Hl4 [Hm4 Hc4]]]].
  unfold translation_of in E4. rewrite E4.
  exists st4. split; [reflexivity|]. split; [|split].
  - rewrite Hl4. unfold st3. settle. rewrite Hl2, Hm1, Hv. unfold st1.
    settle. repeat rewrite <- app_assoc. reflexivity.
  - rewrite Hm4. unfold st3. settle. now rewrite Hm2.
  - rewrite Hc4. unfold st3. settle. now rewrite Hd2.
Qed.

(** ** What is spoken *)

(** The calls of the synthesizer among the events: voice, configuration and
    text of each. *)
Fixpoint spoken (l : list event) : list (string * string * string) :=
  match l with
  | [] => []
  | EvSpeak voice config text :: rest => (voice, config, text) :: spoken rest
  | _ :: rest => spoken rest
  end.

Lemma spoken_app (l1 l2 : list event) :
  spoken (l1 ++ l2) = spoken l1 ++ spoken l2.
Proof.
  induction l1 as [|e l1 IH]; simpl; [reflexivity|].
  destruct e; simpl; now rewrite IH.
Qed.

(** Between the two states the main thread has not called the synthesizer,
    and when [same] holds it has changed neither the direction nor the
    models. *)
Definition unspoken (same : bool) (st st' : State) : Prop :=
  exists evs,
    main_of (log st') = main_of (log st) ++ evs /\ spoken evs = [] /\
    (same = true ->
     models st' = models st /\ current_direction st' = current_direction st).

Lemma unspoken_trans (a b : bool) (st1 st2 st3 : State) :
  unspoken a st1 st2 -> unspoken b st2 st3 -> unspoken (a && b) st1 st3.
Proof.
  intros [e1 [H1 [S1 K1]]] [e2 [H2 [S2 K2]]]. exists (e1 ++ e2).
  split; [now rewrite H2, H1, app_assoc|].
  split; [now rewrite spoken_app, S1, S2|].
  intros Hb. apply andb_true_iff in Hb. destruct Hb as [Ha Hb].
  destruct (K1 Ha) as [Km Kc]. destruct (K2 Hb) as [Km' Kc'].
  split; congruence.
Qed.

Section Playback.

Variable W : World.

Lemma playback_wait_S (fuel : nat) :
  playback_wait W (S fuel)
  = (e <- read_exit_requested ;;
     if e then ret false else
     b <- record_button_is_active W ;;
     if b then ret true else
     new_direction <- get_translation_direction W ;;
     cd <- gets current_direction ;;
     if negb (pyval_eqb new_direction cd) then
       green_led_off ;; switch_direction W new_direction ;; ret false
     else sleep W 10 ;; playback_wait W fuel).
Proof. reflexivity. Qed.

Lemma unspoken_events (st st' : State) (evs : list event) :
  main_of (log st') = main_of (log st) ++ evs -> spoken evs = [] ->
  models st' = models st -> current_direction st' = current_direction st ->
  unspoken true st st'.
Proof. intros Hl Hs Hm Hc. exists evs. auto. Qed.

(** The loop of lines 333-345: it calls neither the synthesizer nor, when
    it leaves with [play_translation] true, [load_models]. *)
Lemma playback_wait_unspoken (fuel : nat) :
  forall st,
    match playback_wait W fuel st with
    | Ret p st1 => unspoken p st st1
    | Raise _ st1 => unspoken false st st1
    | OutOfFuel => True
    end.
Proof.
  induction fuel as [|fuel IH]; intros st; [exact I|].
  rewrite playback_wait_S. unfold bind at 1.
  rewrite read_exit_requested_spec.
  destruct (exit_requested st) eqn:Ee.
  { exists [EvReadExit true]. simpl.
    rewrite main_of_app. repeat split; auto; discriminate. }
  set (sa := log_event MainThread (EvReadExit false) st).
  unfold bind at 1. rewrite record_button_is_active_spec.
  set (sb := log_event MainThread _ (tick W sa)).
  assert (Hab : unspoken true st sb).
  { apply unspoken_events
      with (evs := [EvReadExit false;
                    EvReadButton (record_button_at W (S (clock sa)))]);
      unfold sb, sa; settle; auto. now rewrite <- app_assoc. }
  destruct (record_button_at W (S (clock sa))) eqn:Eb; [exact Hab|].
  unfold bind at 1. rewrite get_translation_direction_spec.
  set (nd := if direction_switch_at W (S (clock sb))
             then es_to_en else en_to_es).
  set (sc := log_event MainThread _ (tick W sb)).
  assert (Hbc : unspoken true sb sc).
  { apply unspoken_events
      with (evs := [EvReadSwitch (direction_switch_at W (S (clock sb)))]);
      unfold sc; settle; auto. }
  pose proof (unspoken_trans true true _ _ _ Hab Hbc) as Hac.
  unfold bind at 1. unfold gets at 1.
  destruct (negb (pyval_eqb nd (current_direction sc))).
  - unfold green_led_off, emit. unfold bind, modify. simpl.
    set (sg := log_event MainThread (EvLed Green Off) _).
    destruct (switch_direction_spec W nd sg)
      as [s' [m' [E [_ [_ [_ [Hl _]]]]]]].
    rewrite E. unfold ret.
    apply (unspoken_trans true false _ sc _ Hac).
    exists (EvLed Green Off :: EvLoadModels nd
              :: loading_line nd ++ [announcement W (mode_file nd)]).
    split; [|split; [|discriminate]].
    + rewrite Hl. unfold sg. settle. now rewrite <- app_assoc.
    + simpl. rewrite spoken_app. unfold loading_line, announcement.
      destruct (pyval_eqb nd en_to_es); [|destruct (pyval_eqb nd es_to_en)];
        destruct (file_exists W (mode_file nd)); reflexivity.
  - unfold bind at 1.
    assert (Es : sleep W 10 sc
                 = Ret tt (log_event MainThread (EvSleep 10) (tick W sc)))
      by reflexivity.
    rewrite Es.
    set (sd := log_event MainThread (EvSleep 10) (tick W sc)).
    assert (Hcd : unspoken true sc sd).
    { apply unspoken_events with (evs := [EvSleep 10]);
        unfold sd; settle; auto. }
    pose proof (unspoken_trans true true _ _ _ Hac Hcd) as Had.
    specialize (IH sd).
    destruct (playback_wait W fuel sd) as [p s|e s|]; auto;
      apply (unspoken_trans true _ _ sd _ Had IH).
Qed.

End Playback.

(** X8.  However the phase that waits for the playback decision ends, it
    calls the synthesizer at most once, and only with the translation it
    was given and with the voice and configuration of the models that
    produced it: when the synthesizer has been called, neither the models
    nor the direction have changed since the phase began.  After a change
    of direction in that phase nothing is spoken. *)
Theorem only_the_fresh_translation_is_spoken
  (W : World) (fuel : nat) (translation : string) (st st' : State) :
  ends_in (playback_phase W fuel translation st) st' ->
  exists evs,
    main_of (log st') = main_of (log st) ++ evs /\
    (spoken evs = [] \/
     exists voice config,
       spoken evs = [(voice, config, translation)] /\
       Models.piper_voice (models st) = Some voice /\
       Models.piper_config (models st) = Some config /\
       models st' = models st /\
       current_direction st' = current_direction st).
Proof.
  intros H. unfold playback_phase, green_led_on, print, emit in H.
  unfold bind at 1 2 3 in H. unfold modify at 1 2 3 in H.
  set (s0 := log_event MainThread (EvPrint _) _) in H.
  assert (H0 : unspoken true st s0).
  { apply unspoken_events
      with (evs := [EvLed Green On;
                    EvPrint "Press button to play translation (or toggle switch to change direction)."]);
      unfold s0; settle; auto. now rewrite <- app_assoc. }
  unfold bind at 1 in H.
  pose proof (playback_wait_unspoken W fuel s0) as Hw.
  destruct (playback_wait W fuel s0) as [p st1|e st1|]; [| |destruct H].
  2: { simpl in H. subst st1.
       destruct (unspoken_trans true false _ _ _ H0 Hw) as [evs [Hl [Hs _]]].
       exists evs. auto. }
  pose proof (unspoken_trans true p _ _ _ H0 Hw) as H1.
  unfold after_playback_wait, green_led_off, emit in H.
  unfold bind at 1 2 in H. unfold modify at 1 2 in H.
  unfold bind at 1 in H. rewrite read_exit_requested_spec in H.
  set (s2 := log_event MainThread (EvReadExit _) _) in H.
  assert (H12 : unspoken true st1 s2).
  { apply unspoken_events
      with (evs := [EvLed Green Off; EvReadExit (exit_requested st1)]);
      unfold s2; settle; auto. now rewrite <- app_assoc. }
  assert (Hquiet : forall b, unspoken b st1 st' ->
            exists evs, main_of (log st') = main_of (log st) ++ evs /\
                        spoken evs = []).
  { intros b Hb.
    destruct (unspoken_trans p b st st1 st' H1 Hb) as [evs [Hl [Hs _]]].
    exists evs. auto. }
  simpl in H. destruct (exit_requested st1).
  { simpl in H. subst st'. destruct (Hquiet true H12) as [evs [Hl Hs]].
    exists evs. auto. }
  destruct p; simpl in H.
  2: { subst st'. destruct (Hquiet true H12) as [evs [Hl Hs]].
       exists evs. auto. }
  unfold print, emit in H. unfold bind at 1 in H. unfold modify at 1 in H.
  set (s3 := log_event MainThread (EvPrint "Speaking translation...") s2)
    in H.
  assert (H03 : unspoken true st s3).
  { apply (unspoken_trans true true st st1 s3 H1).
    apply (unspoken_trans true true st1 s2 s3 H12).
    apply unspoken_events with (evs := [EvPrint "Speaking translation..."]);
      unfold s3; settle; auto. }
  assert (Hs : ends_in (speak W translation s3) st').
  { unfold bind in H. destruct (speak W translation s3); exact H. }
  apply speak_ends in Hs.
  destruct H03 as [e3 [Hl3 [Hs3 Hk3]]]. destruct (Hk3 eq_refl) as [Hm3 Hc3].
  destruct Hs as [->|[voice [config [Hv [Hcf ->]]]]].
  - exists e3. rewrite tick_main_of. auto.
  - exists (e3 ++ [EvSpeak voice config translation]). simpl.
    rewrite main_of_app, tick_main_of, Hl3, <- app_assoc.
    split; [reflexivity|]. right. exists voice, config.
    rewrite spoken_app, Hs3, tick_models, tick_current_direction.
    rewrite <- Hm3. auto.
Qed.

(** ** The way out *)





Section Running.

Variable W : World.
Variable st0 : State.





End Running.


(** The device of [deaf_world], with the exit button pressed while the
    shutdown command runs. *)
Definition late_exit_world : World :=
  {| record_button_at := fun t => (3 <=? t)%nat && (t <=? 6)%nat;
     direction_switch_at := fun _ => false;
     exit_button_pressed_at := fun t => (t =? 8)%nat;
     exit_thread_steps_at := fun t => if (t =? 8)%nat then 1 else 0;
     microphone_at := fun _ => [];
     callback_suspended_at := fun _ => false;
     input_stream_open := fun _ => CtorRaises;
     file_exists := fun _ => true;
     final_result := fun _ _ => Parsed (JObject [("text", JString "hola")]);
     restore_punctuation := fun s => s;
     sp_encode := fun _ s => [s];
     translate_batch := fun _ l => l;
     sp_decode := fun _ l => String.concat " " l |}.

(** There the exit callback makes its first toggle after [red_led.off()] of
    line 359, and the program ends with the red indicator on. *)
Example red_indicator_toggled_during_shutdown :
  exists st',
    ends_in (main late_exit_world 3 10 initial_state) st' /\
    red_led st' = true /\ green_led st' = false.
Proof.
  eexists. split; [vm_compute; reflexivity|].
  split; vm_compute; reflexivity.
Qed.


(** ** The exit callback and the indicator *)

Lemma exit_step_red_led (W : World) (op : exit_op) (st : State) :
  red_led (exit_step W op st)
  = if is_toggle op then negb (red_led st) else red_led st.
Proof.
  destruct op; simpl; auto.
  unfold play_audio_file_as. now destruct (file_exists W path).
Qed.

Lemma run_exit_ops_red_led (W : World) (ops : list exit_op) (st : State) :
  red_led (run_exit_ops W ops st)
  = if Nat.even (List.length (filter is_toggle ops))
    then red_led st else negb (red_led st).
Proof.
  unfold run_exit_ops. revert st.
  induction ops as [|op ops IH]; intros st; [reflexivity|].
  cbn [fold_left filter]. rewrite IH, exit_step_red_led.
  destruct (is_toggle op); [|reflexivity].
  cbn [List.length]. rewrite Nat.even_succ, <- Nat.negb_even.
  destruct (Nat.even (List.length (filter is_toggle ops)));
    simpl; now rewrite ?negb_involutive.
Qed.

(** X12.  Run without interference, [exit_program] leaves the red indicator
    in the state in which it found it: it toggles it eight times.  Right
    after its first, third, fifth and seventh toggle the indicator is
    inverted, right after the others it is as found. *)
Theorem exit_program_restores_the_indicator (W : World) (st : State) :
  red_led (exit_program W st) = red_led st /\
  forall k, k < 8 ->
    red_led (run_exit_ops W (firstn (S (2 * k)) exit_program_body) st)
    = if Nat.even k then negb (red_led st) else red_led st.
Proof.
  split.
  - unfold exit_program. now rewrite run_exit_ops_red_led.
  - intros k Hk. rewrite run_exit_ops_red_led.
    do 8 (destruct k as [|k]; [reflexivity|]). lia.
Qed.

(** ** The translation-ready indicator *)

Lemma ends_bind {A B} (m : M A) (k : A -> M B) (st st' : State) :
  ends_in (bind m k st) st' ->
  (exists a s, m st = Ret a s /\ ends_in (k a s) st') \/
  (exists e, m st = Raise e st').
Proof.
  unfold bind. destruct (m st) as [a s|e s|]; simpl.
  - intros H. left. exists a, s. auto.
  - intros <-. right. exists e. reflexivity.
  - intros [].
Qed.

Transparent switch_direction.

(** What the switch of direction leaves alone besides what
    [switch_direction_spec] says. *)
Lemma switch_direction_untouched (W : World) (d : pyval) (st st' : State) :
  switch_direction W d st = Ret tt st' ->
  green_led st' = green_led st /\ streams_opened st' = streams_opened st.
Proof.
  destruct (load_models_total d (models st)) as [m' Hm].
  unfold switch_direction, load_models, load_message, play_mode_announcement,
    play_audio_file, pass_time, print, emit, bind, modify, gets, ret.
  unfold play_audio_file_as.
  destruct (pyval_eqb d en_to_es); [|destruct (pyval_eqb d es_to_en)];
    settle; rewrite Hm; settle;
    destruct (file_exists W _); intros H; injection H as <-; settle; auto.
Qed.

Opaque switch_direction.

Definition green_off (st : State) : Prop := green_led st = false.

Section Green.

Variable W : World.

Lemma green_upkeep : upkeep W green_off.
Proof.
  constructor; unfold green_off.
  - intros st H. now rewrite tick_green_led.
  - intros e st _ H. exact H.
  - intros v st H. exact H.
  - intros st H. reflexivity.
  - intros v st H. exact H.
  - intros d _. apply maintains_intro. intros st st' H He.
    destruct (switch_direction_spec W d st) as [s [m' [E _]]].
    rewrite E in He. simpl in He. subst s.
    destruct (switch_direction_untouched W d st st' E) as [Hg _]. congruence.
  - intros audio. apply maintains_intro. intros st st' H He.
    apply transcribe_ends in He. destruct He as [[_ ->]|[_ ->]]; simpl;
      now rewrite tick_green_led.
  - intros text. apply maintains_intro. intros st st' H He.
    apply translate_ends in He. destruct He as [->|[_ [_ [_ ->]]]]; simpl;
      now rewrite tick_green_led.
  - intros text. apply maintains_intro. intros st st' H He.
    apply speak_ends in He. destruct He as [->|[v [c [_ [_ ->]]]]]; simpl;
      now rewrite tick_green_led.
  - apply tolerant_record; auto. intros st H. now rewrite tick_green_led.
Qed.

Lemma safe_playback_wait fuel : safe (playback_wait W fuel).
Proof.
  induction fuel as [|fuel IH]; simpl; [apply safe_out_of_fuel|].
  apply safe_bind; [apply safe_read_exit_requested|]. intros e.
  destruct e; [apply safe_ret|].
  apply safe_bind; [apply safe_record_button_is_active|]. intros b.
  destruct b; [apply safe_ret|].
  apply safe_bind; [apply safe_get_translation_direction|]. intros nd.
  apply safe_bind; [apply safe_gets|]. intros cd.
  destruct (negb _).
  - apply safe_bind.
    { apply safe_bind; [apply safe_modify | intros _; apply safe_emit]. }
    intros _.
    apply safe_bind; [apply safe_switch_direction | intros _; apply safe_ret].
  - apply safe_bind; [apply safe_sleep | intros _; exact IH].
Qed.

Lemma idle_phase_green fuel st s :
  ends_in (idle_phase W fuel st) s -> green_led s = false.
Proof.
  intros H.
  assert (E : exists st0,
             idle_phase W fuel st
             = (dc <- wait_for_button_or_switch_change
                        W fuel (current_direction st) ;;
                after_idle_wait W dc) st0 /\ green_led st0 = false)
    by (eexists; split; reflexivity).
  destruct E as [st0 [E Hg]]. rewrite E in H.
  apply (maintains_ends green_off _ st0 s
           (m_idle_wait W green_off green_upkeep fuel _) Hg H).
Qed.

Lemma playback_phase_green fuel translation st s :
  ends_in (playback_phase W fuel translation st) s -> green_led s = false.
Proof.
  intros H.
  assert (E : exists st0,
             playback_phase W fuel translation st
             = (p <- playback_wait W fuel ;;
                after_playback_wait W p translation) st0)
    by (eexists; reflexivity).
  destruct E as [st0 E]. rewrite E in H. clear E.
  apply ends_bind in H. destruct H as [[p [s1 [Ew H]]]|[e Ew]];
    [|now apply safe_playback_wait in Ew].
  assert (E : exists s2,
             after_playback_wait W p translation s1
             = (e <- read_exit_requested ;;
                if e then ret Break
                else if negb p then ret Continue
                else print "Speaking translation..." ;;
                     speak W translation ;; ret Continue) s2 /\
             green_led s2 = false)
    by (eexists; split; reflexivity).
  destruct E as [s2 [E Hg]]. rewrite E in H.
  refine (maintains_ends green_off _ s2 s _ Hg H).
  apply m_bind; [apply (m_read_exit_requested W green_off green_upkeep)|].
  intros e. destruct e; [apply m_ret|].
  destruct (negb p); [apply m_ret|].
  apply m_bind; [apply (m_print W green_off green_upkeep)|]. intros _.
  apply m_bind; [apply (up_speak W green_off green_upkeep)|]. intros _.
  apply m_ret.
Qed.

End Green.

(** X13.  An iteration of the main loop that ends by itself - with
    [continue], with [break] or by falling off its end - or by an exception
    of one of its own statements ends with the translation-ready indicator
    off, whatever it was when the iteration began.  No [finally] of the
    iteration guards the indicator: an exception from outside that cuts the
    wait of lines 333-345 short leaves it on, and it is the [finally] block
    of the program that switches it off, however the [try] block has
    ended. *)
Theorem translation_ready_indicator_goes_off
  (W : World) (fuel : nat) (st st' : State) :
  (ends_in (main_iteration W fuel st) st' -> green_led st' = false) /\
  (forall body : M unit,
      ends_in (try_finally body (shutdown W) st) st' -> green_led st' = false).
Proof.
  split.
  - unfold main_iteration. unfold and_then at 1. intros H.
    apply ends_bind in H. destruct H as [[r [s1 [Ei H]]]|[e Ei]].
    2: { apply (idle_phase_green W fuel st st'). now rewrite Ei. }
    assert (H1 : green_led s1 = false)
      by (apply (idle_phase_green W fuel st s1); now rewrite Ei).
    destruct r as [u| |]; [|simpl in H; now subst|simpl in H; now subst].
    refine (maintains_ends green_off _ s1 st' _ H1 H).
    apply m_and_then;
      [apply (m_recording_phase W green_off (green_upkeep W))|]. intros _.
    apply m_and_then;
      [apply (m_processing_phase W green_off (green_upkeep W))|].
    intros translation. apply maintains_intro. intros s s' _.
    apply playback_phase_green.
  - intros body. unfold try_finally.
    assert (Hs : forall s, exists s2,
                 shutdown W s = Ret tt s2 /\ green_led s2 = false).
    { intros s. eexists. split; [reflexivity|]. settle. reflexivity. }
    destruct (body st) as [u s|e s|]; [| |intros []];
      destruct (Hs s) as [s2 [E Hg]]; rewrite E; simpl; now intros <-.
Qed.

(** X14.  The two wait functions only poll.  Neither raises; while one
    runs, the main thread does nothing but read the exit flag, the record
    button and the switch, and sleep, so that the stream, the models, the
    direction and the capture flags are as before when it returns.
    [wait_for_button_or_switch_change] returns ["exit"] with the flag set,
    [None] right after reading the record button active, or the direction
    it has just read from the switch, which then differs from
    [last_direction].  [wait_for_button_release_or_switch_change] returns
    ["exit"] with the flag set, [None] with the flag unset right after
    reading the record button inactive, or the direction it has just read
    from the switch, which then differs from [last_direction]. *)
Theorem the_waits_only_poll
  (W : World) (fuel : nat) (last : pyval) (st : State) :
  (forall e s, wait_for_button_or_switch_change W fuel last st <> Raise e s) /\
  (forall e s,
      wait_for_button_release_or_switch_change W fuel last st <> Raise e s) /\
  (forall v st',
      wait_for_button_or_switch_change W fuel last st = Ret v st' ->
      only_polled st st' /\
      ((v = Some "exit" /\ exit_requested st' = true) \/
       (v = None /\ record_button_at W (clock st') = true) \/
       (v = direction_at W (clock st') /\ v <> last))) /\
  (forall v st',
      wait_for_button_release_or_switch_change W fuel last st = Ret v st' ->
      only_polled st st' /\
      ((v = Some "exit" /\ exit_requested st' = true) \/
       (v = None /\ exit_requested st' = false /\
        record_button_at W (clock st') = false) \/
       (v = direction_at W (clock st') /\ v <> last))).
Proof.
  assert (Hne : forall v : pyval, pyval_eqb v last = false -> v <> last).
  { intros v H ->.
    assert (pyval_eqb last last = true) by now apply ModelsLoaded.pyval_eqb_eq.
    congruence. }
  split; [apply safe_wait_for_button_or_switch_change|].
  split; [apply safe_wait_for_button_release_or_switch_change|].
  split.
  - intros v st' E. split; [now apply (wait_idle_only_polled W fuel last st v)|].
    destruct (hoare_wait_for_button_or_switch_change W fuel last st v st' I E)
      as [H|[H|[H1 H2]]]; auto.
  - intros v st' E.
    split; [now apply (wait_release_only_polled W fuel last st v)|].
    destruct (hoare_wait_for_button_release_or_switch_change
                W fuel last st v st' I E) as [H|[H|[H1 H2]]]; auto.
Qed.

(** ** A run without exceptions *)

(** [sound I m]: from a state where [I] holds, [m] raises nothing and
    returns in a state where [I] holds. *)
Definition sound {A} (I : State -> Prop) (m : M A) : Prop :=
  forall st, I st ->
    match m st with
    | Ret _ st' => I st'
    | Raise _ _ => False
    | OutOfFuel => True
    end.

Lemma sound_intro {A} (I : State -> Prop) (m : M A) :
  maintains I m -> (forall st, I st -> forall e s, m st <> Raise e s) ->
  sound I m.
Proof.
  intros Hm Hs st H. specialize (Hm st). specialize (Hs st H).
  destruct (m st) as [a s|e s|]; auto. now apply (Hs e s).
Qed.

Lemma sound_safe {A} (I : State -> Prop) (m : M A) :
  maintains I m -> safe m -> sound I m.
Proof. intros Hm Hs. apply sound_intro; [exact Hm|]. intros st _. apply Hs. Qed.

Lemma sound_ret {A} (I : State -> Prop) (a : A) : sound I (ret a).
Proof. intros st H. exact H. Qed.

Lemma sound_out_of_fuel {A} (I : State -> Prop) :
  sound I (fun _ : State => @OutOfFuel A).
Proof. intros st H. exact Logic.I. Qed.

Lemma sound_bind {A B} (I : State -> Prop) (m : M A) (k : A -> M B) :
  sound I m -> (forall a, sound I (k a)) -> sound I (bind m k).
Proof.
  intros Hm Hk st H. unfold bind. specialize (Hm st H).
  destruct (m st) as [a s|e s|]; auto. apply (Hk a s Hm).
Qed.

Lemma sound_bind_returns {A B} (I : State -> Prop) (Q : A -> Prop)
  (m : M A) (k : A -> M B) :
  sound I m -> returns Q m -> (forall a, Q a -> sound I (k a)) ->
  sound I (bind m k).
Proof.
  intros Hm Hq Hk st H. unfold bind. specialize (Hm st H).
  destruct (m st) as [a s|e s|] eqn:E; auto.
  apply (Hk a (Hq st a s E) s Hm).
Qed.

Lemma sound_and_then {A B} (I : State -> Prop) (m : M (flow A))
  (k : A -> M (flow B)) :
  sound I m -> (forall a, sound I (k a)) -> sound I (and_then m k).
Proof.
  intros Hm Hk. unfold and_then. apply sound_bind; [exact Hm|].
  intros [a| |]; [apply Hk | apply sound_ret | apply sound_ret].
Qed.

Lemma maintains_both {A} (I1 I2 : State -> Prop) (m : M A) :
  maintains I1 m -> maintains I2 m ->
  maintains (fun st => I1 st /\ I2 st) m.
Proof.
  intros H1 H2 st. specialize (H1 st). specialize (H2 st).
  destruct (m st) as [a s|e s|]; auto; intros [K1 K2]; auto.
Qed.

Lemma upkeep_both (W : World) (I1 I2 : State -> Prop) :
  upkeep W I1 -> upkeep W I2 -> upkeep W (fun st => I1 st /\ I2 st).
Proof.
  intros H1 H2. destruct H1, H2. constructor; intros;
    try (apply maintains_both; auto);
    match goal with H : _ /\ _ |- _ => destruct H end; split; auto.
Qed.

(** Some complete model set is loaded. *)
Definition equipped (st : State) : Prop :=
  exists s n g,
    models st
    = ModelsLoaded.loaded (ms_vosk s) (ms_ct s) (ms_src s) (ms_tgt s)
                          (ms_voice s) (ms_config s) n g.

(** The name [stream] is bound, or no stream has been opened yet. *)
Definition bound (st : State) : Prop :=
  stream st <> None \/ streams_opened st = 0.

Section Sound.

Variable W : World.

Hypothesis first_stream_is_constructed : input_stream_open W 0 <> CtorRaises.

Hypothesis recognizer_answers :
  forall model audio, exists kv text,
    final_result W model audio = Parsed (JObject kv) /\
    dict_get kv "text" (JString "") = JString text.

Lemma equipped_switch d st st' :
  valid_direction d -> Models.fresh (models st) = None ->
  switch_direction W d st = Ret tt st' -> equipped st'.
Proof.
  intros Hd Hf E.
  destruct (switch_direction_spec W d st) as [s' [m' [E' [Hload [Hm _]]]]].
  rewrite E' in E. injection E as ->.
  destruct (model_set_of_valid d Hd) as [s [_ Hres]].
  rewrite (Hres _ Hf) in Hload. injection Hload as <-.
  exists s, (Models.next_id (models st)), (S (Models.loads (models st))).
  exact Hm.
Qed.

Lemma equipped_fresh st : equipped st -> Models.fresh (models st) = None.
Proof. intros [s [n [g ->]]]. reflexivity. Qed.

Lemma equipped_upkeep : upkeep W equipped.
Proof.
  constructor; unfold equipped.
  - intros st H. now rewrite tick_models.
  - intros e st _ H. exact H.
  - intros v st H. exact H.
  - intros st H. exact H.
  - intros v st H. exact H.
  - intros d Hd. apply maintains_intro. intros st st' H He.
    destruct (switch_direction_spec W d st) as [s [m' [E _]]].
    rewrite E in He. simpl in He. subst s.
    apply (equipped_switch d st st' Hd (equipped_fresh st H) E).
  - intros audio. apply maintains_intro. intros st st' H He.
    apply transcribe_ends in He. destruct He as [[_ ->]|[_ ->]]; simpl;
      now rewrite tick_models.
  - intros text. apply maintains_intro. intros st st' H He.
    apply translate_ends in He. destruct He as [->|[_ [_ [_ ->]]]]; simpl;
      now rewrite tick_models.
  - intros text. apply maintains_intro. intros st st' H He.
    apply speak_ends in He. destruct He as [->|[v [c [_ [_ ->]]]]]; simpl;
      now rewrite tick_models.
  - apply tolerant_record; auto. intros st H. now rewrite tick_models.
Qed.

(** Once a recording has been started the name [stream] is bound. *)
Lemma start_capture_binds st sta :
  bound st -> start_capture W st = Ret tt sta -> stream sta <> None.
Proof.
  intros Hb Es.
  destruct (start_capture_spec W st) as [s [E [_ [_ [_ [_ [_ Ho]]]]]]].
  rewrite Es in E. injection E as <-.
  destruct (input_stream_open W (streams_opened st)) eqn:Eo.
  - destruct Ho as [-> _]. discriminate.
  - destruct Ho as [-> _]. destruct Hb as [Hb|Hz]; [exact Hb|].
    rewrite Hz in Eo. contradiction.
  - destruct Ho as [-> _]. discriminate.
Qed.

Lemma record_outcome fuel st :
  bound st ->
  match (start_capture W ;; capture W fuel) st with
  | Ret _ st' => stream st' <> None
  | Raise _ _ => False
  | OutOfFuel => True
  end.
Proof.
  intros Hb.
  destruct (start_capture_spec W st) as [sta [Es _]].
  pose proof (start_capture_binds st sta Hb Es) as Hs.
  unfold bind. rewrite Es. unfold capture, bind, gets, try_finally.
  pose proof (polling_wait_for_button_release_or_switch_change
                W only_polled (polling_only_polled W) fuel
                (current_direction sta) sta) as Hw.
  pose proof (safe_wait_for_button_release_or_switch_change
                W fuel (current_direction sta) sta) as Hsafe.
  destruct (wait_for_button_release_or_switch_change W fuel
              (current_direction sta) sta) as [d st1|e st1|];
    [| exfalso; now apply (Hsafe e st1) | exact I].
  destruct Hw as [Hs1 _].
  destruct (stop_capture_bound W st1) as [st2 [E2 [_ [_ [_ [_ [Hs2 _]]]]]]];
    [congruence|].
  rewrite E2. congruence.
Qed.

Lemma bound_upkeep : upkeep W bound.
Proof.
  constructor; unfold bound.
  - intros st H. now rewrite tick_stream, tick_streams_opened.
  - intros e st _ H. exact H.
  - intros v st H. exact H.
  - intros st H. exact H.
  - intros v st H. exact H.
  - intros d _. apply maintains_intro. intros st st' H He.
    destruct (switch_direction_spec W d st)
      as [s [m' [E [_ [_ [_ [_ [_ [_ Hs]]]]]]]]].
    rewrite E in He. simpl in He. subst s.
    destruct (switch_direction_untouched W d st st' E) as [_ Ho].
    now rewrite Hs, Ho.
  - intros audio. apply maintains_intro. intros st st' H He.
    apply transcribe_ends in He. destruct He as [[_ ->]|[_ ->]]; simpl;
      now rewrite tick_stream, tick_streams_opened.
  - intros text. apply maintains_intro. intros st st' H He.
    apply translate_ends in He. destruct He as [->|[_ [_ [_ ->]]]]; simpl;
      now rewrite tick_stream, tick_streams_opened.
  - intros text. apply maintains_intro. intros st st' H He.
    apply speak_ends in He. destruct He as [->|[v [c [_ [_ ->]]]]]; simpl;
      now rewrite tick_stream, tick_streams_opened.
  - intros fuel st. pose proof (record_outcome fuel st) as H.
    destruct ((start_capture W ;; capture W fuel) st) as [a s|e s|];
      [| |exact Logic.I]; intros Hb; specialize (H Hb).
    + now left.
    + destruct H.
Qed.

(** The models are loaded and the finally block of a recording will find
    its stream. *)
Definition fit (st : State) : Prop := equipped st /\ bound st.

Lemma fit_upkeep : upkeep W fit.
Proof. apply upkeep_both; [apply equipped_upkeep | apply bound_upkeep]. Qed.

Lemma fit_green_on st : fit st -> fit (set_green_led true st).
Proof. intros H. exact H. Qed.

Lemma sound_idle_phase fuel : sound fit (idle_phase W fuel).
Proof.
  apply sound_safe; [apply m_idle_phase, fit_upkeep | apply safe_idle_phase].
Qed.

Lemma sound_recording_phase fuel : sound fit (recording_phase W fuel).
Proof.
  intros st H.
  assert (E : recording_phase W fuel st
              = (dc <- (start_capture W ;; capture W fuel) ;;
                 after_capture W dc) st)
    by (unfold recording_phase; now rewrite bind_assoc).
  rewrite E. clear E. revert st H.
  apply sound_bind_returns with (Q := wait_value).
  - apply sound_intro; [apply (up_record W fit fit_upkeep)|].
    intros st [_ Hb] e s Hr. pose proof (record_outcome fuel st Hb) as Ho.
    now rewrite Hr in Ho.
  - apply returns_bind. intros _. apply returns_capture.
  - intros dc Hv. apply sound_safe;
      [ apply (m_after_idle_wait W fit fit_upkeep dc Hv)
      | apply safe_after_idle_wait ].
Qed.

Definition is_text (j : json) : Prop := exists text, j = JString text.

Lemma returns_transcribe audio : returns is_text (transcribe W audio).
Proof.
  intros st j st'. unfold transcribe, pass_time, emit, bind, modify, gets.
  settle. destruct (Models.vosk_model (models st)); [|discriminate].
  simpl.
  match goal with
  | |- context [final_result W ?p audio] =>
      destruct (recognizer_answers p audio) as [kv [text [Hr Ht]]];
      rewrite Hr
  end.
  intros E. injection E as <- _. exists text. exact Ht.
Qed.

Lemma sound_transcribe audio : sound fit (transcribe W audio).
Proof.
  apply sound_intro; [apply (up_transcribe W fit fit_upkeep)|].
  intros st [[s [n [g Hm]]] _] e x.
  unfold transcribe, pass_time, emit, bind, modify, gets. settle.
  rewrite Hm. simpl.
  match goal with
  | |- context [final_result W ?p audio] =>
      destruct (recognizer_answers p audio) as [kv [text [Hr Ht]]];
      rewrite Hr
  end.
  discriminate.
Qed.

Lemma sound_translate text : sound fit (translate W text).
Proof.
  apply sound_intro; [apply (up_translate W fit fit_upkeep)|].
  intros st [[s [n [g Hm]]] _] e x.
  destruct (translate_loaded W s n g text st Hm) as [st' [E _]].
  rewrite E. discriminate.
Qed.

Lemma sound_speak text : sound fit (speak W text).
Proof.
  apply sound_intro; [apply (up_speak W fit fit_upkeep)|].
  intros st [[s [n [g Hm]]] _] e x.
  destruct (speak_loaded W s n g text st Hm) as [st' [E _]].
  rewrite E. discriminate.
Qed.

Lemma safe_play_no_audio d : safe (play_no_audio W d).
Proof.
  unfold play_no_audio, play_audio_file.
  destruct (pyval_eqb d en_to_es);
    (apply safe_bind; [apply safe_modify | intros _; apply safe_modify]).
Qed.

Lemma sound_quiet {A} (m : M A) : maintains fit m -> safe m -> sound fit m.
Proof. apply sound_safe. Qed.

Lemma sound_print msg : sound fit (print msg).
Proof. apply sound_safe; [apply (m_print W fit fit_upkeep) | apply safe_modify]. Qed.

Lemma sound_red_led_on : sound fit red_led_on.
Proof.
  apply sound_safe; [apply (m_red_led_on W fit fit_upkeep)|].
  apply safe_bind; [apply safe_modify | intros _; apply safe_emit].
Qed.

Lemma sound_red_led_off : sound fit red_led_off.
Proof.
  apply sound_safe; [apply (m_red_led_off W fit fit_upkeep)|].
  apply safe_bind; [apply safe_modify | intros _; apply safe_emit].
Qed.

Lemma sound_play_no_audio d : sound fit (play_no_audio W d).
Proof.
  apply sound_safe; [apply m_play_no_audio, fit_upkeep|].
  apply safe_play_no_audio.
Qed.

Lemma sound_after_transcription j :
  is_text j -> sound fit (after_transcription W j).
Proof.
  intros [text ->]. unfold after_transcription.
  destruct (String.eqb _ _).
  - apply sound_bind; [apply sound_print|]. intros _.
    apply sound_bind;
      [apply sound_safe; [apply m_gets | apply safe_gets]|]. intros cd.
    apply sound_bind; [apply sound_play_no_audio|]. intros _.
    apply sound_ret.
  - apply sound_bind; [apply sound_print|]. intros _.
    apply sound_bind.
    { apply sound_safe; [apply m_restore_punctuation_call, fit_upkeep|].
      apply safe_bind; [apply safe_modify|]. intros _.
      apply safe_bind; [apply safe_emit | intros _; apply safe_ret]. }
    intros p.
    apply sound_bind; [apply sound_print|]. intros _.
    apply sound_bind; [apply sound_print|]. intros _.
    apply sound_bind; [apply sound_red_led_on|]. intros _.
    apply sound_bind; [apply sound_translate|]. intros t.
    apply sound_bind; [apply sound_red_led_off|]. intros _.
    apply sound_ret.
Qed.

Lemma sound_processing_phase : sound fit (processing_phase W).
Proof.
  unfold processing_phase.
  apply sound_bind.
  { apply sound_safe; [apply (m_drain W fit fit_upkeep)|].
    apply safe_bind; [apply safe_gets|]. intros queue.
    apply safe_bind; [apply safe_modify | intros _; apply safe_ret]. }
  intros frames. rewrite aggregate_concat.
  destruct (Nat.eqb _ _).
  - apply sound_bind; [apply sound_print|]. intros _.
    apply sound_bind;
      [apply sound_safe; [apply m_gets | apply safe_gets]|]. intros cd.
    apply sound_bind; [apply sound_play_no_audio|]. intros _.
    apply sound_ret.
  - apply sound_bind; [apply sound_print|]. intros _.
    apply sound_bind; [apply sound_red_led_on|]. intros _.
    apply sound_bind_returns with (Q := is_text);
      [apply sound_transcribe | apply returns_transcribe|].
    intros j Hj.
    apply sound_bind; [apply sound_red_led_off|]. intros _.
    apply sound_bind; [apply sound_print|]. intros _.
    now apply sound_after_transcription.
Qed.

Lemma sound_playback_phase fuel translation :
  sound fit (playback_phase W fuel translation).
Proof.
  unfold playback_phase.
  apply sound_bind.
  { apply sound_safe; [apply (m_green_led_on W fit fit_upkeep fit_green_on)|].
    apply safe_bind; [apply safe_modify | intros _; apply safe_emit]. }
  intros _. apply sound_bind; [apply sound_print|]. intros _.
  apply sound_bind.
  { apply sound_safe; [apply m_playback_wait, fit_upkeep|].
    apply safe_playback_wait. }
  intros p. unfold after_playback_wait.
  apply sound_bind.
  { apply sound_safe; [apply (m_green_led_off W fit fit_upkeep)|].
    apply safe_bind; [apply safe_modify | intros _; apply safe_emit]. }
  intros _. apply sound_bind.
  { apply sound_safe; [apply (m_read_exit_requested W fit fit_upkeep)|].
    apply safe_read_exit_requested. }
  intros e. destruct e; [apply sound_ret|].
  destruct (negb p); [apply sound_ret|].
  apply sound_bind; [apply sound_print|]. intros _.
  apply sound_bind; [apply sound_speak|]. intros _. apply sound_ret.
Qed.

Lemma sound_main_loop rounds fuel : sound fit (main_loop W rounds fuel).
Proof.
  induction rounds as [|rounds IH]; simpl; [apply sound_out_of_fuel|].
  apply sound_bind.
  { apply sound_safe; [apply (m_read_exit_requested W fit fit_upkeep)|].
    apply safe_read_exit_requested. }
  intros e. destruct e; [apply sound_ret|].
  apply sound_bind.
  { unfold main_iteration.
    apply sound_and_then; [apply sound_idle_phase|]. intros _.
    apply sound_and_then; [apply sound_recording_phase|]. intros _.
    apply sound_and_then; [apply sound_processing_phase|]. intros t.
    apply sound_playback_phase. }
  intros r. destruct r; [exact IH | exact IH | apply sound_ret].
Qed.

Lemma main_is_sound rounds fuel st :
  Models.fresh (models st) = None -> bound st ->
  forall e s, main W rounds fuel st <> Raise e s.
Proof.
  intros Hf Hb e s H.
  assert (He : ends_in (main W rounds fuel st) s) by (rewrite H; reflexivity).
  rewrite main_unfold in H. unfold try_finally in H.
  assert (Hbody : match (d <- get_translation_direction W ;;
                         switch_direction W d ;; main_loop W rounds fuel) st
                  with
                  | Raise _ _ => False
                  | _ => True
                  end).
  { unfold bind at 1. rewrite get_translation_direction_spec.
    set (d := if direction_switch_at W (S (clock st))
              then es_to_en else en_to_es).
    set (st1 := log_event MainThread _ (tick W st)).
    assert (Hd : valid_direction d)
      by (unfold d, valid_direction; destruct (direction_switch_at W _); auto).
    destruct (switch_direction_spec W d st1)
      as [st2 [m' [E [_ [_ [_ [_ [_ [_ Hs]]]]]]]]].
    unfold bind. rewrite E.
    assert (Hfit : fit st2).
    { split.
      - apply (equipped_switch d st1 st2 Hd); [|exact E].
        unfold st1. simpl. now rewrite tick_models.
      - destruct (switch_direction_untouched W d st1 st2 E) as [_ Ho].
        unfold bound. rewrite Hs, Ho. unfold st1. simpl.
        now rewrite tick_stream, tick_streams_opened. }
    pose proof (sound_main_loop rounds fuel st2 Hfit) as Hl.
    destruct (main_loop W rounds fuel st2); auto. }
  destruct ((d <- get_translation_direction W ;;
             switch_direction W d ;; main_loop W rounds fuel) st)
    as [u x|e' x|]; [| destruct Hbody | discriminate].
  assert (Hs : exists x2, shutdown W x = Ret tt x2)
    by (eexists; reflexivity).
  destruct Hs as [x2 Hs]. rewrite Hs in H. discriminate.
Qed.

End Sound.

(** X15.  A counterpart of the two failures above: when the first
    construction of an input stream succeeds ([stream] is then bound for
    good) and every final result of the recognizer is a JSON object whose
    ["text"] is a string, no exception ever leaves the main program,
    whatever the operator does and however the other threads are
    scheduled. *)
Theorem no_exception_with_working_devices
  (W : World) (rounds fuel : nat) (st : State) :
  input_stream_open W 0 <> CtorRaises ->
  (forall model audio, exists kv text,
      final_result W model audio = Parsed (JObject kv) /\
      dict_get kv "text" (JString "") = JString text) ->
  Models.fresh (models st) = None ->
  stream st <> None \/ streams_opened st = 0 ->
  forall e s, main W rounds fuel st <> Raise e s.
Proof.
  intros Ho Hr Hf Hb. now apply main_is_sound.
Qed.

(** ** Every load is announced *)







Section Announced.

Variable W : World.
Variable st0 : State.







End Announced.


(** * A complete session *)

(** The operator holds the record button from tick 4 to tick 7, presses it
    again at tick 13 to hear the translation, and presses the exit button
    during tick 15; the exit callback then runs to its end at once.  Every
    call of the stream callback is suspended after its test of [recording]
    and resumes in the next tick. *)
Definition session_world : World :=
  {| record_button_at :=
       fun t => ((4 <=? t)%nat && (t <=? 7)%nat) || (t =? 13)%nat;
     direction_switch_at := fun _ => false;
     exit_button_pressed_at := fun t => (t =? 15)%nat;
     exit_thread_steps_at := fun t => if (t =? 15)%nat then 19 else 0;
     microphone_at :=
       fun t => [{| dl_status := false; dl_indata := [Z.of_nat t] |}];
     callback_suspended_at := fun _ => true;
     input_stream_open := fun _ => OpenOk;
     file_exists := fun _ => true;
     final_result :=
       fun _ _ => Parsed (JObject [("text", JString "hello there")]);
     restore_punctuation := fun _ => "Hello there.";
     sp_encode := fun _ s => [s];
     translate_batch := fun _ _ => ["Hola."];
     sp_decode := fun _ l => String.concat " " l |}.

Definition session_end : State :=
  Eval vm_compute in state_of (main session_world 3 10 initial_state).

Example a_complete_session :
  main session_world 3 10 initial_state = Ret tt session_end /\
  main_of (log session_end)
  = [EvReadSwitch false; EvLoadModels (Some "en_to_es");
     EvPrint "Loading EN->ES models"; EvAplay "./en-es-mode-quieter.wav";
     EvReadExit false; EvLed Red Off; EvLed Green Off;
     EvPrint "Mode: EN->ES";
     EvPrint
       "Press/hold button to record (or toggle switch to change direction).";
     EvReadExit false; EvReadButton true; EvReadExit false;
     EvStreamStart 0; EvLed Red On;
     EvPrint
       "Recording... (release button to stop, or toggle switch to change direction)";
     EvReadButton true; EvReadExit false; EvReadSwitch false; EvSleep 10;
     EvReadButton false; EvReadExit false;
     EvStreamStop; EvStreamClose; EvLed Red Off; EvReadExit false;
     EvPrint "Transcribing..."; EvLed Red On;
     EvRecognize (Some "vosk_models/vosk-model-small-en-us-0.15")
                 [4%Z; 5%Z; 6%Z; 7%Z];
     EvLed Red Off; EvPrint "Recognized";
     EvPrint "Restoring punctuation..."; EvPunctuate "hello there";
     EvPrint "Punctuated"; EvPrint "Translating..."; EvLed Red On;
     EvTranslate (Some "./CTranslate/en-es-ctranslate2") "Hello there.";
     EvLed Red Off; EvLed Green On;
     EvPrint
       "Press button to play translation (or toggle switch to change direction).";
     EvReadExit false; EvReadButton true; EvLed Green Off; EvReadExit false;
     EvPrint "Speaking translation...";
     EvSpeak "./piper_models/es_ES-davefx-medium.onnx"
             "./piper_models/es_ES-davefx-medium.onnx.json" "Hola.";
     EvReadExit false; EvLed Red Off; EvLed Green Off;
     EvPrint "Mode: EN->ES";
     EvPrint
       "Press/hold button to record (or toggle switch to change direction).";
     EvReadExit false; EvReadButton false; EvReadSwitch false; EvSleep 10;
     EvReadExit true; EvReadExit true;
     EvPrint "Exiting translator"; EvLed Red Off; EvLed Green Off;
     EvPrint "Shutting down"; EvShutdown].
Proof. split; vm_compute; reflexivity. Qed.

(** The states between the phases of the first iteration of that session. *)
Definition session_idle : State := set_clock 3 ready_state.

Definition session_pressed : State :=
  Eval vm_compute in state_of (idle_phase session_world 5 session_idle).

Definition session_recorded : State :=
  Eval vm_compute in state_of (recording_phase session_world 5 session_pressed).

Definition session_translated : State :=
  Eval vm_compute in state_of (processing_phase session_world session_recorded).

Definition session_played : State :=
  Eval vm_compute in
    state_of (playback_phase session_world 5 "Hola." session_translated).


Lemma recording_keeps_every_block_witness :
  in_flight session_pressed = None /\
  input_stream_open session_world (streams_opened session_pressed) = OpenOk /\
  recording_phase session_world 5 session_pressed
  = Ret (Proceed tt) session_recorded /\
  exists n,
    clock session_recorded = S (clock session_pressed + n) /\
    q session_recorded = delivered session_world (clock session_pressed) n.
Proof.
  assert (E : recording_phase session_world 5 session_pressed
              = Ret (Proceed tt) session_recorded)
    by (vm_compute; reflexivity).
  split; [reflexivity|]. split; [reflexivity|]. split; [exact E|].
  destruct (recording_keeps_every_block session_world 5 session_pressed
              session_recorded eq_refl eq_refl E) as [n [Hk [_ [Hq _]]]].
  exists n. split; assumption.
Defined.

(** There the queue holds the four blocks of the ticks 4 to 7. *)
Example session_recording :
  q session_recorded = [[4%Z]; [5%Z]; [6%Z]; [7%Z]] /\
  clock session_recorded = 9.
Proof. split; reflexivity. Qed.

Lemma processing_phase_translates_witness :
  exists st',
    processing_phase session_world session_recorded
    = Ret (Proceed "Hola.") st' /\
    models st' = models session_recorded.
Proof.
  destruct (processing_phase_translates session_world EN_ES 0 1
              session_recorded [("text", JString "hello there")]
              "hello there")
    as [st' [E [_ [Hm _]]]];
    [ reflexivity | vm_compute; discriminate | reflexivity | reflexivity
    | reflexivity | ].
  exists st'. split; [exact E | exact Hm].
Defined.

Lemma only_the_fresh_translation_is_spoken_witness :
  ends_in (playback_phase session_world 5 "Hola." session_translated)
          session_played /\
  exists evs,
    main_of (log session_played) = main_of (log session_translated) ++ evs /\
    (spoken evs = [] \/
     exists voice config, spoken evs = [(voice, config, "Hola.")]).
Proof.
  assert (H : ends_in (playback_phase session_world 5 "Hola."
                         session_translated) session_played)
    by (vm_compute; reflexivity).
  split; [exact H|].
  destruct (only_the_fresh_translation_is_spoken session_world 5 "Hola."
              session_translated session_played H) as [evs [Hl Hs]].
  exists evs. split; [exact Hl|].
  destruct Hs as [Hs|[voice [config [Hs _]]]]; [now left|].
  right. exists voice, config. exact Hs.
Defined.

Lemma microphone_is_released_witness :
  stream_active initial_state = false /\ recording initial_state = false /\
  ends_in (main session_world 3 10 initial_state) session_end /\
  stream_active session_end = false /\ recording session_end = false.
Proof.
  assert (H : ends_in (main session_world 3 10 initial_state) session_end)
    by (vm_compute; reflexivity).
  split; [reflexivity|]. split; [reflexivity|]. split; [exact H|].
  destruct (microphone_is_released session_world 3 10 initial_state
              session_end) as [_ Hr].
  destruct (Hr eq_refl eq_refl) as [_ Hm]. exact (Hm H).
Defined.

Lemma models_follow_the_direction_witness :
  ends_in (main session_world 3 10 initial_state) session_end /\
  directed None (main_of (log session_end)) = true.
Proof.
  assert (H : ends_in (main session_world 3 10 initial_state) session_end)
    by (vm_compute; reflexivity).
  split; [exact H|].
  destruct (models_follow_the_direction session_world 3 10 initial_state
              session_end eq_refl eq_refl) as [Hd _].
  exact (Hd H).
Defined.

Lemma translation_ready_indicator_goes_off_witness :
  ends_in (main_iteration session_world 5 session_idle) session_played /\
  green_led session_played = false.
Proof.
  assert (H : ends_in (main_iteration session_world 5 session_idle)
                      session_played) by (vm_compute; reflexivity).
  split; [exact H|].
  destruct (translation_ready_indicator_goes_off session_world 5
              session_idle session_played) as [Hg _].
  exact (Hg H).
Defined.

Lemma the_waits_only_poll_witness :
  exists st',
    wait_for_button_or_switch_change session_world 5 en_to_es session_idle
    = Ret None st' /\
    only_polled session_idle st'.
Proof.
  destruct (the_waits_only_poll session_world 5 en_to_es session_idle)
    as [_ [_ [H _]]].
  eexists. split; [vm_compute; reflexivity|].
  apply (H None). vm_compute. reflexivity.
Defined.

Lemma no_exception_with_working_devices_witness :
  input_stream_open session_world 0 <> CtorRaises /\
  match main session_world 3 10 initial_state with
  | Raise _ _ => False
  | _ => True
  end.
Proof.
  split; [discriminate|].
  pose proof (no_exception_with_working_devices session_world 3 10
                initial_state) as H.
  destruct (main session_world 3 10 initial_state) as [u s|e s|];
    [exact I | | exact I].
  apply (H ltac:(discriminate)
           ltac:(intros model audio;
                 exists [("text", JString "hello there")], "hello there";
                 split; reflexivity)
           eq_refl (or_intror eq_refl) e s eq_refl).
Defined.

